(** * Pass prediction of src/app.js: coarse scan, bisection, peak finder

    The development embeds the pass-prediction core of [src/app.js]
    ([bisectCrossingTime], [findMaxElevation], [computeNextPasses]) and
    proves properties of it.

    Conventions of the embedding.
    - A JavaScript [Date] is its time value, an integral number of
      milliseconds: a [Z].  [new Date(x)] truncates [x] towards zero.
    - A JavaScript number that is not known to be integral (the bisection
      bounds [a], [b], [m], an elevation, a longitude) is a rational
      [Q].  Elevations are only ever compared, and the sign of a binary64
      difference is the sign of the exact difference.
    - The arithmetic on these numbers is given twice.  [midpoint],
      [bisectCrossingTime], [scanPasses] and [normalizeLon] compute
      with exact rationals and dates of any size; [midpoint64],
      [bisectCrossingTime64], [scanPasses64] and [normalizeLon64] round
      every result to binary64 ([round64]) and keep the range limit of a
      [Date] ([timeClip]).  The properties that depend on the value of a
      midpoint, on a computed window end or on a rounded difference are
      proved of the latter.  The properties proved of the former rest on
      a midpoint lying between the two bounds, which [midpoint64_between]
      shows of the computed midpoint as well, on the midpoints that the
      loop itself probes, or on the first midpoint of two dates, which
      is computed exactly ([midpoint64_dates]); the ground track uses of
      [normalizeLon] what [normalizeLon64_range] shows of the rounded
      differences as well.
    - The pass count and the search horizon are the integers that
      [parseInt] reads from the form; [NaN] is not modelled.
    - [elevationDeg(satrec, date, obsLat, obsLon, obsAltM)] calls the
      external propagation library; with the satellite record and the
      observer fixed for one search it is a function from the time value
      to an elevation or [null]: a section variable. *)

From Stdlib Require Import ZArith QArith Qround Qreduction Qabs Qminmax.
From Stdlib Require Import Qpower.
From Stdlib Require Import List Bool Lia Lqa String Sorted.
From Stdlib Require Import Ascii.
From Stdlib Require DecimalString.
Import ListNotations.

Local Open Scope Z_scope.

(** ** JavaScript numbers and dates *)

(** [x < y] on numbers, as a boolean. *)
Definition Qltb (x y : Q) : bool := negb (Qle_bool y x).

(** [new Date(x).getTime()]: the fractional part is dropped, towards zero. *)
Definition newDate (x : Q) : Z :=
  if Qle_bool 0 x then Qfloor x else Qceiling x.

(** [(a + b) / 2], kept in lowest terms. *)
Definition midpoint (a b : Q) : Q := Qred ((a + b) / 2)%Q.

(** ** [for (let x = x0; x <= xEnd; x += step) body]

    The loop is a structural recursion on [fuel], a bound on the number
    of iterations; [forLoop_runs] below shows that [loopFuel] iterations
    always reach the end of the loop. *)

Inductive LoopCtl (S : Type) : Type :=
| Continue (s : S)   (* fall through to the increment, or [continue] *)
| Break (s : S).     (* [break] *)
Arguments Continue {S} s.
Arguments Break {S} s.

Fixpoint forLoop {S : Type} (fuel : nat) (xEnd step : Z)
    (body : Z -> S -> LoopCtl S) (x : Z) (s : S) : S :=
  match fuel with
  | O => s
  | Datatypes.S fuel' =>
      if x <=? xEnd then
        match body x s with
        | Continue s' => forLoop fuel' xEnd step body (x + step) s'
        | Break s' => s'
        end
      else s
  end.

(** The number of times the guard [x <= xEnd] can succeed. *)
Definition loopFuel (x xEnd step : Z) : nat :=
  Z.to_nat ((xEnd - x) / step + 1).

Section PassPrediction.

(** The elevation oracle: [None] is JavaScript's [null]. *)
Variable elevationDeg : Z -> option Q.

(** ** bisectCrossingTime (app.js 124-148) *)

(** The loop variables [a], [b], [ea], [eb]. *)
Record Bracket : Type := mkBracket {
  bA : Q;
  bB : Q;
  bEa : Q;
  bEb : Q
}.

Inductive BisectStep : Type :=
| StepNull                (* [if (em === null) return null] *)
| StepReturn (t : Z)      (* [if (fa === 0) return new Date(a)] *)
| StepNext (s : Bracket). (* the next iteration's variables *)

(** One iteration of the loop body (lines 133-145). *)
Definition bisectStep (targetElevDeg : Q) (s : Bracket) : BisectStep :=
  let m := midpoint (bA s) (bB s) in
  match elevationDeg (newDate m) with
  | None => StepNull
  | Some em =>
      let fa := (bEa s - targetElevDeg)%Q in
      let fm := (em - targetElevDeg)%Q in
      if Qeq_bool fa 0 then StepReturn (newDate (bA s))
      else if (Qltb 0 fa && Qltb 0 fm) || (Qltb fa 0 && Qltb fm 0)
      then StepNext (mkBracket m (bB s) em (bEb s))
      else StepNext (mkBracket (bA s) m (bEa s) em)
  end.

(** [for (let i = 0; i < iters; i++) ...; return new Date((a + b) / 2)]. *)
Fixpoint bisectLoop (targetElevDeg : Q) (iters : nat) (s : Bracket)
    : option Z :=
  match iters with
  | O => Some (newDate (midpoint (bA s) (bB s)))
  | S n =>
      match bisectStep targetElevDeg s with
      | StepNull => None
      | StepReturn t => Some t
      | StepNext s' => bisectLoop targetElevDeg n s'
      end
  end.

(** The loop variables at the start of iteration [i], when the loop gets
    that far. *)
Fixpoint bisectStateAt (targetElevDeg : Q) (i : nat) (s : Bracket)
    : option Bracket :=
  match i with
  | O => Some s
  | S n =>
      match bisectStep targetElevDeg s with
      | StepNext s' => bisectStateAt targetElevDeg n s'
      | _ => None
      end
  end.

Definition bisectInit (t0 t1 : Z) (ea eb : Q) : Bracket :=
  mkBracket (inject_Z t0) (inject_Z t1) ea eb.

Definition bisectCrossingTime (t0 t1 : Z) (targetElevDeg : Q) (iters : nat)
    : option Z :=
  let a := inject_Z t0 in
  let b := inject_Z t1 in
  match elevationDeg (newDate a), elevationDeg (newDate b) with
  | Some ea, Some eb => bisectLoop targetElevDeg iters (mkBracket a b ea eb)
  | _, _ => None
  end.

(** The default of the [iters] parameter. *)
Definition defaultIters : nat := 25.

(** ** findMaxElevation (app.js 150-161) *)

Record Peak : Type := mkPeak {
  peakT : Z;
  peakElev : Q
}.

(** [const step = 5 * 1000]. *)
Definition fineStepMs : Z := 5 * 1000.

(** The body of the sampling loop (lines 157-158). *)
Definition peakBody (ms : Z) (best : Peak) : LoopCtl Peak :=
  match elevationDeg (newDate (inject_Z ms)) with
  | Some e => if Qltb (peakElev best) e then Continue (mkPeak ms e)
              else Continue best
  | None => Continue best
  end.

Definition findMaxElevation (aos los : Z) : Peak :=
  let start := aos in
  let end_ := los in
  forLoop (loopFuel start end_ fineStepMs) end_ fineStepMs peakBody start
    (mkPeak start (-999 # 1)%Q).

(** ** computeNextPasses (app.js 168-257) *)

Record Pass : Type := mkPass {
  aos : Z;
  los : Z;
  tca : Z;
  maxElev : Q
}.

(** The variables of the scan that live across iterations. *)
Record Scan : Type := mkScan {
  prevT : Z;
  prevE : Q;
  inPass : bool;
  currentAOS : option Z;
  passes : list Pass
}.

(** [const stepMs = 20 * 1000]. *)
Definition stepMs : Z := 20 * 1000.

(** [x || new Date(t)] for a [Date] or [null] [x]: a [Date] is truthy. *)
Definition orDate (x : option Z) (t : Z) : Z :=
  match x with Some d => d | None => t end.

(** Lines 192-196: the upward crossing. *)
Definition crossUp (t : Z) (e : Q) (s : Scan) : Scan :=
  if negb (inPass s) && Qle_bool (prevE s) 0 && Qltb 0 e then
    let aos' := bisectCrossingTime (prevT s) t 0 defaultIters in
    mkScan (prevT s) (prevE s) true (Some (orDate aos' t)) (passes s)
  else s.

(** Lines 199-215: the downward crossing.  The result says whether the
    loop is left by [break]. *)
Definition crossDown (nPasses : Z) (t : Z) (e : Q) (s : Scan)
    : LoopCtl Scan :=
  if inPass s && Qltb 0 (prevE s) && Qle_bool e 0 then
    let los' := bisectCrossingTime (prevT s) t 0 defaultIters in
    let finalLOS := orDate los' t in
    match currentAOS s with
    | Some a =>
        if a <? finalLOS then
          let peak := findMaxElevation a finalLOS in
          let passes' :=
            passes s ++ [mkPass a finalLOS (peakT peak) (peakElev peak)] in
          if Z.of_nat (List.length passes') >=? nPasses
          then Break (mkScan (prevT s) (prevE s) false (Some a) passes')
          else Continue (mkScan (prevT s) (prevE s) false None passes')
        else Continue (mkScan (prevT s) (prevE s) false None (passes s))
    | None => Continue (mkScan (prevT s) (prevE s) false None (passes s))
    end
  else Continue s.

(** The body of the coarse scan (lines 187-218). *)
Definition scanBody (nPasses : Z) (tMs : Z) (s : Scan) : LoopCtl Scan :=
  let t := newDate (inject_Z tMs) in
  match elevationDeg t with
  | None => Continue s
  | Some e =>
      match crossDown nPasses t e (crossUp t e s) with
      | Break s' => Break s'
      | Continue s' =>
          Continue (mkScan t e (inPass s') (currentAOS s') (passes s'))
      end
  end.

(** Lines 176-184: the scan variables before the loop. *)
Definition scanInit (start : Z) : Scan :=
  let prevT := start in
  let prevE := match elevationDeg prevT with
               | Some e => e
               | None => (-999 # 1)%Q
               end in
  let inPass := Qltb 0 prevE in
  mkScan prevT prevE inPass (if inPass then Some start else None) [].

(** [end = start + searchHours * 3600 * 1000]. *)
Definition windowEnd (start searchHours : Z) : Z :=
  start + searchHours * 3600 * 1000.

(** The scan loop of lines 186-219 and the passes it leaves. *)
Definition scanPasses (start nPasses searchHours : Z) : list Pass :=
  let end_ := windowEnd start searchHours in
  passes
    (forLoop (loopFuel (start + stepMs) end_ stepMs) end_ stepMs
       (scanBody nPasses) (start + stepMs) (scanInit start)).

(** What the function leaves behind: the status line and the table. *)
Inductive Outcome : Type :=
| NoPassesFound (searchHours : Z)
    (* line 222: the status text says that no pass was found in the next
       [searchHours] hours; the table stays empty *)
| PassesListed (name : string) (rows : list Pass).
    (* lines 227-256: one table row per pass, the status text gives the
       count *)

Definition computeNextPasses (name : string) (start nPasses searchHours : Z)
    : Outcome :=
  match scanPasses start nPasses searchHours with
  | [] => NoPassesFound searchHours
  | ps => PassesListed name ps
  end.

End PassPrediction.


(** * Binary64 arithmetic

    The bounds [a], [b] and [m] of the bisection are binary64 numbers,
    and [(a + b) / 2] is two binary64 operations: the sum is rounded to
    the nearest binary64 number, a tie going to the even significand,
    and so is the half.  [round64] is that rounding on the rationals:
    53 significant bits, subnormal numbers below [2^-1022].  Overflow to
    an infinity is not modelled; the numbers below are time values,
    sums of two of them and longitudes in degrees. *)

(** [floor (log2 |x|)] for [x <> 0]: the exponent of the leading bit. *)
Definition ilog2 (x : Q) : Z :=
  let e := Z.log2 (Z.abs (Qnum x)) - Z.log2 (Zpos (Qden x)) in
  if Qle_bool (2 ^ e) (Qabs x) then e else e - 1.

(** The exponent of the last bit of the binary64 numbers of the size of
    [x]. *)
Definition ulpExp (x : Q) : Z := Z.max (ilog2 x - 52) (-1074).

(** The nearest integer, a tie going to the even one. *)
Definition roundHalfEven (x : Q) : Z :=
  let f := Qfloor x in
  match (x - inject_Z f ?= 1 # 2)%Q with
  | Lt => f
  | Gt => f + 1
  | Eq => if Z.even f then f else f + 1
  end.

(** The binary64 number nearest to [x]. *)
Definition round64 (x : Q) : Q :=
  let q := (2 ^ ulpExp x)%Q in
  Qred (inject_Z (roundHalfEven (x / q)) * q).

(** The finite binary64 numbers: an integer of at most 53 bits (or
    [2^53] itself) times a power of two from [2^-1074] on. *)
Definition F64 (y : Q) : Prop :=
  exists m e : Z,
    Z.abs m <= 2 ^ 53 /\ -1074 <= e /\ (y == inject_Z m * 2 ^ e)%Q.

(** [(a + b) / 2] as the code computes it. *)
Definition midpoint64 (a b : Q) : Q := round64 (round64 (a + b) / 2).

(** The largest time value of a [Date]: 100 000 000 days. *)
Definition maxDate : Z := 8640000000000000.

(** [new Date(v).getTime()] with the range limit (ECMAScript TimeClip):
    beyond the largest time value the date is invalid and its time
    value is [NaN], here [None]. *)
Definition timeClip (v : Q) : option Z :=
  if Qle_bool (Qabs v) (inject_Z maxDate) then Some (newDate v) else None.

Section PassPrediction64.

Variable elevationDeg : Z -> option Q.

(** ** bisectCrossingTime (app.js 124-148), on binary64 numbers

    The differences [ea - targetElevDeg] and [em - targetElevDeg] are
    only compared with zero, and a binary64 difference has the sign of
    the exact one. *)

Definition bisectStep64 (targetElevDeg : Q) (s : Bracket) : BisectStep :=
  let m := midpoint64 (bA s) (bB s) in
  match elevationDeg (newDate m) with
  | None => StepNull
  | Some em =>
      let fa := (bEa s - targetElevDeg)%Q in
      let fm := (em - targetElevDeg)%Q in
      if Qeq_bool fa 0 then StepReturn (newDate (bA s))
      else if (Qltb 0 fa && Qltb 0 fm) || (Qltb fa 0 && Qltb fm 0)
      then StepNext (mkBracket m (bB s) em (bEb s))
      else StepNext (mkBracket (bA s) m (bEa s) em)
  end.

Fixpoint bisectLoop64 (targetElevDeg : Q) (iters : nat) (s : Bracket)
    : option Z :=
  match iters with
  | O => Some (newDate (midpoint64 (bA s) (bB s)))
  | S n =>
      match bisectStep64 targetElevDeg s with
      | StepNull => None
      | StepReturn t => Some t
      | StepNext s' => bisectLoop64 targetElevDeg n s'
      end
  end.

(** The loop variables at the start of iteration [i], when the loop gets
    that far. *)
Fixpoint bisectStateAt64 (targetElevDeg : Q) (i : nat) (s : Bracket)
    : option Bracket :=
  match i with
  | O => Some s
  | S n =>
      match bisectStep64 targetElevDeg s with
      | StepNext s' => bisectStateAt64 targetElevDeg n s'
      | _ => None
      end
  end.

Definition bisectCrossingTime64 (t0 t1 : Z) (targetElevDeg : Q)
    (iters : nat) : option Z :=
  let a := inject_Z t0 in
  let b := inject_Z t1 in
  match elevationDeg (newDate a), elevationDeg (newDate b) with
  | Some ea, Some eb =>
      bisectLoop64 targetElevDeg iters (mkBracket a b ea eb)
  | _, _ => None
  end.

(** ** computeNextPasses (app.js 168-257), with that bisection

    The scan itself adds and compares whole numbers of milliseconds,
    which binary64 does exactly up to [2^53]. *)

Definition crossUp64 (t : Z) (e : Q) (s : Scan) : Scan :=
  if negb (inPass s) && Qle_bool (prevE s) 0 && Qltb 0 e then
    let aos' := bisectCrossingTime64 (prevT s) t 0 defaultIters in
    mkScan (prevT s) (prevE s) true (Some (orDate aos' t)) (passes s)
  else s.

Definition crossDown64 (nPasses : Z) (t : Z) (e : Q) (s : Scan)
    : LoopCtl Scan :=
  if inPass s && Qltb 0 (prevE s) && Qle_bool e 0 then
    let los' := bisectCrossingTime64 (prevT s) t 0 defaultIters in
    let finalLOS := orDate los' t in
    match currentAOS s with
    | Some a =>
        if a <? finalLOS then
          let peak := findMaxElevation elevationDeg a finalLOS in
          let passes' :=
            passes s ++ [mkPass a finalLOS (peakT peak) (peakElev peak)] in
          if Z.of_nat (List.length passes') >=? nPasses
          then Break (mkScan (prevT s) (prevE s) false (Some a) passes')
          else Continue (mkScan (prevT s) (prevE s) false None passes')
        else Continue (mkScan (prevT s) (prevE s) false None (passes s))
    | None => Continue (mkScan (prevT s) (prevE s) false None (passes s))
    end
  else Continue s.

Definition scanBody64 (nPasses : Z) (tMs : Z) (s : Scan) : LoopCtl Scan :=
  let t := newDate (inject_Z tMs) in
  match elevationDeg t with
  | None => Continue s
  | Some e =>
      match crossDown64 nPasses t e (crossUp64 t e s) with
      | Break s' => Break s'
      | Continue s' =>
          Continue (mkScan t e (inPass s') (currentAOS s') (passes s'))
      end
  end.

(** [end = new Date(start.getTime() + searchHours * 3600 * 1000)] and
    its [getTime()]: the window end, or none when the date is invalid
    and [end.getTime()] is [NaN]. *)
Definition windowEnd64 (start searchHours : Z) : option Z :=
  timeClip
    (round64 (inject_Z start
              + round64 (round64 (inject_Z searchHours * 3600) * 1000))).

(** The scan loop of lines 186-219; [tMs <= NaN] is false, so that the
    loop does not run for an invalid window end. *)
Definition scanPasses64 (start nPasses searchHours : Z) : list Pass :=
  match windowEnd64 start searchHours with
  | Some end_ =>
      passes
        (forLoop (loopFuel (start + stepMs) end_ stepMs) end_ stepMs
           (scanBody64 nPasses) (start + stepMs)
           (scanInit elevationDeg start))
  | None => []
  end.

Definition computeNextPasses64 (name : string)
    (start nPasses searchHours : Z) : Outcome :=
  match scanPasses64 start nPasses searchHours with
  | [] => NoPassesFound searchHours
  | ps => PassesListed name ps
  end.

End PassPrediction64.


(** * Numbers and dates *)

Lemma Qltb_lt (x y : Q) : Qltb x y = true <-> (x < y)%Q.
Proof.
  unfold Qltb. rewrite negb_true_iff. split; intro H.
  - apply Qnot_le_lt. intro Hle. apply Qle_bool_iff in Hle. congruence.
  - destruct (Qle_bool y x) eqn:E; [|reflexivity].
    apply Qle_bool_iff in E. lra.
Qed.

Lemma Qltb_ge (x y : Q) : Qltb x y = false <-> (y <= x)%Q.
Proof.
  unfold Qltb. rewrite negb_false_iff. apply Qle_bool_iff.
Qed.

Lemma Qle_bool_gt (x y : Q) : Qle_bool x y = false <-> (y < x)%Q.
Proof.
  rewrite <- Qltb_lt. unfold Qltb.
  destruct (Qle_bool x y); simpl; intuition congruence.
Qed.

Lemma newDate_inject_Z (z : Z) : newDate (inject_Z z) = z.
Proof.
  unfold newDate. destruct (Qle_bool 0 (inject_Z z));
    [apply Qfloor_Z | apply Qceiling_Z].
Qed.

Lemma newDate_comp (x y : Q) : (x == y)%Q -> newDate x = newDate y.
Proof.
  intro H. unfold newDate.
  assert (Hb : Qle_bool 0 x = Qle_bool 0 y).
  { apply eq_true_iff_eq. rewrite !Qle_bool_iff. rewrite H. tauto. }
  rewrite Hb. destruct (Qle_bool 0 y);
    [apply Qfloor_comp | apply Qceiling_comp]; assumption.
Qed.

Lemma newDate_mono (x y : Q) : (x <= y)%Q -> newDate x <= newDate y.
Proof.
  intro H. unfold newDate.
  destruct (Qle_bool 0 x) eqn:Ex, (Qle_bool 0 y) eqn:Ey.
  - apply Qfloor_resp_le, H.
  - apply Qle_bool_iff in Ex. apply Qle_bool_gt in Ey. lra.
  - apply Qle_bool_gt in Ex. apply Qle_bool_iff in Ey.
    transitivity 0.
    + change 0 with (Qceiling 0). apply Qceiling_resp_le. lra.
    + change 0 with (Qfloor 0). apply Qfloor_resp_le, Ey.
  - apply Qceiling_resp_le, H.
Qed.

Lemma newDate_lower (lo : Z) (x : Q) :
  (inject_Z lo <= x)%Q -> lo <= newDate x.
Proof.
  intro H. rewrite <- (newDate_inject_Z lo). apply newDate_mono, H.
Qed.

Lemma newDate_upper (hi : Z) (x : Q) :
  (x <= inject_Z hi)%Q -> newDate x <= hi.
Proof.
  intro H. rewrite <- (newDate_inject_Z hi). apply newDate_mono, H.
Qed.

(** Two truncated numbers are less than one further apart than the
    numbers themselves. *)
Lemma newDate_gap (x y : Q) :
  (x <= y)%Q -> (inject_Z (newDate y - newDate x) < y - x + 1)%Q.
Proof.
  intro H. unfold Z.sub. rewrite inject_Z_plus, inject_Z_opp.
  unfold newDate.
  pose proof (Qfloor_le x) as Fx1. pose proof (Qlt_floor x) as Fx2.
  pose proof (Qfloor_le y) as Fy1. pose proof (Qlt_floor y) as Fy2.
  pose proof (Qle_ceiling x) as Cx1. pose proof (Qceiling_lt x) as Cx2.
  pose proof (Qle_ceiling y) as Cy1. pose proof (Qceiling_lt y) as Cy2.
  rewrite inject_Z_plus in Fx2, Fy2.
  unfold Z.sub in Cx2, Cy2. rewrite inject_Z_plus, inject_Z_opp in Cx2, Cy2.
  change (inject_Z 1) with 1%Q in *.
  destruct (Qle_bool 0 x) eqn:Ex, (Qle_bool 0 y) eqn:Ey;
    try apply Qle_bool_iff in Ex; try apply Qle_bool_iff in Ey;
    try apply Qle_bool_gt in Ex; try apply Qle_bool_gt in Ey; lra.
Qed.

Lemma midpoint_eq (a b : Q) : (midpoint a b == (a + b) * (1 # 2))%Q.
Proof. unfold midpoint. apply Qred_correct. Qed.

Lemma midpoint_between (a b : Q) :
  (a <= b)%Q -> (a <= midpoint a b /\ midpoint a b <= b)%Q.
Proof. intro H. rewrite midpoint_eq. split; lra. Qed.


Lemma newDate_le (x : Q) : (0 <= x)%Q -> (inject_Z (newDate x) <= x)%Q.
Proof.
  intro H. unfold newDate.
  apply Qle_bool_iff in H. rewrite H. apply Qfloor_le.
Qed.

(** * The loop combinator *)

Section ForLoop.

Context {S : Type}.
Variable xEnd step : Z.
Variable body : Z -> S -> LoopCtl S.
Hypothesis step_pos : 0 < step.

(** The runs of the loop, as a relation: from the counter [x] and the
    variables [s] the loop ends with the variables [s']. *)
Inductive forRuns : Z -> S -> S -> Prop :=
| runs_exit x s :
    xEnd < x -> forRuns x s s
| runs_break x s s' :
    x <= xEnd -> body x s = Break s' -> forRuns x s s'
| runs_continue x s s' s'' :
    x <= xEnd -> body x s = Continue s' ->
    forRuns (x + step) s' s'' -> forRuns x s s''.

Lemma loopFuel_exit (x : Z) : xEnd < x -> loopFuel x xEnd step = O.
Proof.
  intro H. unfold loopFuel.
  assert ((xEnd - x) / step < 0) by (apply Z.div_lt_upper_bound; lia).
  lia.
Qed.

Lemma loopFuel_next (x : Z) :
  x <= xEnd ->
  loopFuel x xEnd step = Datatypes.S (loopFuel (x + step) xEnd step).
Proof.
  intro H. unfold loopFuel.
  replace (xEnd - x) with ((xEnd - (x + step)) + 1 * step) by lia.
  rewrite Z.div_add by lia.
  assert (-1 <= (xEnd - (x + step)) / step)
    by (apply Z.div_le_lower_bound; lia).
  rewrite <- Z2Nat.inj_succ by lia. f_equal; lia.
Qed.

(** With [loopFuel] iterations or more the loop runs to its end: the
    fuel never decides the result. *)
Lemma forLoop_runs (fuel : nat) (x : Z) (s : S) :
  (loopFuel x xEnd step <= fuel)%nat ->
  forRuns x s (forLoop fuel xEnd step body x s).
Proof.
  revert x s. induction fuel as [|fuel IH]; intros x s Hfuel.
  - simpl. apply runs_exit.
    destruct (Z_lt_le_dec xEnd x) as [H|H]; [exact H|].
    rewrite (loopFuel_next x H) in Hfuel. lia.
  - simpl. destruct (Z.leb_spec x xEnd) as [H|H].
    + destruct (body x s) as [s'|s'] eqn:Eb.
      * eapply runs_continue; eauto. apply IH.
        rewrite (loopFuel_next x H) in Hfuel. lia.
      * eapply runs_break; eauto.
    + apply runs_exit, H.
Qed.

Lemma forRuns_functional (x : Z) (s r1 r2 : S) :
  forRuns x s r1 -> forRuns x s r2 -> r1 = r2.
Proof.
  intro H1. revert r2.
  induction H1 as [x s Hx | x s s' Hx Hb | x s s' s'' Hx Hb _ IH];
    intros r2 H2; inversion H2; subst; try lia; try congruence.
  apply IH. congruence.
Qed.

(** Invariant rule: [I x s] holds of the variables [s] whenever the
    guard is about to be tested with the counter [x]; [Q] holds when the
    loop is left. *)
Lemma forRuns_inv (I : Z -> S -> Prop) (Q : S -> Prop) :
  (forall x s, x <= xEnd -> I x s ->
     match body x s with
     | Continue s' => I (x + step) s'
     | Break s' => Q s'
     end) ->
  (forall x s, I x s -> Q s) ->
  forall x s r, forRuns x s r -> I x s -> Q r.
Proof.
  intros Hbody Hexit x s r Hrun.
  induction Hrun as [x s Hx | x s s' Hx Hb | x s s' s'' Hx Hb _ IH];
    intro HI.
  - eapply Hexit, HI.
  - specialize (Hbody _ _ Hx HI). rewrite Hb in Hbody. exact Hbody.
  - specialize (Hbody _ _ Hx HI). rewrite Hb in Hbody. apply IH, Hbody.
Qed.

End ForLoop.


(** * Rounding to binary64 *)

(** ** Powers of two *)

Lemma two_pow_pos (e : Z) : (0 < 2 ^ e)%Q.
Proof. apply Qpower_0_lt. reflexivity. Qed.

Lemma two_pow_plus (a b : Z) : (2 ^ (a + b) == 2 ^ a * 2 ^ b)%Q.
Proof. apply Qpower_plus. discriminate. Qed.

Lemma two_pow_Z (n : Z) : 0 <= n -> (2 ^ n == inject_Z (2 ^ n))%Q.
Proof. intro H. symmetry. apply (Zpower_Qpower 2 n H). Qed.

Lemma two_pow_le (a b : Z) : a <= b -> (2 ^ a <= 2 ^ b)%Q.
Proof. intro H. apply Qpower_le_compat_l; [exact H | discriminate]. Qed.

Lemma two_pow_lt (a b : Z) : a < b -> (2 ^ a < 2 ^ b)%Q.
Proof. intro H. apply Qpower_lt_compat_l; [exact H | reflexivity]. Qed.

Lemma two_pow_succ (a : Z) : (2 ^ (a + 1) == 2 * 2 ^ a)%Q.
Proof. rewrite two_pow_plus. change (2 ^ 1)%Q with 2%Q. ring. Qed.

(** ** The leading bit *)

Lemma Qabs_frac (x : Q) :
  (Qabs x == inject_Z (Z.abs (Qnum x)) / inject_Z (Zpos (Qden x)))%Q.
Proof.
  destruct x as [n d]. unfold Qabs. cbn [Qnum Qden].
  rewrite (Qmake_Qdiv (Z.abs n) d). reflexivity.
Qed.

Lemma ilog2_spec (x : Q) :
  ~ (x == 0)%Q -> (2 ^ ilog2 x <= Qabs x /\ Qabs x < 2 ^ (ilog2 x + 1))%Q.
Proof.
  intro Hx. unfold ilog2.
  set (n := Z.abs (Qnum x)). set (d := Zpos (Qden x)).
  assert (Hn : 0 < n).
  { subst n. destruct x as [[|p|p] dd]; cbn; try lia.
    exfalso. apply Hx. reflexivity. }
  assert (Hd : 0 < d) by (subst d; lia).
  destruct (Z.log2_spec n Hn) as [Hn1 Hn2].
  destruct (Z.log2_spec d Hd) as [Hd1 Hd2].
  pose proof (Z.log2_nonneg n) as Hln. pose proof (Z.log2_nonneg d) as Hld.
  set (ln := Z.log2 n) in *. set (ld := Z.log2 d) in *.
  assert (Hax : (Qabs x == inject_Z n / inject_Z d)%Q) by apply Qabs_frac.
  assert (HdQ : (0 < inject_Z d)%Q)
    by (change 0%Q with (inject_Z 0); rewrite <- Zlt_Qlt; exact Hd).
  (* bounds in Q *)
  assert (B1 : (2 ^ ln <= inject_Z n)%Q)
    by (rewrite two_pow_Z by lia; rewrite <- Zle_Qle; exact Hn1).
  assert (B2 : (inject_Z n < 2 ^ (ln + 1))%Q).
  { rewrite two_pow_Z by lia. rewrite <- Zlt_Qlt.
    replace (ln + 1) with (Z.succ ln) by lia. exact Hn2. }
  assert (B3 : (2 ^ ld <= inject_Z d)%Q)
    by (rewrite two_pow_Z by lia; rewrite <- Zle_Qle; exact Hd1).
  assert (B4 : (inject_Z d < 2 ^ (ld + 1))%Q).
  { rewrite two_pow_Z by lia. rewrite <- Zlt_Qlt.
    replace (ld + 1) with (Z.succ ld) by lia. exact Hd2. }
  assert (Hup : (Qabs x < 2 ^ (ln - ld + 1))%Q).
  { rewrite Hax. apply Qlt_shift_div_r; [exact HdQ|].
    eapply Qlt_le_trans; [exact B2|].
    replace (ln + 1) with ((ln - ld + 1) + ld) by ring.
    rewrite two_pow_plus.
    pose proof (two_pow_pos (ln - ld + 1)).
    apply Qmult_le_l; assumption. }
  assert (Hlo : (2 ^ (ln - ld - 1) < Qabs x)%Q).
  { rewrite Hax. apply Qlt_shift_div_l; [exact HdQ|].
    eapply Qlt_le_trans; [|exact B1].
    replace ln with ((ln - ld - 1) + (ld + 1)) at 2 by ring.
    rewrite two_pow_plus.
    pose proof (two_pow_pos (ln - ld - 1)).
    apply Qmult_lt_l; assumption. }
  destruct (Qle_bool (2 ^ (ln - ld)) (Qabs x)) eqn:E.
  - apply Qle_bool_iff in E. split; assumption.
  - assert (Hlt : (Qabs x < 2 ^ (ln - ld))%Q).
    { apply Qnot_le_lt. intro H. apply Qle_bool_iff in H. congruence. }
    replace (ln - ld - 1 + 1) with (ln - ld) by ring.
    split; [apply Qlt_le_weak, Hlo | exact Hlt].
Qed.

(** ** The nearest integer *)

Lemma roundHalfEven_near (v : Q) :
  (Qabs (inject_Z (roundHalfEven v) - v) <= 1 # 2)%Q.
Proof.
  unfold roundHalfEven.
  pose proof (Qfloor_le v) as H1. pose proof (Qlt_floor v) as H2.
  rewrite inject_Z_plus in H2. change (inject_Z 1) with 1%Q in H2.
  set (f := Qfloor v) in *.
  destruct (Qcompare_spec (v - inject_Z f) (1 # 2)) as [E|E|E].
  - destruct (Z.even f); [|rewrite inject_Z_plus; change (inject_Z 1) with 1%Q];
      apply Qabs_Qle_condition; split; lra.
  - apply Qabs_Qle_condition; split; lra.
  - rewrite inject_Z_plus; change (inject_Z 1) with 1%Q.
    apply Qabs_Qle_condition; split; lra.
Qed.

Lemma roundHalfEven_nearest (v : Q) (N : Z) :
  (Qabs (inject_Z (roundHalfEven v) - v) <= Qabs (inject_Z N - v))%Q.
Proof.
  pose proof (roundHalfEven_near v) as Hn.
  set (r := roundHalfEven v) in *.
  destruct (Z.eq_dec N r) as [->|Hne]; [apply Qle_refl|].
  eapply Qle_trans; [exact Hn|].
  apply Qabs_Qle_condition in Hn. destruct Hn as [Hn1 Hn2].
  assert (Hd : N <= r - 1 \/ r + 1 <= N) by lia.
  destruct Hd as [Hd|Hd]; rewrite Zle_Qle in Hd;
    [unfold Z.sub in Hd; rewrite inject_Z_plus, inject_Z_opp in Hd
    | rewrite inject_Z_plus in Hd];
    change (inject_Z 1) with 1%Q in Hd.
  - rewrite Qabs_neg by lra. lra.
  - rewrite Qabs_pos by lra. lra.
Qed.

Lemma roundHalfEven_bound (v : Q) (B : Z) :
  (Qabs v <= inject_Z B)%Q -> Z.abs (roundHalfEven v) <= B.
Proof.
  intro Hv. pose proof (roundHalfEven_near v) as Hn.
  set (r := roundHalfEven v) in *.
  apply Qabs_Qle_condition in Hn. destruct Hn as [Hn1 Hn2].
  apply Qabs_Qle_condition in Hv. destruct Hv as [Hv1 Hv2].
  assert (H1 : (inject_Z r < inject_Z (B + 1))%Q)
    by (rewrite inject_Z_plus; change (inject_Z 1) with 1%Q; lra).
  assert (H2 : (inject_Z (- B - 1) < inject_Z r)%Q).
  { unfold Z.sub. rewrite inject_Z_plus, !inject_Z_opp.
    change (inject_Z 1) with 1%Q. lra. }
  rewrite <- Zlt_Qlt in H1, H2. lia.
Qed.

(** ** Rounding to binary64 *)

Lemma round64_eq (x : Q) :
  (round64 x == inject_Z (roundHalfEven (x / 2 ^ ulpExp x)) * 2 ^ ulpExp x)%Q.
Proof. unfold round64. apply Qred_correct. Qed.

(** The result is at least as close to [x] as any multiple of the unit
    in the last place. *)
Lemma round64_grid (x : Q) (N : Z) :
  (Qabs (round64 x - x) <= Qabs (inject_Z N * 2 ^ ulpExp x - x))%Q.
Proof.
  rewrite round64_eq. set (q := (2 ^ ulpExp x)%Q).
  assert (Hq : (0 < q)%Q) by apply two_pow_pos.
  set (v := (x / q)%Q).
  assert (Hx : (x == v * q)%Q) by (unfold v; field; lra).
  pose proof (roundHalfEven_nearest v N) as Hn.
  set (r := roundHalfEven v) in *.
  setoid_replace (inject_Z r * q - x)%Q with ((inject_Z r - v) * q)%Q
    by (rewrite Hx at 1; ring).
  setoid_replace (inject_Z N * q - x)%Q with ((inject_Z N - v) * q)%Q
    by (rewrite Hx at 1; ring).
  rewrite !Qabs_Qmult, (Qabs_pos q) by lra.
  apply Qmult_le_compat_r; [exact Hn | lra].
Qed.

Lemma round64_zero (x : Q) : (x == 0)%Q -> (round64 x == 0)%Q.
Proof.
  intro Hx. pose proof (round64_grid x 0) as H.
  setoid_replace (inject_Z 0 * 2 ^ ulpExp x - x)%Q with 0%Q in H
    by (change (inject_Z 0) with 0%Q; lra).
  change (Qabs 0) with 0%Q in H.
  apply Qabs_Qle_condition in H. lra.
Qed.

(** The binary64 numbers with at most [k] as the exponent of their last
    bit are all multiples of [2^k]. *)
Lemma two_pow_split (j k : Z) :
  k <= j -> (2 ^ j == inject_Z (2 ^ (j - k)) * 2 ^ k)%Q.
Proof.
  intro H. rewrite <- two_pow_Z by lia. rewrite <- two_pow_plus.
  replace (j - k + k) with j by ring. reflexivity.
Qed.

(** [round64 x] is a binary64 number nearest to [x]. *)
Lemma round64_nearest (x y : Q) :
  F64 y -> (Qabs (round64 x - x) <= Qabs (y - x))%Q.
Proof.
  intros (m & j & Hm & Hj & Hy).
  destruct (Qeq_dec x 0) as [Hx|Hx].
  { rewrite (round64_zero x Hx), Hx.
    setoid_replace (0 - 0)%Q with 0%Q by ring. apply Qabs_nonneg. }
  set (k := ulpExp x).
  destruct (Z_le_gt_dec k j) as [Hkj|Hkj].
  - (* [y] is on the grid of [x] *)
    pose proof (round64_grid x (m * 2 ^ (j - k))) as H. fold k in H.
    setoid_replace (y - x)%Q
      with (inject_Z (m * 2 ^ (j - k)) * 2 ^ k - x)%Q; [exact H|].
    rewrite Hy, inject_Z_mult, (two_pow_split j k Hkj). ring.
  - (* [y] is below the leading bit of [x] *)
    destruct (ilog2_spec x Hx) as [Hlo _].
    set (e := ilog2 x) in *.
    assert (Hk : k = e - 52).
    { clear - Hkj Hj. subst k e. unfold ulpExp in *. lia. }
    assert (Hy2 : (Qabs y <= 2 ^ e)%Q).
    { rewrite Hy, Qabs_Qmult, (Qabs_pos (2 ^ j)%Q)
        by (apply Qlt_le_weak, two_pow_pos).
      apply Qle_trans with (inject_Z (2 ^ 53) * 2 ^ j)%Q.
      - apply Qmult_le_compat_r; [|apply Qlt_le_weak, two_pow_pos].
        change (Qabs (inject_Z m)) with (inject_Z (Z.abs m)).
        rewrite <- Zle_Qle. exact Hm.
      - rewrite <- two_pow_Z by lia. rewrite <- two_pow_plus.
        apply two_pow_le. lia. }
    assert (He : (2 ^ e == inject_Z (2 ^ 52) * 2 ^ k)%Q).
    { rewrite <- two_pow_Z by lia. rewrite <- two_pow_plus.
      replace (52 + k) with e by lia. reflexivity. }
    apply Qabs_Qle_condition in Hy2. destruct Hy2 as [Hy3 Hy4].
    destruct (Qlt_le_dec 0 x) as [Hpos|Hneg].
    + rewrite (Qabs_pos x) in Hlo by lra.
      pose proof (round64_grid x (2 ^ 52)) as H. fold k in H.
      rewrite <- He in H. eapply Qle_trans; [exact H|].
      rewrite !Qabs_neg by lra. lra.
    + rewrite (Qabs_neg x) in Hlo by lra.
      pose proof (round64_grid x (- 2 ^ 52)) as H. fold k in H.
      rewrite inject_Z_opp in H.
      setoid_replace (- inject_Z (2 ^ 52) * 2 ^ k)%Q with (- 2 ^ e)%Q in H
        by (rewrite He; ring).
      eapply Qle_trans; [exact H|].
      rewrite !Qabs_pos by lra. lra.
Qed.

(** [round64 x] is a binary64 number. *)
Lemma round64_F64 (x : Q) : F64 (round64 x).
Proof.
  destruct (Qeq_dec x 0) as [Hx|Hx].
  { exists 0, 0. split; [simpl; lia|]. split; [lia|].
    rewrite (round64_zero x Hx). reflexivity. }
  exists (roundHalfEven (x / 2 ^ ulpExp x)), (ulpExp x).
  split; [|split; [unfold ulpExp; lia | apply round64_eq]].
  apply roundHalfEven_bound.
  destruct (ilog2_spec x Hx) as [_ Hhi]. set (e := ilog2 x) in *.
  set (k := ulpExp x). assert (Hk : e - 52 <= k) by (unfold k, ulpExp; fold e; lia).
  pose proof (two_pow_pos k) as Hq.
  unfold Qdiv. rewrite Qabs_Qmult, (Qabs_pos (/ 2 ^ k)%Q)
    by (apply Qlt_le_weak, Qinv_lt_0_compat, Hq).
  apply Qle_shift_div_r; [exact Hq|].
  rewrite <- two_pow_Z by lia. rewrite <- two_pow_plus.
  apply Qlt_le_weak. eapply Qlt_le_trans; [exact Hhi|].
  apply two_pow_le. lia.
Qed.

(** Rounding does not cross a binary64 number. *)
Lemma round64_lower (x y : Q) : F64 y -> (y <= x)%Q -> (y <= round64 x)%Q.
Proof.
  intros Hy Hle. pose proof (round64_nearest x y Hy) as H.
  destruct (Qlt_le_dec (round64 x) y) as [Hlt|]; [|assumption].
  rewrite !Qabs_neg in H by lra. lra.
Qed.

Lemma round64_upper (x y : Q) : F64 y -> (x <= y)%Q -> (round64 x <= y)%Q.
Proof.
  intros Hy Hle. pose proof (round64_nearest x y Hy) as H.
  destruct (Qlt_le_dec y (round64 x)) as [Hlt|]; [|assumption].
  rewrite !Qabs_pos in H by lra. lra.
Qed.

(** A binary64 number is left as it is. *)
Lemma round64_exact (y : Q) : F64 y -> (round64 y == y)%Q.
Proof.
  intro Hy. apply Qle_antisym;
    [apply round64_upper | apply round64_lower]; (exact Hy || apply Qle_refl).
Qed.

(** The rounding error up to [2^(53+k)] is at most half of [2^k]. *)
Lemma round64_error (k : Z) (x : Q) :
  -1074 <= k -> (Qabs x <= 2 ^ (53 + k))%Q ->
  (Qabs (round64 x - x) <= 2 ^ k * (1 # 2))%Q.
Proof.
  intros Hk Hx. pose proof (two_pow_pos k) as Hq.
  set (v := (x / 2 ^ k)%Q).
  assert (Hv : (x == v * 2 ^ k)%Q) by (unfold v; field; lra).
  assert (HF : F64 (inject_Z (roundHalfEven v) * 2 ^ k)).
  { exists (roundHalfEven v), k. split; [|split; [exact Hk | reflexivity]].
    apply roundHalfEven_bound. unfold v, Qdiv.
    rewrite Qabs_Qmult, (Qabs_pos (/ 2 ^ k)%Q)
      by (apply Qlt_le_weak, Qinv_lt_0_compat, Hq).
    apply Qle_shift_div_r; [exact Hq|].
    rewrite <- two_pow_Z by lia. rewrite <- two_pow_plus. exact Hx. }
  eapply Qle_trans; [apply (round64_nearest x _ HF)|].
  setoid_replace (inject_Z (roundHalfEven v) * 2 ^ k - x)%Q
    with ((inject_Z (roundHalfEven v) - v) * 2 ^ k)%Q
    by (rewrite Hv at 1; ring).
  rewrite Qabs_Qmult, (Qabs_pos (2 ^ k)%Q) by lra.
  rewrite (Qmult_comm (2 ^ k)%Q).
  apply Qmult_le_compat_r; [apply roundHalfEven_near | lra].
Qed.

(** ** Binary64 numbers *)

Lemma F64_comp (x y : Q) : (x == y)%Q -> F64 x -> F64 y.
Proof.
  intros Hxy (m & e & Hm & He & Hx). exists m, e.
  split; [exact Hm|]. split; [exact He|]. rewrite <- Hxy. exact Hx.
Qed.

Lemma F64_inject_Z (n : Z) : Z.abs n <= 2 ^ 53 -> F64 (inject_Z n).
Proof.
  intro H. exists n, 0. split; [exact H|]. split; [lia|].
  change (2 ^ 0)%Q with 1%Q. ring.
Qed.

Lemma F64_double (y : Q) : F64 y -> F64 (2 * y).
Proof.
  intros (m & e & Hm & He & Hy). exists m, (e + 1).
  split; [exact Hm|]. split; [lia|]. rewrite Hy, two_pow_succ. ring.
Qed.

(** Halving is exact above the subnormal numbers. *)
Lemma F64_half (y : Q) : F64 y -> (2 ^ (-1021) < Qabs y)%Q -> F64 (y / 2).
Proof.
  intros (m & e & Hm & He & Hy) Hbig.
  destruct (Z.eq_dec e (-1074)) as [->|Hne].
  - exfalso. rewrite Hy, Qabs_Qmult, (Qabs_pos (2 ^ (-1074))%Q) in Hbig
      by (apply Qlt_le_weak, two_pow_pos).
    assert (H : (Qabs (inject_Z m) * 2 ^ (-1074) <= 2 ^ (-1021))%Q).
    { apply Qle_trans with (inject_Z (2 ^ 53) * 2 ^ (-1074))%Q.
      - apply Qmult_le_compat_r; [|apply Qlt_le_weak, two_pow_pos].
        change (Qabs (inject_Z m)) with (inject_Z (Z.abs m)).
        rewrite <- Zle_Qle. exact Hm.
      - rewrite <- two_pow_Z by lia. rewrite <- two_pow_plus.
        apply Qle_refl. }
    lra.
  - exists m, (e - 1). split; [exact Hm|]. split; [lia|].
    rewrite Hy. replace e with (e - 1 + 1) at 1 by ring.
    rewrite two_pow_succ. field.
Qed.

(** * Bisection *)

Section BisectFacts.

Variable elevationDeg : Z -> option Q.
Variable targetElevDeg : Q.

Local Notation "'bstep'" := (bisectStep elevationDeg targetElevDeg).
Local Notation "'bstateAt'" := (bisectStateAt elevationDeg targetElevDeg).
Local Notation "'bloop'" := (bisectLoop elevationDeg targetElevDeg).

(** The midpoint probed by an iteration that starts with [s]. *)
Definition probe (s : Bracket) : Z := newDate (midpoint (bA s) (bB s)).

Lemma bisectStep_null (s : Bracket) :
  bstep s = StepNull <-> elevationDeg (probe s) = None.
Proof.
  unfold bisectStep, probe.
  destruct (elevationDeg (newDate (midpoint (bA s) (bB s)))) as [em|].
  - destruct (Qeq_bool _ _); [|destruct (_ || _)]; split; discriminate.
  - tauto.
Qed.

Lemma bisectStep_return (s : Bracket) (t : Z) :
  bstep s = StepReturn t -> t = newDate (bA s).
Proof.
  unfold bisectStep.
  destruct (elevationDeg _) as [em|]; [|discriminate].
  destruct (Qeq_bool _ _); [|destruct (_ || _)]; congruence.
Qed.

(** An iteration replaces one bound by the midpoint. *)
Lemma bisectStep_next (s s' : Bracket) :
  bstep s = StepNext s' ->
  (bA s' = midpoint (bA s) (bB s) /\ bB s' = bB s) \/
  (bA s' = bA s /\ bB s' = midpoint (bA s) (bB s)).
Proof.
  unfold bisectStep.
  destruct (elevationDeg _) as [em|]; [|discriminate].
  destruct (Qeq_bool _ _); [discriminate|].
  destruct (_ || _); intro H; inversion H; subst; simpl; tauto.
Qed.

Lemma bisectStep_inside (s s' : Bracket) :
  bstep s = StepNext s' -> (bA s <= bB s)%Q ->
  (bA s <= bA s' /\ bA s' <= bB s' /\ bB s' <= bB s)%Q.
Proof.
  intros H Hab. pose proof (midpoint_between _ _ Hab) as [Hm1 Hm2].
  destruct (bisectStep_next _ _ H) as [[-> ->]|[-> ->]]; repeat split; lra.
Qed.

(** The bounds stay ordered and inside the bracket the loop started
    with. *)
Lemma bisectStateAt_inside (i : nat) (s s' : Bracket) :
  bstateAt i s = Some s' -> (bA s <= bB s)%Q ->
  (bA s <= bA s' /\ bA s' <= bB s' /\ bB s' <= bB s)%Q.
Proof.
  revert s. induction i as [|i IH]; simpl; intros s H Hab.
  - inversion H; subst. repeat split; lra.
  - destruct (bstep s) as [| |s1] eqn:E; try discriminate.
    pose proof (bisectStep_inside _ _ E Hab) as (H1 & H2 & H3).
    specialize (IH _ H H2). lra.
Qed.

(** A loop that is not left early returns the truncated midpoint of
    its last bracket. *)
Lemma bisectLoop_stateAt (n : nat) (s s' : Bracket) :
  bstateAt n s = Some s' -> bloop n s = Some (probe s').
Proof.
  revert s. induction n as [|n IH]; simpl; intros s H.
  - inversion H; subst. reflexivity.
  - destruct (bstep s) as [| |s1]; try discriminate. apply IH, H.
Qed.

Lemma bisectLoop_inside (n : nat) (s : Bracket) (t : Z) :
  bloop n s = Some t -> (bA s <= bB s)%Q ->
  newDate (bA s) <= t <= newDate (bB s).
Proof.
  revert s. induction n as [|n IH]; simpl; intros s H Hab.
  - inversion H; subst.
    pose proof (midpoint_between _ _ Hab) as [Hm1 Hm2].
    split; apply newDate_mono; assumption.
  - destruct (bstep s) as [|r|s1] eqn:E; try discriminate.
    + inversion H; subst. rewrite (bisectStep_return _ _ E).
      split; [lia | apply newDate_mono, Hab].
    + pose proof (bisectStep_inside _ _ E Hab) as (H1 & H2 & H3).
      specialize (IH _ H H2).
      pose proof (newDate_mono _ _ H1). pose proof (newDate_mono _ _ H3).
      lia.
Qed.

(** The loop returns [null] exactly when some probed midpoint has no
    elevation. *)
Lemma bisectLoop_null (n : nat) (s : Bracket) :
  bloop n s = None <->
  exists i s', (i < n)%nat /\ bstateAt i s = Some s' /\
               elevationDeg (probe s') = None.
Proof.
  revert s. induction n as [|n IH]; intro s; simpl.
  - split; [discriminate | intros (i & _ & Hi & _); lia].
  - destruct (bstep s) as [|r|s1] eqn:E.
    + split; [intros _ | reflexivity].
      exists O, s. repeat split; [lia | now apply bisectStep_null].
    + split; [discriminate|]. intros (i & s' & _ & Hs & Hn).
      destruct i as [|i]; simpl in Hs.
      * inversion Hs; subst. apply bisectStep_null in Hn. congruence.
      * rewrite E in Hs. discriminate.
    + rewrite IH. split.
      * intros (i & s' & Hi & Hs & Hn). exists (S i), s'.
        simpl. rewrite E. repeat split; [lia | assumption | assumption].
      * intros (i & s' & Hi & Hs & Hn). destruct i as [|i]; simpl in Hs.
        -- inversion Hs; subst. apply bisectStep_null in Hn. congruence.
        -- rewrite E in Hs. exists i, s'.
           repeat split; [lia | assumption | assumption].
Qed.

Lemma bisectCrossingTime_inside (t0 t1 : Z) (iters : nat) (t : Z) :
  t0 <= t1 ->
  bisectCrossingTime elevationDeg t0 t1 targetElevDeg iters = Some t ->
  t0 <= t <= t1.
Proof.
  unfold bisectCrossingTime. rewrite !newDate_inject_Z. intros Hle H.
  destruct (elevationDeg t0) as [ea|]; [|discriminate].
  destruct (elevationDeg t1) as [eb|]; [|discriminate].
  apply bisectLoop_inside in H; simpl in *.
  - rewrite !newDate_inject_Z in H. exact H.
  - rewrite <- Zle_Qle. exact Hle.
Qed.

End BisectFacts.

(** * Bisection on an elevation with one horizon crossing *)

Section Crossing.

Variable elevationDeg : Z -> option Q.

(** The side of the horizon before the crossing: below it for a rising
    satellite, above it for a setting one. *)
Definition before (rising : bool) (e : Q) : Prop :=
  if rising then (e < 0)%Q else (0 < e)%Q.

Definition after (rising : bool) (e : Q) : Prop :=
  if rising then (0 < e)%Q else (e < 0)%Q.

(** At every whole millisecond of [t0, t1] the oracle has an elevation,
    which is on one side of the horizon before the instant [c], zero at
    [c] and on the other side after it. *)
Definition crossesOnceAt (rising : bool) (t0 t1 : Z) (c : Q) : Prop :=
  (inject_Z t0 <= c /\ c <= inject_Z t1)%Q /\
  forall t, t0 <= t <= t1 ->
    exists e, elevationDeg t = Some e /\
      ((inject_Z t < c)%Q -> before rising e) /\
      ((inject_Z t == c)%Q -> (e == 0)%Q) /\
      ((c < inject_Z t)%Q -> after rising e).

(** What the loop keeps true of its variables. *)
Definition straddles (rising : bool) (t0 t1 : Z) (c : Q) (s : Bracket)
    : Prop :=
  (inject_Z t0 <= bA s /\ bA s <= bB s /\ bB s <= inject_Z t1)%Q /\
  (inject_Z (newDate (bA s)) < c /\ c <= inject_Z (newDate (bB s)))%Q /\
  before rising (bEa s).

Lemma sameSide_true (fa fm : Q) :
  (Qltb 0 fa && Qltb 0 fm) || (Qltb fa 0 && Qltb fm 0) = true <->
  (0 < fa /\ 0 < fm)%Q \/ (fa < 0 /\ fm < 0)%Q.
Proof.
  rewrite orb_true_iff, !andb_true_iff, !Qltb_lt. tauto.
Qed.

Lemma pow2_pos (n : nat) : (0 < inject_Z (2 ^ Z.of_nat n))%Q.
Proof.
  change 0%Q with (inject_Z 0). rewrite <- Zlt_Qlt.
  apply Z.pow_pos_nonneg; lia.
Qed.

End Crossing.


(** * Bisection on binary64 numbers *)

Lemma half_eq (x : Q) : (x / 2 == x * (1 # 2))%Q.
Proof. reflexivity. Qed.

Lemma midpoint64_F64 (a b : Q) : F64 (midpoint64 a b).
Proof. apply round64_F64. Qed.

(** The computed midpoint of two binary64 numbers lies between them. *)
Lemma midpoint64_between (a b : Q) :
  F64 a -> F64 b -> (a <= b)%Q ->
  (a <= midpoint64 a b /\ midpoint64 a b <= b)%Q.
Proof.
  intros Ha Hb Hab. unfold midpoint64.
  assert (H1 : (2 * a <= round64 (a + b))%Q)
    by (apply round64_lower; [apply F64_double, Ha | lra]).
  assert (H2 : (round64 (a + b) <= 2 * b)%Q)
    by (apply round64_upper; [apply F64_double, Hb | lra]).
  split; [apply round64_lower | apply round64_upper]; try assumption;
    rewrite half_eq; lra.
Qed.

Lemma F64_two_pow (e : Z) : -1074 <= e -> F64 (2 ^ e).
Proof.
  intro H. exists 1, e. split; [simpl; lia|]. split; [exact H|].
  change (inject_Z 1) with 1%Q. ring.
Qed.

Lemma F64_opp (y : Q) : F64 y -> F64 (- y).
Proof.
  intros (m & e & Hm & He & Hy). exists (- m), e.
  split; [lia|]. split; [exact He|]. rewrite Hy, inject_Z_opp. ring.
Qed.

Local Ltac qcompute :=
  first [apply Qeq_bool_iff | apply Qle_bool_iff | apply Qltb_lt];
  vm_compute; reflexivity.

Lemma round64_within (k : Z) (x h : Q) :
  -1074 <= k -> (Qabs x <= 2 ^ (53 + k))%Q -> (2 ^ k * (1 # 2) <= h)%Q ->
  (- h <= round64 x - x /\ round64 x - x <= h)%Q.
Proof.
  intros Hk Hx Hh. apply Qabs_Qle_condition.
  eapply Qle_trans; [apply (round64_error k x Hk Hx) | exact Hh].
Qed.

(** Up to the largest time value the computed midpoint is within one
    millisecond of the exact one. *)
Lemma midpoint64_near (a b : Q) :
  (Qabs (a + b) <= 2 ^ 54)%Q ->
  (Qabs (midpoint64 a b - (a + b) / 2) <= 1)%Q.
Proof.
  intro Hx. unfold midpoint64. set (s := round64 (a + b)).
  pose proof (round64_within 1 (a + b) 1 ltac:(lia) Hx ltac:(qcompute))
    as E1.
  fold s in E1.
  assert (F : F64 (2 ^ 54)) by (apply F64_two_pow; lia).
  apply Qabs_Qle_condition in Hx. destruct Hx as [Hx1 Hx2].
  assert (Hs1 : (- 2 ^ 54 <= s)%Q)
    by (apply round64_lower; [apply F64_opp, F | exact Hx1]).
  assert (Hs2 : (s <= 2 ^ 54)%Q)
    by (apply round64_upper; [exact F | exact Hx2]).
  assert (P : (2 ^ 54 * (1 # 2) == 2 ^ (53 + 0))%Q) by qcompute.
  assert (Hh : (Qabs (s / 2) <= 2 ^ (53 + 0))%Q).
  { apply Qabs_Qle_condition. rewrite half_eq, <- P. split; lra. }
  pose proof (round64_within 0 (s / 2) (1 # 2) ltac:(lia) Hh
                ltac:(qcompute)) as E2.
  set (m := round64 (s / 2)) in *. rewrite half_eq in E2 |- *.
  apply Qabs_Qle_condition. split; lra.
Qed.

(** Below [2^41] milliseconds (September 2039) the binary64 numbers are
    at most [2^-12] apart: the computed midpoint of a bracket that is
    wider than that is within [2^-13] of the exact one. *)
Lemma midpoint64_near_fine (a b : Q) :
  (0 <= a)%Q -> (b <= 2 ^ 41)%Q -> (1 # 4096 <= b - a)%Q ->
  (Qabs (midpoint64 a b - (a + b) / 2) <= 1 # 8192)%Q.
Proof.
  intros Ha Hb Hw. unfold midpoint64. set (s := round64 (a + b)).
  assert (P : (2 * 2 ^ 41 == 2 ^ (53 + -11))%Q) by qcompute.
  assert (Hx : (Qabs (a + b) <= 2 ^ (53 + -11))%Q).
  { rewrite Qabs_pos by lra. rewrite <- P. lra. }
  pose proof (round64_within (-11) (a + b) (1 # 4096) ltac:(lia) Hx
                ltac:(qcompute)) as E1.
  fold s in E1.
  assert (Hs : (2 ^ (-12) <= s)%Q).
  { apply round64_lower; [apply F64_two_pow; lia|].
    apply Qle_trans with (1 # 4096)%Q; [qcompute | lra]. }
  assert (Hhalf : (round64 (s / 2) == s / 2)%Q).
  { apply round64_exact, F64_half; [apply round64_F64|].
    pose proof (two_pow_pos (-12)).
    rewrite Qabs_pos by lra.
    eapply Qlt_le_trans; [|exact Hs]. apply two_pow_lt. lia. }
  rewrite Hhalf, !half_eq. apply Qabs_Qle_condition. split; lra.
Qed.

(** The computed midpoint of such a bracket is below its upper bound. *)
Lemma midpoint64_below (a b : Q) :
  (0 <= a)%Q -> (b <= 2 ^ 41)%Q -> (1 # 4096 < b - a)%Q ->
  (midpoint64 a b < b)%Q.
Proof.
  intros Ha Hb Hw.
  pose proof (midpoint64_near_fine a b Ha Hb ltac:(lra)) as H.
  apply Qabs_Qle_condition in H. rewrite half_eq in H. lra.
Qed.

(** The first midpoint of a bisection, of two dates whose sum is below
    [2^53], is computed exactly. *)
Lemma midpoint64_dates (t0 t1 : Z) :
  Z.abs (t0 + t1) <= 2 ^ 53 ->
  (midpoint64 (inject_Z t0) (inject_Z t1)
   == midpoint (inject_Z t0) (inject_Z t1))%Q.
Proof.
  intro H. rewrite midpoint_eq. unfold midpoint64.
  assert (Hs : (round64 (inject_Z t0 + inject_Z t1)
                == inject_Z (t0 + t1))%Q).
  { assert (E : (inject_Z t0 + inject_Z t1 == inject_Z (t0 + t1))%Q)
      by (rewrite inject_Z_plus; reflexivity).
    eapply Qeq_trans; [apply round64_exact | exact E].
    apply (F64_comp (inject_Z (t0 + t1))); [symmetry; exact E|].
    apply F64_inject_Z, H. }
  assert (Hh : (round64 (inject_Z t0 + inject_Z t1) / 2
                == inject_Z (t0 + t1) * 2 ^ (-1))%Q).
  { rewrite Hs. reflexivity. }
  eapply Qeq_trans; [apply round64_exact|].
  - exists (t0 + t1), (-1). split; [exact H|]. split; [lia | exact Hh].
  - rewrite Hs, inject_Z_plus. reflexivity.
Qed.

Section Bisect64Facts.

Variable elevationDeg : Z -> option Q.
Variable targetElevDeg : Q.

Local Notation "'bstep'" := (bisectStep64 elevationDeg targetElevDeg).
Local Notation "'bstateAt'" := (bisectStateAt64 elevationDeg targetElevDeg).
Local Notation "'bloop'" := (bisectLoop64 elevationDeg targetElevDeg).

(** The midpoint probed by an iteration that starts with [s]. *)
Definition probe64 (s : Bracket) : Z := newDate (midpoint64 (bA s) (bB s)).

(** The bounds are binary64 numbers, in order. *)
Definition okBracket (s : Bracket) : Prop :=
  F64 (bA s) /\ F64 (bB s) /\ (bA s <= bB s)%Q.

Lemma bisectStep64_null (s : Bracket) :
  bstep s = StepNull <-> elevationDeg (probe64 s) = None.
Proof.
  unfold bisectStep64, probe64.
  destruct (elevationDeg (newDate (midpoint64 (bA s) (bB s)))) as [em|].
  - destruct (Qeq_bool _ _); [|destruct (_ || _)]; split; discriminate.
  - tauto.
Qed.

Lemma bisectStep64_return (s : Bracket) (t : Z) :
  bstep s = StepReturn t -> t = newDate (bA s).
Proof.
  unfold bisectStep64.
  destruct (elevationDeg _) as [em|]; [|discriminate].
  destruct (Qeq_bool _ _); [|destruct (_ || _)]; congruence.
Qed.

(** An iteration replaces one bound by the computed midpoint. *)
Lemma bisectStep64_next (s s' : Bracket) :
  bstep s = StepNext s' ->
  (bA s' = midpoint64 (bA s) (bB s) /\ bB s' = bB s) \/
  (bA s' = bA s /\ bB s' = midpoint64 (bA s) (bB s)).
Proof.
  unfold bisectStep64.
  destruct (elevationDeg _) as [em|]; [|discriminate].
  destruct (Qeq_bool _ _); [discriminate|].
  destruct (_ || _); intro H; inversion H; subst; cbn [bA bB]; tauto.
Qed.

Lemma bisectStep64_inside (s s' : Bracket) :
  bstep s = StepNext s' -> okBracket s ->
  okBracket s' /\ (bA s <= bA s' /\ bB s' <= bB s)%Q.
Proof.
  intros H (Fa & Fb & Hab).
  pose proof (midpoint64_between _ _ Fa Fb Hab) as [Hm1 Hm2].
  pose proof (midpoint64_F64 (bA s) (bB s)) as Fm.
  unfold okBracket.
  destruct (bisectStep64_next _ _ H) as [[-> ->]|[-> ->]];
    repeat split; (assumption || lra).
Qed.

(** The bounds stay binary64 numbers, in order and inside the bracket
    the loop started with. *)
Lemma bisectStateAt64_inside (i : nat) (s s' : Bracket) :
  bstateAt i s = Some s' -> okBracket s ->
  okBracket s' /\ (bA s <= bA s' /\ bB s' <= bB s)%Q.
Proof.
  revert s. induction i as [|i IH]; cbn [bisectStateAt64]; intros s H Hok.
  - inversion H; subst. split; [exact Hok | split; lra].
  - destruct (bstep s) as [| |s1] eqn:E; try discriminate.
    destruct (bisectStep64_inside _ _ E Hok) as (Hok1 & H1 & H2).
    destruct (IH _ H Hok1) as (Hok' & H3 & H4).
    split; [exact Hok' | split; lra].
Qed.

Lemma bisectLoop64_stateAt (n : nat) (s s' : Bracket) :
  bstateAt n s = Some s' -> bloop n s = Some (probe64 s').
Proof.
  revert s. induction n as [|n IH];
    cbn [bisectStateAt64 bisectLoop64]; intros s H.
  - inversion H; subst. unfold probe64. reflexivity.
  - destruct (bstep s) as [| |s1]; try discriminate. apply IH, H.
Qed.

Lemma bisectLoop64_inside (n : nat) (s : Bracket) (t : Z) :
  bloop n s = Some t -> okBracket s ->
  newDate (bA s) <= t <= newDate (bB s).
Proof.
  revert s. induction n as [|n IH]; cbn [bisectLoop64]; intros s H Hok.
  - inversion H; subst. destruct Hok as (Fa & Fb & Hab).
    pose proof (midpoint64_between _ _ Fa Fb Hab) as [Hm1 Hm2].
    split; apply newDate_mono; assumption.
  - destruct (bstep s) as [|r|s1] eqn:E; try discriminate.
    + inversion H; subst. rewrite (bisectStep64_return _ _ E).
      split; [lia | apply newDate_mono, Hok].
    + destruct (bisectStep64_inside _ _ E Hok) as (Hok1 & H1 & H2).
      specialize (IH _ H Hok1).
      pose proof (newDate_mono _ _ H1). pose proof (newDate_mono _ _ H2).
      lia.
Qed.

(** With an elevation at every instant between the bounds the loop
    returns a time. *)
Lemma bisectLoop64_some (t0 t1 : Z) (n : nat) (s : Bracket) :
  (forall t, t0 <= t <= t1 -> elevationDeg t <> None) ->
  okBracket s -> (inject_Z t0 <= bA s)%Q -> (bB s <= inject_Z t1)%Q ->
  exists r, bloop n s = Some r.
Proof.
  intro Hvalid. revert s.
  induction n as [|n IH]; cbn [bisectLoop64]; intros s Hok H0 H1.
  - eexists; reflexivity.
  - destruct (bstep s) as [|r|s1] eqn:E.
    + exfalso. apply bisectStep64_null in E.
      destruct Hok as (Fa & Fb & Hab).
      pose proof (midpoint64_between _ _ Fa Fb Hab) as [Hm1 Hm2].
      apply (Hvalid (probe64 s)); [|exact E]. unfold probe64.
      split; [apply newDate_lower | apply newDate_upper]; lra.
    + eexists; reflexivity.
    + destruct (bisectStep64_inside _ _ E Hok) as (Hok1 & H2 & H3).
      apply IH; [exact Hok1 | lra | lra].
Qed.

(** Until September 2039 a bracket that is wide enough for the
    iterations left is refined to a time strictly before its upper
    bound. *)
Lemma bisectLoop64_below (n : nat) (s : Bracket) (r : Z) :
  okBracket s -> (0 <= bA s)%Q -> (bB s <= 2 ^ 41)%Q ->
  (inject_Z (2 ^ Z.of_nat n) * (2 # 4096) < bB s - bA s + (1 # 4096))%Q ->
  bloop n s = Some r ->
  (inject_Z r < bB s)%Q.
Proof.
  revert s. induction n as [|n IH]; intros s Hok H0 H1 Hw H.
  - change (inject_Z (2 ^ Z.of_nat 0)) with 1%Q in Hw.
    cbn [bisectLoop64] in H. inversion H; subst r.
    destruct Hok as (Fa & Fb & Hab).
    pose proof (midpoint64_between _ _ Fa Fb Hab) as [Hm1 Hm2].
    pose proof (midpoint64_below _ _ H0 H1 ltac:(lra)) as Hlt.
    assert (Hpos : (0 <= midpoint64 (bA s) (bB s))%Q) by lra.
    pose proof (newDate_le _ Hpos). lra.
  - assert (Hp : (1 <= inject_Z (2 ^ Z.of_nat n))%Q).
    { change 1%Q with (inject_Z 1). rewrite <- Zle_Qle.
      assert (0 < 2 ^ Z.of_nat n) by (apply Z.pow_pos_nonneg; lia). lia. }
    rewrite Nat2Z.inj_succ, Z.pow_succ_r, inject_Z_mult in Hw by lia.
    change (inject_Z 2) with 2%Q in Hw.
    cbn [bisectLoop64] in H.
    destruct (bstep s) as [|t|s1] eqn:E; try discriminate.
    + inversion H; subst r. rewrite (bisectStep64_return _ _ E).
      pose proof (newDate_le _ H0). lra.
    + destruct (bisectStep64_inside _ _ E Hok) as (Hok1 & H2 & H3).
      pose proof (midpoint64_near_fine _ _ H0 H1 ltac:(lra)) as Hm.
      apply Qabs_Qle_condition in Hm. rewrite half_eq in Hm.
      assert (Hw1 : (inject_Z (2 ^ Z.of_nat n) * (2 # 4096)
                     < bB s1 - bA s1 + (1 # 4096))%Q).
      { destruct (bisectStep64_next _ _ E) as [[-> ->]|[-> ->]]; lra. }
      specialize (IH s1 Hok1 ltac:(lra) ltac:(lra) Hw1 H). lra.
Qed.

Lemma bisectInit_ok (t0 t1 : Z) (ea eb : Q) :
  - 2 ^ 53 <= t0 -> t0 <= t1 -> t1 <= 2 ^ 53 ->
  okBracket (mkBracket (inject_Z t0) (inject_Z t1) ea eb).
Proof.
  intros H0 H01 H1. unfold okBracket. cbn [bA bB].
  split; [apply F64_inject_Z; lia|].
  split; [apply F64_inject_Z; lia|].
  rewrite <- Zle_Qle. exact H01.
Qed.

(** A returned time lies in the bracket. *)
Lemma bisectCrossingTime64_inside (t0 t1 : Z) (iters : nat) (t : Z) :
  - 2 ^ 53 <= t0 -> t0 <= t1 -> t1 <= 2 ^ 53 ->
  bisectCrossingTime64 elevationDeg t0 t1 targetElevDeg iters = Some t ->
  t0 <= t <= t1.
Proof.
  unfold bisectCrossingTime64. rewrite !newDate_inject_Z.
  intros H0 H01 H1 H.
  destruct (elevationDeg t0) as [ea|]; [|discriminate].
  destruct (elevationDeg t1) as [eb|]; [|discriminate].
  apply bisectLoop64_inside in H; [|apply bisectInit_ok; assumption].
  cbn [bA bB] in H. rewrite !newDate_inject_Z in H. exact H.
Qed.

(** With an elevation at every instant of a bracket between 1970 and
    September 2039 that is wide enough for the iterations, the
    bisection succeeds, inside the bracket and strictly before its
    end. *)
Lemma bisect64_refines (t0 t1 : Z) (n : nat) :
  0 <= t0 < t1 -> t1 <= 2 ^ 41 ->
  2 ^ Z.of_nat n <= 2048 * (t1 - t0) ->
  (forall t, t0 <= t <= t1 -> elevationDeg t <> None) ->
  exists r,
    bisectCrossingTime64 elevationDeg t0 t1 targetElevDeg n = Some r /\
    t0 <= r < t1.
Proof.
  intros Ht H1 Hn Hvalid.
  assert (Hok : forall ea eb,
            okBracket (mkBracket (inject_Z t0) (inject_Z t1) ea eb))
    by (intros; apply bisectInit_ok; lia).
  unfold bisectCrossingTime64. rewrite !newDate_inject_Z.
  destruct (elevationDeg t0) as [ea|] eqn:E0;
    [|exfalso; apply (Hvalid t0); [lia | exact E0]].
  destruct (elevationDeg t1) as [eb|] eqn:E1;
    [|exfalso; apply (Hvalid t1); [lia | exact E1]].
  destruct (bisectLoop64_some t0 t1 n _ Hvalid (Hok ea eb)) as (r & Hr);
    cbn [bA bB]; try apply Qle_refl.
  exists r. split; [exact Hr|].
  pose proof (bisectLoop64_inside _ _ _ Hr (Hok ea eb)) as Hin.
  cbn [bA bB] in Hin. rewrite !newDate_inject_Z in Hin.
  split; [lia|].
  apply bisectLoop64_below in Hr; [| exact (Hok ea eb) | | |]; cbn [bA bB] in *.
  - rewrite <- Zlt_Qlt in Hr. exact Hr.
  - change 0%Q with (inject_Z 0). rewrite <- Zle_Qle. lia.
  - change (2 ^ 41)%Q with (inject_Z (2 ^ 41)). rewrite <- Zle_Qle. exact H1.
  - assert (Hq : (inject_Z (2 ^ Z.of_nat n) <= 2048 * (inject_Z t1 - inject_Z t0))%Q).
    { change 2048%Q with (inject_Z 2048).
      setoid_replace (inject_Z t1 - inject_Z t0)%Q with (inject_Z (t1 - t0))
        by (unfold Z.sub; rewrite inject_Z_plus, inject_Z_opp; ring).
      rewrite <- inject_Z_mult, <- Zle_Qle. exact Hn. }
    lra.
Qed.

End Bisect64Facts.

(** * Bisection on binary64 numbers, on an elevation with one crossing *)

Section Crossing64.

Variable elevationDeg : Z -> option Q.
Variable rising : bool.
Variable t0 t1 : Z.
Variable c : Q.

Hypothesis t0_date : - 2 ^ 53 <= t0.
Hypothesis t1_date : t1 <= 2 ^ 53.
Hypothesis crossing : crossesOnceAt elevationDeg rising t0 t1 c.

(** An iteration keeps the crossing between the bounds, and the new
    width is at most half the old one and one millisecond. *)
Lemma straddles_step64 (s : Bracket) :
  straddles rising t0 t1 c s -> okBracket s ->
  exists s', bisectStep64 elevationDeg 0 s = StepNext s' /\
             straddles rising t0 t1 c s' /\ okBracket s' /\
             ((bB s' - bA s' - 2) * 2 <= bB s - bA s - 2)%Q.
Proof.
  destruct crossing as [Hc Hsamples].
  intros [(Ha & Hab & Hb) [(Hna & Hnb) Hea]] Hok.
  pose proof Hok as (Fa & Fb & _).
  pose proof (midpoint64_between _ _ Fa Fb Hab) as [Hm1 Hm2].
  assert (Hsum : (Qabs (bA s + bB s) <= 2 ^ 54)%Q).
  { assert (B0 : (- inject_Z (2 ^ 53) <= inject_Z t0)%Q)
      by (rewrite <- inject_Z_opp, <- Zle_Qle; exact t0_date).
    assert (B1 : (inject_Z t1 <= inject_Z (2 ^ 53))%Q)
      by (rewrite <- Zle_Qle; exact t1_date).
    assert (P : (2 ^ 54 == 2 * inject_Z (2 ^ 53))%Q)
      by (apply Qeq_bool_iff; vm_compute; reflexivity).
    rewrite P. apply Qabs_Qle_condition. split; lra. }
  pose proof (midpoint64_near _ _ Hsum) as Hnear.
  apply Qabs_Qle_condition in Hnear. rewrite half_eq in Hnear.
  pose proof (midpoint64_F64 (bA s) (bB s)) as Fm.
  set (m := midpoint64 (bA s) (bB s)) in *.
  assert (Htm : t0 <= newDate m <= t1)
    by (split; [apply newDate_lower | apply newDate_upper]; lra).
  destruct (Hsamples _ Htm) as (em & Hem & Hlt & Heq & Hgt).
  unfold bisectStep64. fold m. rewrite Hem.
  assert (Hfa : Qeq_bool (bEa s - 0) 0 = false).
  { destruct (Qeq_bool (bEa s - 0) 0) eqn:E; [|reflexivity].
    apply Qeq_bool_iff in E. destruct rising; simpl in Hea; lra. }
  rewrite Hfa.
  destruct ((Qltb 0 (bEa s - 0) && Qltb 0 (em - 0))
            || (Qltb (bEa s - 0) 0 && Qltb (em - 0) 0)) eqn:E.
  - apply sameSide_true in E.
    eexists; split; [reflexivity|]. unfold straddles, okBracket.
    cbn [bA bB bEa bEb].
    assert (Hside : (inject_Z (newDate m) < c)%Q).
    { destruct (Q_dec (inject_Z (newDate m)) c) as [[H|H]|H];
        [exact H | specialize (Hgt H) | specialize (Heq H)];
        destruct rising; simpl in *; lra. }
    assert (before rising em) by (apply Hlt, Hside).
    repeat split; try assumption; lra.
  - assert (Hside : (c <= inject_Z (newDate m))%Q).
    { destruct (Qlt_le_dec (inject_Z (newDate m)) c) as [H|H];
        [|exact H].
      specialize (Hlt H). exfalso.
      assert (Hs : (Qltb 0 (bEa s - 0) && Qltb 0 (em - 0))
                   || (Qltb (bEa s - 0) 0 && Qltb (em - 0) 0) = true).
      { apply sameSide_true. destruct rising; simpl in *; [right|left];
          split; lra. }
      congruence. }
    eexists; split; [reflexivity|]. unfold straddles, okBracket.
    cbn [bA bB bEa bEb].
    repeat split; try assumption; lra.
Qed.

Lemma straddles_stateAt64 (n : nat) (s : Bracket) :
  straddles rising t0 t1 c s -> okBracket s ->
  exists s', bisectStateAt64 elevationDeg 0 n s = Some s' /\
             straddles rising t0 t1 c s' /\ okBracket s' /\
             ((bB s' - bA s' - 2) * inject_Z (2 ^ Z.of_nat n)
              <= bB s - bA s - 2)%Q.
Proof.
  revert s. induction n as [|n IH]; intros s Hs Hok;
    cbn [bisectStateAt64].
  - exists s. split; [reflexivity|]. split; [exact Hs|].
    split; [exact Hok|]. change (inject_Z (2 ^ Z.of_nat 0)) with 1%Q. lra.
  - destruct (straddles_step64 s Hs Hok) as (s1 & E & Hs1 & Hok1 & Hw1).
    rewrite E. destruct (IH s1 Hs1 Hok1) as (s' & E' & Hs' & Hok' & Hw').
    exists s'. split; [exact E'|]. split; [exact Hs'|].
    split; [exact Hok'|].
    rewrite Nat2Z.inj_succ, Z.pow_succ_r, inject_Z_mult by lia.
    change (inject_Z 2) with 2%Q.
    setoid_replace ((bB s' - bA s' - 2) * (2 * inject_Z (2 ^ Z.of_nat n)))%Q
      with (((bB s' - bA s' - 2) * inject_Z (2 ^ Z.of_nat n)) * 2)%Q
      by ring.
    lra.
Qed.

(** The error of the refined crossing time: the last bracket's width,
    at most two milliseconds above the exact [2^n]-th of the first, and
    one millisecond for the truncations. *)
Lemma bisect64_crossing_error (n : nat) :
  t0 <= t1 ->
  exists t,
    bisectCrossingTime64 elevationDeg t0 t1 0 (S n) = Some t /\
    (Qabs (inject_Z t - c)
     < inject_Z (t1 - t0) / inject_Z (2 ^ Z.of_nat (S n)) + 3)%Q.
Proof.
  intros Hle. pose proof crossing as [[Hc0 Hc1] Hsamples].
  assert (Hw : (0 <= inject_Z (t1 - t0) / inject_Z (2 ^ Z.of_nat (S n)))%Q).
  { apply Qle_shift_div_l; [apply pow2_pos|].
    rewrite Qmult_0_l. change 0%Q with (inject_Z 0).
    rewrite <- Zle_Qle. lia. }
  assert (HleQ : (inject_Z t0 <= inject_Z t1)%Q)
    by (rewrite <- Zle_Qle; exact Hle).
  destruct (Hsamples t0 ltac:(lia)) as (ea & Hea & Hlt0 & Heq0 & _).
  destruct (Hsamples t1 ltac:(lia)) as (eb & Heb & _).
  pose proof (bisectInit_ok t0 t1 ea eb t0_date Hle t1_date) as Hok.
  unfold bisectCrossingTime64. rewrite !newDate_inject_Z, Hea, Heb.
  destruct (Qlt_le_dec (inject_Z t0) c) as [Hbefore|Hat].
  - assert (Hinit : straddles rising t0 t1 c
                      (mkBracket (inject_Z t0) (inject_Z t1) ea eb)).
    { unfold straddles; cbn [bA bB bEa]. rewrite !newDate_inject_Z.
      repeat split; auto; lra. }
    destruct (straddles_stateAt64 (S n) _ Hinit Hok)
      as (s & Hs & [(Ha & Hab & Hb) [(Hna & Hnb) _]] & Hoks & Hwidth).
    exists (probe64 s). split; [apply bisectLoop64_stateAt, Hs|].
    unfold probe64.
    cbn [bA bB] in Hwidth.
    destruct Hoks as (Fa & Fb & _).
    pose proof (midpoint64_between _ _ Fa Fb Hab) as [Hm1 Hm2].
    pose proof (newDate_mono _ _ Hm1) as Hp1.
    pose proof (newDate_mono _ _ Hm2) as Hp2.
    rewrite Zle_Qle in Hp1, Hp2.
    pose proof (newDate_gap _ _ Hab) as Hgap.
    unfold Z.sub in Hgap. rewrite inject_Z_plus, inject_Z_opp in Hgap.
    pose proof (pow2_pos (S n)) as Hpow.
    set (p := inject_Z (2 ^ Z.of_nat (S n))) in *.
    assert (Hd : (bB s - bA s - 2 <= inject_Z (t1 - t0) / p)%Q).
    { apply Qle_shift_div_l; [exact Hpow|].
      unfold Z.sub at 1. rewrite inject_Z_plus, inject_Z_opp. lra. }
    apply Qabs_Qlt_condition. split; lra.
  - assert (Hz : (ea == 0)%Q) by (apply Heq0; lra).
    cbn [bisectLoop64].
    assert (Hprobe : t0 <= newDate (midpoint64 (inject_Z t0) (inject_Z t1))
                     <= t1).
    { destruct Hok as (Fa & Fb & _). cbn [bA bB] in Fa, Fb.
      pose proof (midpoint64_between _ _ Fa Fb HleQ) as [Hm1 Hm2].
      split; [apply newDate_lower | apply newDate_upper]; assumption. }
    destruct (Hsamples _ Hprobe) as (em & Hem & _).
    unfold bisectStep64. cbn [bA bB bEa bEb]. rewrite Hem.
    assert (Hfa : Qeq_bool (ea - 0) 0 = true)
      by (apply Qeq_bool_iff; lra).
    rewrite Hfa, newDate_inject_Z.
    exists t0. split; [reflexivity|].
    apply Qabs_Qlt_condition. split; lra.
Qed.

End Crossing64.

(** * The peak finder *)

Section PeakFacts.

Variable elevationDeg : Z -> option Q.

(** The instants [findMaxElevation aos los] samples: [aos], [aos + 5 s],
    [aos + 10 s], ... up to [los]. *)
Definition sampledAt (aos los t : Z) : Prop :=
  exists k, 0 <= k /\ t = aos + fineStepMs * k /\ t <= los.

(** What the peak finder returns: the start value, when no sample beats
    it, or else the first of the highest samples. *)
Definition peakOf (aos los : Z) (p : Peak) : Prop :=
  (p = mkPeak aos (-999 # 1)%Q /\
   forall t e, sampledAt aos los t -> elevationDeg t = Some e ->
               (e <= -999 # 1)%Q)
  \/
  (sampledAt aos los (peakT p) /\
   elevationDeg (peakT p) = Some (peakElev p) /\
   (-999 # 1 < peakElev p)%Q /\
   (forall t e, sampledAt aos los t -> elevationDeg t = Some e ->
                (e <= peakElev p)%Q) /\
   (forall t e, sampledAt aos los t -> t < peakT p ->
                elevationDeg t = Some e -> (e < peakElev p)%Q)).

Lemma sampledAt_upto (aos x t : Z) :
  sampledAt aos (x + fineStepMs - 1) t -> sampledAt aos x x ->
  t = x \/ sampledAt aos (x - 1) t.
Proof.
  unfold sampledAt, fineStepMs.
  intros (k & Hk & -> & Hle) (j & Hj & Hx & _).
  destruct (Z.eq_dec k j) as [->|Hne]; [left; lia|].
  right. exists k. repeat split; lia.
Qed.

Lemma sampledAt_weaken (aos los los' t : Z) :
  los <= los' -> sampledAt aos los t -> sampledAt aos los' t.
Proof.
  intros Hle (k & Hk & Ht & Hl). exists k. repeat split; lia.
Qed.

Lemma sampledAt_next (aos x : Z) :
  sampledAt aos x x -> sampledAt aos (x + fineStepMs) (x + fineStepMs).
Proof.
  unfold sampledAt, fineStepMs. intros (j & Hj & Hx & _).
  exists (j + 1). repeat split; lia.
Qed.

Lemma peakBody_keeps (aos x : Z) (best : Peak) :
  sampledAt aos x x -> peakOf aos (x - 1) best ->
  exists best', peakBody elevationDeg x best = Continue best' /\
                peakOf aos (x + fineStepMs - 1) best'.
Proof.
  intros Hx Hinv. unfold peakBody. rewrite newDate_inject_Z.
  assert (Hwk : forall t, sampledAt aos (x - 1) t ->
                          sampledAt aos (x + fineStepMs - 1) t)
    by (intro t; apply sampledAt_weaken; unfold fineStepMs; lia).
  assert (Hxs : sampledAt aos (x + fineStepMs - 1) x)
    by (revert Hx; apply sampledAt_weaken; unfold fineStepMs; lia).
  destruct (elevationDeg x) as [e|] eqn:Ex.
  - destruct (Qltb (peakElev best) e) eqn:Elt.
    + apply Qltb_lt in Elt. eexists; split; [reflexivity|].
      right. simpl. repeat split; try assumption.
      * destruct Hinv as [[-> _]|(_ & _ & Hs & _)]; simpl in *; lra.
      * intros t e' Ht He'.
        destruct (sampledAt_upto _ _ _ Ht Hx) as [->|Ht'].
        -- rewrite Ex in He'. inversion He'; subst. lra.
        -- destruct Hinv as [[-> Hall]|(_ & _ & _ & Hall & _)];
             specialize (Hall _ _ Ht' He'); simpl in *; lra.
      * intros t e' Ht Hlt He'.
        destruct (sampledAt_upto _ _ _ Ht Hx) as [->|Ht']; [lia|].
        destruct Hinv as [[-> Hall]|(_ & _ & _ & Hall & _)];
          specialize (Hall _ _ Ht' He'); simpl in *; lra.
    + apply Qltb_ge in Elt. eexists; split; [reflexivity|].
      destruct Hinv as [[-> Hall]|(Hs & Hat & Hgt & Hall & Hfirst)].
      * left. split; [reflexivity|]. intros t e' Ht He'.
        destruct (sampledAt_upto _ _ _ Ht Hx) as [->|Ht'].
        -- rewrite Ex in He'. inversion He'; subst. exact Elt.
        -- eapply Hall; eauto.
      * right. repeat split; auto.
        -- intros t e' Ht He'.
           destruct (sampledAt_upto _ _ _ Ht Hx) as [->|Ht'].
           ++ rewrite Ex in He'. inversion He'; subst. exact Elt.
           ++ eapply Hall; eauto.
        -- intros t e' Ht Hlt He'.
           destruct (sampledAt_upto _ _ _ Ht Hx) as [->|Ht'].
           ++ destruct Hs as (k & _ & _ & Hk). lia.
           ++ eapply Hfirst; eauto.
  - eexists; split; [reflexivity|].
    destruct Hinv as [[-> Hall]|(Hs & Hat & Hgt & Hall & Hfirst)].
    + left. split; [reflexivity|]. intros t e' Ht He'.
      destruct (sampledAt_upto _ _ _ Ht Hx) as [->|Ht'];
        [congruence | eapply Hall; eauto].
    + right. repeat split; auto.
      * intros t e' Ht He'.
        destruct (sampledAt_upto _ _ _ Ht Hx) as [->|Ht'];
          [congruence | eapply Hall; eauto].
      * intros t e' Ht Hlt He'.
        destruct (sampledAt_upto _ _ _ Ht Hx) as [->|Ht'];
          [congruence | eapply Hfirst; eauto].
Qed.

Lemma peak_runs (aos los x : Z) (best r : Peak) :
  forRuns los fineStepMs (peakBody elevationDeg) x best r ->
  sampledAt aos x x -> peakOf aos (x - 1) best ->
  x <= los + fineStepMs ->
  peakOf aos los r.
Proof.
  induction 1 as [x s Hx | x s s' Hx Hb | x s s' s'' Hx Hb _ IH];
    intros Hs Hinv Hnear.
  - assert (Hin : forall t, sampledAt aos los t ->
                            sampledAt aos (x - 1) t)
      by (intro t; apply sampledAt_weaken; lia).
    assert (Hout : forall t, sampledAt aos (x - 1) t ->
                             sampledAt aos los t).
    { revert Hs Hnear Hx. unfold sampledAt, fineStepMs.
      intros (j & Hj & Hxj & _) Hnear Hx t (k & Hk & Ht & Hl).
      exists k. repeat split; lia. }
    destruct Hinv as [[-> Hall]|(Hsp & Hat & Hgt & Hall & Hfirst)].
    + left. split; [reflexivity|]. intros t e Ht He.
      apply (Hall t e); auto.
    + right. repeat split; eauto.
  - destruct (peakBody_keeps _ _ _ Hs Hinv) as (b & Hb' & _). congruence.
  - destruct (peakBody_keeps _ _ _ Hs Hinv) as (b & Hb' & Hinv').
    rewrite Hb in Hb'. inversion Hb'; subst b.
    apply IH.
    + apply sampledAt_next, Hs.
    + exact Hinv'.
    + lia.
Qed.

Lemma findMaxElevation_peakOf (aos los : Z) :
  peakOf aos los (findMaxElevation elevationDeg aos los).
Proof.
  unfold findMaxElevation.
  destruct (Z_le_gt_dec aos los) as [Hle|Hgt].
  - eapply peak_runs.
    + apply forLoop_runs; [unfold fineStepMs; lia | apply Nat.le_refl].
    + exists 0. unfold fineStepMs. repeat split; lia.
    + left. split; [reflexivity|].
      unfold sampledAt, fineStepMs. intros t e (k & Hk & Ht & Hl). lia.
    + unfold fineStepMs. lia.
  - rewrite loopFuel_exit by (unfold fineStepMs; lia). simpl.
    left. split; [reflexivity|].
    unfold sampledAt, fineStepMs. intros t e (k & Hk & Ht & Hl). lia.
Qed.

(** The peak is a sampled instant of the bracket, and its elevation is
    the start value or the oracle's elevation there. *)
Lemma findMaxElevation_range (aos los : Z) :
  aos <= los ->
  let p := findMaxElevation elevationDeg aos los in
  aos <= peakT p <= los /\ sampledAt aos los (peakT p) /\
  (-999 # 1 <= peakElev p)%Q /\
  (peakElev p = (-999 # 1)%Q \/
   elevationDeg (peakT p) = Some (peakElev p)).
Proof.
  intros Hle p. subst p.
  destruct (findMaxElevation_peakOf aos los)
    as [[-> _]|(Hs & Hat & Hgt & _)]; simpl.
  - repeat split; try lia; [|lra|now left].
    exists 0. unfold fineStepMs. repeat split; lia.
  - repeat split; try assumption; [| |lra|now right];
      revert Hs; unfold sampledAt, fineStepMs;
      intros (k & Hk & Ht & Hl); lia.
Qed.

End PeakFacts.

(** * The coarse scan *)

Section ScanFacts.

Variable elevationDeg : Z -> option Q.

Local Notation "'bisect' t0 t1" :=
  (bisectCrossingTime elevationDeg t0 t1 0 defaultIters)
  (at level 10, t0 at level 9, t1 at level 9).
Local Notation "'peak'" := (findMaxElevation elevationDeg).

(** The guard of line 192. *)
Definition upFires (e : Q) (s : Scan) : bool :=
  negb (inPass s) && Qle_bool (prevE s) 0 && Qltb 0 e.

(** The guard of line 199. *)
Definition downFires (e : Q) (s : Scan) : bool :=
  inPass s && Qltb 0 (prevE s) && Qle_bool e 0.

(** The pass that lines 200-211 push at the sample [t], if any. *)
Definition closedPass (t : Z) (s : Scan) : option Pass :=
  match currentAOS s with
  | Some a =>
      let finalLOS := orDate (bisect (prevT s) t) t in
      if a <? finalLOS
      then Some (mkPass a finalLOS (peakT (peak a finalLOS))
                   (peakElev (peak a finalLOS)))
      else None
  | None => None
  end.

Lemma crossUp_eq (t : Z) (e : Q) (s : Scan) :
  crossUp elevationDeg t e s =
  if upFires e s
  then mkScan (prevT s) (prevE s) true
         (Some (orDate (bisect (prevT s) t) t)) (passes s)
  else s.
Proof. reflexivity. Qed.

Lemma crossDown_eq (nPasses t : Z) (e : Q) (s : Scan) :
  crossDown elevationDeg nPasses t e s =
  if downFires e s then
    match closedPass t s with
    | Some p =>
        if Z.of_nat (List.length (passes s ++ [p])) >=? nPasses
        then Break (mkScan (prevT s) (prevE s) false (currentAOS s)
                      (passes s ++ [p]))
        else Continue (mkScan (prevT s) (prevE s) false None
                         (passes s ++ [p]))
    | None => Continue (mkScan (prevT s) (prevE s) false None (passes s))
    end
  else Continue s.
Proof.
  unfold crossDown, downFires, closedPass.
  destruct (inPass s && Qltb 0 (prevE s) && Qle_bool e 0); [|reflexivity].
  destruct (currentAOS s) as [a|]; [|reflexivity].
  destruct (a <? _); reflexivity.
Qed.

(** A crossing time, refined or not, lies between the two samples. *)
Lemma orDate_inside (t0 t : Z) :
  t0 <= t -> t0 <= orDate (bisect t0 t) t <= t.
Proof.
  intro Hle. destruct (bisect t0 t) as [r|] eqn:E; simpl.
  - eapply bisectCrossingTime_inside; eauto.
  - lia.
Qed.

Lemma scanBody_null (nPasses tMs : Z) (s : Scan) :
  elevationDeg tMs = None ->
  scanBody elevationDeg nPasses tMs s = Continue s.
Proof.
  intro H. unfold scanBody. rewrite newDate_inject_Z, H. reflexivity.
Qed.

Lemma scanBody_sample (nPasses tMs : Z) (e : Q) (s : Scan) :
  elevationDeg tMs = Some e ->
  scanBody elevationDeg nPasses tMs s =
  match crossDown elevationDeg nPasses tMs e
          (crossUp elevationDeg tMs e s) with
  | Break s' => Break s'
  | Continue s' =>
      Continue (mkScan tMs e (inPass s') (currentAOS s') (passes s'))
  end.
Proof.
  intro H. unfold scanBody. rewrite newDate_inject_Z, H. reflexivity.
Qed.

(** ** Passes stay inside the window, in order, and well formed *)

Section Window.

Variable start end_ : Z.

Definition goodPass (p : Pass) : Prop :=
  start <= aos p /\ aos p < los p /\ los p <= end_ /\
  aos p <= tca p <= los p /\
  sampledAt (aos p) (los p) (tca p) /\
  (-999 # 1 <= maxElev p)%Q /\
  (maxElev p = (-999 # 1)%Q \/ elevationDeg (tca p) = Some (maxElev p)).

(** Each pass ends before the next one starts. *)
Definition inOrder (ps : list Pass) : Prop :=
  StronglySorted (fun p q => los p <= aos q) ps.

Definition passesOK (ps : list Pass) : Prop :=
  Forall goodPass ps /\ inOrder ps.

Definition scanInv (x : Z) (s : Scan) : Prop :=
  (start <= prevT s /\ prevT s < x) /\
  (forall a, currentAOS s = Some a -> start <= a <= prevT s) /\
  passesOK (passes s) /\
  (forall p, In p (passes s) -> los p <= prevT s) /\
  (forall p a, In p (passes s) -> currentAOS s = Some a -> los p <= a).

Lemma inOrder_snoc (ps : list Pass) (q : Pass) :
  inOrder ps -> (forall p, In p ps -> los p <= aos q) ->
  inOrder (ps ++ [q]).
Proof.
  unfold inOrder. induction 1 as [|p ps Hs IH Hp]; intro Hq; simpl.
  - repeat constructor.
  - constructor.
    + apply IH. intros r Hr. apply Hq. now right.
    + apply Forall_app. split; [exact Hp|].
      constructor; [|constructor]. apply Hq. now left.
Qed.

Lemma closedPass_good (t : Z) (s : Scan) (p : Pass) :
  closedPass t s = Some p ->
  prevT s <= t -> t <= end_ ->
  (forall a, currentAOS s = Some a -> start <= a) ->
  goodPass p /\ currentAOS s = Some (aos p) /\ prevT s <= los p <= t.
Proof.
  unfold closedPass. intros H Hle Hend Ha.
  destruct (currentAOS s) as [a|]; [|discriminate].
  pose proof (orDate_inside _ _ Hle) as Hin.
  destruct (Z.ltb_spec a (orDate (bisect (prevT s) t) t)) as [Hlt|];
    [|discriminate].
  inversion H; subst p; clear H. simpl.
  pose proof (findMaxElevation_range elevationDeg a
                (orDate (bisect (prevT s) t) t) ltac:(lia)) as Hp.
  simpl in Hp. destruct Hp as (Hp1 & Hp2 & Hp3 & Hp4).
  specialize (Ha a eq_refl).
  unfold goodPass; simpl. repeat split; auto; lia.
Qed.

Lemma scanInv_later (x x' : Z) (s : Scan) :
  x <= x' -> scanInv x s -> scanInv x' s.
Proof.
  intros Hle ((Hp1 & Hp2) & Hrest). split; [lia | exact Hrest].
Qed.

Lemma scanInv_intro (x t : Z) (e : Q) (ip : bool) (c : option Z)
    (ps : list Pass) :
  start <= t < x ->
  (forall a, c = Some a ->
             start <= a <= t /\ forall p, In p ps -> los p <= a) ->
  passesOK ps ->
  (forall p, In p ps -> los p <= t) ->
  scanInv x (mkScan t e ip c ps).
Proof.
  intros Ht Hc Hok Hlos. unfold scanInv; simpl.
  split; [exact Ht|]. split; [intros a Ha; apply Hc, Ha|].
  split; [exact Hok|]. split; [exact Hlos|].
  intros p a Hp Ha. apply (Hc _ Ha), Hp.
Qed.

Lemma scanBody_inv (nPasses x : Z) (s : Scan) :
  x <= end_ -> scanInv x s ->
  match scanBody elevationDeg nPasses x s with
  | Continue s' => scanInv (x + stepMs) s'
  | Break s' => passesOK (passes s')
  end.
Proof.
  intros Hx Hinv.
  assert (Hstep : 0 < stepMs) by (unfold stepMs; lia).
  destruct (elevationDeg x) as [e|] eqn:Ex.
  2:{ rewrite scanBody_null by exact Ex.
      revert Hinv. apply scanInv_later. lia. }
  destruct Hinv as ((Hp1 & Hp2) & Haos & (Hgood & Hord) & Hlos & Hsep).
  rewrite (scanBody_sample _ _ _ _ Ex), crossUp_eq.
  pose proof (orDate_inside (prevT s) x ltac:(lia)) as Hup.
  set (s1 := if upFires e s then _ else s).
  assert (H1 : prevT s1 = prevT s /\ passes s1 = passes s /\
               (forall a, currentAOS s1 = Some a ->
                          start <= a <= x /\
                          forall p, In p (passes s) -> los p <= a)).
  { subst s1. destruct (upFires e s); simpl.
    - split; [reflexivity|]. split; [reflexivity|].
      intros a Ha. inversion Ha; subst a. split; [lia|].
      intros p Hp. specialize (Hlos _ Hp). lia.
    - split; [reflexivity|]. split; [reflexivity|].
      intros a Ha. specialize (Haos _ Ha). split; [lia|].
      intros p Hp. eapply Hsep; eauto. }
  destruct H1 as (HT & HP & HA).
  assert (Hlos' : forall q, In q (passes s) -> los q <= x)
    by (intros q Hq; specialize (Hlos _ Hq); lia).
  rewrite crossDown_eq. destruct (downFires e s1).
  - destruct (closedPass x s1) as [p|] eqn:Ecp.
    + destruct (closedPass_good _ _ _ Ecp) as (Hg & Hcur & Hl);
        [lia | lia | intros a Ha; apply HA, Ha |].
      assert (Hok : passesOK (passes s1 ++ [p])).
      { rewrite HP. split.
        - apply Forall_app. split; [exact Hgood|].
          constructor; [exact Hg | constructor].
        - apply inOrder_snoc; [exact Hord|].
          intros q Hq. apply (HA _ Hcur), Hq. }
      destruct (_ >=? nPasses); simpl; [exact Hok|].
      apply scanInv_intro; [lia | discriminate | exact Hok |].
      intros q Hq. rewrite HP in Hq. apply in_app_or in Hq.
      destruct Hq as [Hq|[<-|[]]]; [apply Hlos', Hq | lia].
    + simpl. rewrite HP.
      apply scanInv_intro; [lia | discriminate | | exact Hlos'].
      split; assumption.
  - rewrite HP.
    apply scanInv_intro; [lia | exact HA | | exact Hlos'].
    split; assumption.
Qed.

Lemma scanInit_inv : scanInv (start + stepMs) (scanInit elevationDeg start).
Proof.
  unfold scanInit.
  apply scanInv_intro.
  - unfold stepMs. lia.
  - intros a Ha. destruct (Qltb 0 _); inversion Ha; subst a.
    split; [lia | intros p []].
  - split; constructor.
  - intros p [].
Qed.

End Window.

Lemma scanPasses_ok (start nPasses searchHours : Z) :
  passesOK start (windowEnd start searchHours)
    (scanPasses elevationDeg start nPasses searchHours).
Proof.
  unfold scanPasses.
  eapply (forRuns_inv (windowEnd start searchHours) stepMs
            (scanBody elevationDeg nPasses)
            (scanInv start (windowEnd start searchHours))
            (fun s => passesOK start (windowEnd start searchHours)
                        (passes s))).
  - intros x s Hx HI. apply scanBody_inv; assumption.
  - intros x s HI. apply HI.
  - apply forLoop_runs; [unfold stepMs; lia | apply Nat.le_refl].
  - apply scanInit_inv.
Qed.

End ScanFacts.

(** * Concrete oracles *)

(** One degree above the horizon from [lo] to [hi] (milliseconds), one
    degree below it otherwise. *)
Definition boxOracle (lo hi : Z) : Z -> option Q :=
  fun t => if (lo <=? t) && (t <=? hi) then Some 1%Q else Some (-1)%Q.

(** An elevation that rises by one degree per millisecond and crosses
    the horizon at [c0]. *)
Definition rampOracle (c0 : Z) : Z -> option Q :=
  fun t => Some (inject_Z (t - c0)).

(** No elevation at the instant 0, then as [boxOracle 1 50000]. *)
Definition lateOracle : Z -> option Q :=
  fun t => if t =? 0 then None else boxOracle 1 50000 t.

(** * The invariant of a pass *)

(** C1, as far as it holds: every pass the search emits lies inside the
    search window and has [aos < los] and [aos <= tca <= los]; its
    [maxElev] is at least the start value -999 of the peak finder, and
    is either that start value or the elevation the oracle gives at
    [tca]. *)
Theorem emitted_pass_bounds (elevationDeg : Z -> option Q)
    (start nPasses searchHours : Z) (p : Pass) :
  In p (scanPasses elevationDeg start nPasses searchHours) ->
  start <= aos p /\ aos p < los p /\
  los p <= windowEnd start searchHours /\
  aos p <= tca p <= los p /\
  (-999 # 1 <= maxElev p)%Q /\
  (maxElev p = (-999 # 1)%Q \/ elevationDeg (tca p) = Some (maxElev p)).
Proof.
  intro Hin.
  destruct (scanPasses_ok elevationDeg start nPasses searchHours)
    as [Hgood _].
  rewrite Forall_forall in Hgood.
  destruct (Hgood _ Hin) as (H1 & H2 & H3 & H4 & _ & H6 & H7).
  repeat split; try assumption; lia.
Qed.

Lemma emitted_pass_bounds_witness :
  let p := mkPass 19000 21001 19000 1 in
  0 <= aos p /\ aos p < los p /\ los p <= windowEnd 0 1 /\
  aos p <= tca p <= los p /\ (-999 # 1 <= maxElev p)%Q /\
  (maxElev p = (-999 # 1)%Q \/
   boxOracle 19000 21000 (tca p) = Some (maxElev p)).
Proof.
  apply (emitted_pass_bounds (boxOracle 19000 21000) 0 5 1).
  vm_compute. left. reflexivity.
Defined.

(** A pass of two seconds around the coarse sample at 20 s lies well
    inside a window of one hour, and its [tca] equals its [aos]; a
    satellite that is up at that one sample only gives a pass whose
    [maxElev] is negative. *)
Lemma emitted_pass_tca_at_aos :
  ~ (forall p, In p (scanPasses (boxOracle 19000 21000) 0 5 1) ->
               0 < aos p /\ los p < windowEnd 0 1 ->
               aos p < tca p < los p) /\
  ~ (forall p, In p (scanPasses (boxOracle 20000 20000) 0 5 1) ->
               (0 <= maxElev p)%Q).
Proof.
  split; intro H.
  - specialize (H (mkPass 19000 21001 19000 1)).
    assert (Hin : In (mkPass 19000 21001 19000 1)
                    (scanPasses (boxOracle 19000 21000) 0 5 1))
      by (vm_compute; left; reflexivity).
    specialize (H Hin). unfold windowEnd in H. cbn [aos los tca] in H.
    lia.
  - specialize (H (mkPass 19999 20000 19999 (-1))).
    assert (Hin : In (mkPass 19999 20000 19999 (-1))
                    (scanPasses (boxOracle 20000 20000) 0 5 1))
      by (vm_compute; left; reflexivity).
    specialize (H Hin). cbn [maxElev] in H. revert H.
    apply Qlt_not_le. reflexivity.
Qed.

(** * Bisection stays inside its bracket *)

(** C10: for [t0 < t1] a timestamp returned by [bisectCrossingTime] lies
    in [t0, t1], and at the start of every iteration the bounds satisfy
    [t0 <= a <= b <= t1]. *)
Theorem bisect_stays_in_bracket (elevationDeg : Z -> option Q)
    (t0 t1 : Z) (targetElevDeg : Q) (iters : nat) :
  t0 < t1 ->
  (forall t,
     bisectCrossingTime elevationDeg t0 t1 targetElevDeg iters = Some t ->
     t0 <= t <= t1) /\
  (forall i ea eb s,
     bisectStateAt elevationDeg targetElevDeg i (bisectInit t0 t1 ea eb)
       = Some s ->
     (inject_Z t0 <= bA s /\ bA s <= bB s /\ bB s <= inject_Z t1)%Q).
Proof.
  intro Hlt. split.
  - intros t H. eapply bisectCrossingTime_inside; eauto. lia.
  - intros i ea eb s H.
    apply bisectStateAt_inside in H; simpl in *; [exact H|].
    rewrite <- Zle_Qle. lia.
Qed.

Lemma bisect_stays_in_bracket_witness :
  (forall t,
     bisectCrossingTime (boxOracle 19000 21000) 0 20000 0 25 = Some t ->
     0 <= t <= 20000) /\
  (forall i ea eb s,
     bisectStateAt (boxOracle 19000 21000) 0 i (bisectInit 0 20000 ea eb)
       = Some s ->
     (inject_Z 0 <= bA s /\ bA s <= bB s /\ bB s <= inject_Z 20000)%Q).
Proof.
  apply (bisect_stays_in_bracket (boxOracle 19000 21000) 0 20000 0 25).
  lia.
Defined.

(** * Failure of the bisection and the fallback of the scan *)



(** * Accuracy of the refined crossing time *)

(** C3, as the code has it: when the elevation crosses the horizon once,
    at the instant [c] of a bracket [t0, t1] of dates, the binary64
    bisection with its 25 iterations returns a time whose distance from
    [c] is below the exact [2^25]-th of the bracket's width plus three
    milliseconds, hence below one second for a bracket of up to a day;
    and when [c] is after [t0] the loop runs all 25 iterations and its
    last bracket is at most two milliseconds wider than
    [(t1 - t0) / 2^25]. *)
Theorem bisect64_within_one_second (elevationDeg : Z -> option Q)
    (rising : bool) (t0 t1 : Z) (c : Q) :
  - maxDate <= t0 -> t0 < t1 -> t1 <= maxDate ->
  t1 - t0 <= 24 * 3600 * 1000 ->
  crossesOnceAt elevationDeg rising t0 t1 c ->
  exists t,
    bisectCrossingTime64 elevationDeg t0 t1 0 defaultIters = Some t /\
    (Qabs (inject_Z t - c)
     < inject_Z (t1 - t0) / inject_Z (2 ^ 25) + 3)%Q /\
    (Qabs (inject_Z t - c) < 1000)%Q /\
    ((inject_Z t0 < c)%Q ->
     exists ea eb s,
       elevationDeg t0 = Some ea /\ elevationDeg t1 = Some eb /\
       bisectStateAt64 elevationDeg 0 defaultIters (bisectInit t0 t1 ea eb)
         = Some s /\
       (bB s - bA s <= inject_Z (t1 - t0) / inject_Z (2 ^ 25) + 2)%Q).
Proof.
  intros Hmin Hlt Hmax Hday Hc. unfold maxDate in *.
  assert (H0 : - 2 ^ 53 <= t0) by lia.
  assert (H1 : t1 <= 2 ^ 53) by lia.
  destruct (bisect64_crossing_error elevationDeg rising t0 t1 c H0 H1 Hc 24
              ltac:(lia)) as (t & Ht & Herr).
  change (Z.of_nat 25) with 25 in Herr.
  assert (Hq : (0 <= inject_Z (t1 - t0) / inject_Z (2 ^ 25) /\
                inject_Z (t1 - t0) / inject_Z (2 ^ 25) <= 3)%Q).
  { split.
    - apply Qle_shift_div_l; [reflexivity|].
      rewrite Qmult_0_l. change 0%Q with (inject_Z 0).
      rewrite <- Zle_Qle. lia.
    - apply Qle_shift_div_r; [reflexivity|].
      change (3 * inject_Z (2 ^ 25))%Q with (inject_Z (3 * 2 ^ 25)).
      rewrite <- Zle_Qle. lia. }
  exists t. split; [exact Ht|]. split; [exact Herr|]. split.
  - eapply Qlt_le_trans; [exact Herr|]. lra.
  - intro Hbefore. pose proof Hc as [[Hc0 Hc1] Hsamples].
    destruct (Hsamples t0 ltac:(lia)) as (ea & Hea & Hlt0 & _).
    destruct (Hsamples t1 ltac:(lia)) as (eb & Heb & _).
    assert (Hinit : straddles rising t0 t1 c (bisectInit t0 t1 ea eb)).
    { unfold straddles, bisectInit; cbn [bA bB bEa].
      rewrite !newDate_inject_Z.
      assert (inject_Z t0 <= inject_Z t1)%Q by (rewrite <- Zle_Qle; lia).
      repeat split; auto; lra. }
    assert (Hok : okBracket (bisectInit t0 t1 ea eb))
      by (apply bisectInit_ok; lia).
    destruct (straddles_stateAt64 elevationDeg rising t0 t1 c H0 H1 Hc
                defaultIters _ Hinit Hok)
      as (s & Hs & _ & (_ & _ & Hab) & Hwidth).
    exists ea, eb, s. repeat split; try assumption.
    unfold bisectInit in Hwidth. cbn [bA bB] in Hwidth.
    change (Z.of_nat defaultIters) with 25 in Hwidth.
    assert (Hd : (bB s - bA s - 2 <= inject_Z (t1 - t0) / inject_Z (2 ^ 25))%Q).
    { apply Qle_shift_div_l; [reflexivity|].
      unfold Z.sub at 1. rewrite inject_Z_plus, inject_Z_opp. lra. }
    lra.
Qed.

Lemma rampOracle_crosses (c0 t0 t1 : Z) :
  t0 <= c0 <= t1 ->
  crossesOnceAt (rampOracle c0) true t0 t1 (inject_Z c0).
Proof.
  intro Hc. split.
  - rewrite <- !Zle_Qle. lia.
  - intros t Ht. exists (inject_Z (t - c0)).
    split; [reflexivity|]. unfold before, after.
    change 0%Q with (inject_Z 0).
    rewrite <- !Zlt_Qlt, !inject_Z_injective. repeat split; lia.
Defined.

Lemma bisect64_within_one_second_witness :
  exists t,
    bisectCrossingTime64 (rampOracle 1793000007001)
      1793000000000 1793000020000 0 defaultIters = Some t /\
    (Qabs (inject_Z t - inject_Z 1793000007001)
     < inject_Z (1793000020000 - 1793000000000) / inject_Z (2 ^ 25) + 3)%Q /\
    (Qabs (inject_Z t - inject_Z 1793000007001) < 1000)%Q /\
    ((inject_Z 1793000000000 < inject_Z 1793000007001)%Q ->
     exists ea eb s,
       rampOracle 1793000007001 1793000000000 = Some ea /\
       rampOracle 1793000007001 1793000020000 = Some eb /\
       bisectStateAt64 (rampOracle 1793000007001) 0 defaultIters
         (bisectInit 1793000000000 1793000020000 ea eb) = Some s /\
       (bB s - bA s
        <= inject_Z (1793000020000 - 1793000000000) / inject_Z (2 ^ 25)
           + 2)%Q).
Proof.
  apply (bisect64_within_one_second (rampOracle 1793000007001) true
           1793000000000 1793000020000 (inject_Z 1793000007001)).
  - unfold maxDate. lia.
  - lia.
  - unfold maxDate. lia.
  - lia.
  - apply rampOracle_crosses. lia.
Defined.

(** On a date of 2026 the halving is not exact: for a crossing 7.001 s
    into a bracket of 20 s the last bracket of the 25 iterations is
    [2^-11] ms wide, which is not [20000 / 2^25] ms. *)
Lemma bisect64_last_width_not_exact :
  crossesOnceAt (rampOracle 1793000007001) true
    1793000000000 1793000020000 (inject_Z 1793000007001) /\
  exists s,
    bisectStateAt64 (rampOracle 1793000007001) 0 defaultIters
      (bisectInit 1793000000000 1793000020000
         (inject_Z (-7001)) (inject_Z 12999)) = Some s /\
    (bB s - bA s == 1 # 2048)%Q /\
    ~ (bB s - bA s
       == inject_Z (1793000020000 - 1793000000000) / inject_Z (2 ^ 25))%Q /\
    bisectCrossingTime64 (rampOracle 1793000007001)
      1793000000000 1793000020000 0 defaultIters = Some 1793000007000.
Proof.
  split; [apply rampOracle_crosses; lia|].
  eexists. split; [vm_compute; reflexivity|].
  split; [vm_compute; reflexivity|].
  split; [|vm_compute; reflexivity].
  intro H. vm_compute in H. discriminate.
Qed.

(** * The peak finder *)

(** C8: [findMaxElevation] looks at the elevation every 5 seconds from
    [aos] up to [los]; when some sample has an elevation (above the start
    value -999), the returned time is a sampled instant, the returned
    value is the oracle's elevation there, no sample is higher, and every
    earlier sample is strictly lower. *)
Theorem findMaxElevation_first_maximum (elevationDeg : Z -> option Q)
    (aos los : Z) :
  (exists t e, sampledAt aos los t /\ elevationDeg t = Some e /\
               (-999 # 1 < e)%Q) ->
  let p := findMaxElevation elevationDeg aos los in
  sampledAt aos los (peakT p) /\
  elevationDeg (peakT p) = Some (peakElev p) /\
  (forall t e, sampledAt aos los t -> elevationDeg t = Some e ->
               (e <= peakElev p)%Q) /\
  (forall t e, sampledAt aos los t -> t < peakT p ->
               elevationDeg t = Some e -> (e < peakElev p)%Q).
Proof.
  intros (t & e & Ht & He & Hgt) p. subst p.
  destruct (findMaxElevation_peakOf elevationDeg aos los)
    as [[_ Hall]|(Hs & Hat & _ & Hmax & Hfirst)].
  - specialize (Hall _ _ Ht He). lra.
  - repeat split; assumption.
Qed.

Lemma findMaxElevation_first_maximum_witness :
  let p := findMaxElevation (rampOracle 7001) 0 20000 in
  sampledAt 0 20000 (peakT p) /\
  rampOracle 7001 (peakT p) = Some (peakElev p) /\
  (forall t e, sampledAt 0 20000 t -> rampOracle 7001 t = Some e ->
               (e <= peakElev p)%Q) /\
  (forall t e, sampledAt 0 20000 t -> t < peakT p ->
               rampOracle 7001 t = Some e -> (e < peakElev p)%Q).
Proof.
  apply (findMaxElevation_first_maximum (rampOracle 7001) 0 20000).
  exists 10000, (inject_Z (10000 - 7001)). split; [|split].
  - exists 2. unfold fineStepMs. lia.
  - reflexivity.
  - reflexivity.
Defined.

(** * Windows without a downward crossing *)

(** The oracle that gives the same elevation at every instant. *)
Definition constOracle (e : Q) : Z -> option Q := fun _ => Some e.

Lemma scan_never_rises (elevationDeg : Z -> option Q)
    (start nPasses searchHours : Z) :
  (forall t e, start <= t <= windowEnd start searchHours ->
               elevationDeg t = Some e -> (e <= 0)%Q) ->
  scanPasses elevationDeg start nPasses searchHours = [].
Proof.
  intro Hlow. unfold scanPasses.
  destruct (Z_le_gt_dec 0 searchHours) as [Hh|Hh].
  2:{ (* a window that ends before it starts: the loop body never runs *)
      rewrite loopFuel_exit by (unfold windowEnd, stepMs; lia).
      reflexivity. }
  eapply (forRuns_inv (windowEnd start searchHours) stepMs
            (scanBody elevationDeg nPasses)
            (fun x s => start <= x /\ inPass s = false /\ passes s = [])
            (fun s => passes s = [])).
  - intros x s Hx (Hsx & Hin & Hps).
    destruct (elevationDeg x) as [e|] eqn:Ex.
    + assert (He : Qltb 0 e = false)
        by (apply Qltb_ge, (Hlow x); [lia | exact Ex]).
      rewrite (scanBody_sample _ _ _ _ _ Ex), crossUp_eq.
      unfold upFires. rewrite He, andb_false_r.
      rewrite crossDown_eq. unfold downFires. rewrite Hin. simpl.
      unfold stepMs. repeat split; auto; lia.
    + rewrite scanBody_null by exact Ex.
      unfold stepMs. repeat split; auto; lia.
  - intros x s (_ & _ & Hps). exact Hps.
  - apply forLoop_runs; [unfold stepMs; lia | apply Nat.le_refl].
  - unfold scanInit, stepMs. simpl. split; [lia|]. split; [|reflexivity].
    destruct (elevationDeg start) as [e|] eqn:E; [|reflexivity].
    apply Qltb_ge, (Hlow start); [unfold windowEnd; lia | exact E].
Qed.

Lemma scan_never_sets (elevationDeg : Z -> option Q)
    (start nPasses searchHours : Z) :
  (forall t e, start <= t <= windowEnd start searchHours ->
               elevationDeg t = Some e -> (0 < e)%Q) ->
  scanPasses elevationDeg start nPasses searchHours = [].
Proof.
  intro Hhigh. unfold scanPasses.
  eapply (forRuns_inv (windowEnd start searchHours) stepMs
            (scanBody elevationDeg nPasses)
            (fun x s => start <= x /\ passes s = [])
            (fun s => passes s = [])).
  - intros x s Hx (Hsx & Hps).
    destruct (elevationDeg x) as [e|] eqn:Ex.
    + assert (He : Qle_bool e 0 = false)
        by (apply Qle_bool_gt, (Hhigh x); [lia | exact Ex]).
      rewrite (scanBody_sample _ _ _ _ _ Ex), crossDown_eq.
      unfold downFires. rewrite He, andb_false_r.
      rewrite crossUp_eq. unfold stepMs.
      destruct (upFires e s); simpl; split; auto; lia.
    + rewrite scanBody_null by exact Ex.
      unfold stepMs. split; auto; lia.
  - intros x s (_ & Hps). exact Hps.
  - apply forLoop_runs; [unfold stepMs; lia | apply Nat.le_refl].
  - unfold scanInit, stepMs. simpl. split; [lia | reflexivity].
Qed.

(** C5: when the oracle gives no elevation above 0 at any instant of
    the search window, the search ends with the "no passes" status. *)
Theorem never_above_horizon_no_passes (elevationDeg : Z -> option Q)
    (name : string) (start nPasses searchHours : Z) :
  (forall t e, start <= t <= windowEnd start searchHours ->
               elevationDeg t = Some e -> (e <= 0)%Q) ->
  computeNextPasses elevationDeg name start nPasses searchHours
  = NoPassesFound searchHours.
Proof.
  intro Hlow. unfold computeNextPasses.
  rewrite scan_never_rises by exact Hlow. reflexivity.
Qed.

Lemma never_above_horizon_no_passes_witness :
  computeNextPasses (constOracle (-1)) "SAT" 0 5 1 = NoPassesFound 1.
Proof.
  apply (never_above_horizon_no_passes (constOracle (-1)) "SAT" 0 5 1).
  intros t e _ He. inversion He; subst e. discriminate.
Defined.

(** C2, as the code has it: when every elevation the oracle gives in the
    search window is above 0, no downward crossing is seen, the pass
    that is open at the end of the window is dropped, and the search
    ends with the "no passes" status. *)
Theorem always_above_horizon_no_passes (elevationDeg : Z -> option Q)
    (name : string) (start nPasses searchHours : Z) :
  (forall t e, start <= t <= windowEnd start searchHours ->
               elevationDeg t = Some e -> (0 < e)%Q) ->
  computeNextPasses elevationDeg name start nPasses searchHours
  = NoPassesFound searchHours.
Proof.
  intro Hhigh. unfold computeNextPasses.
  rewrite scan_never_sets by exact Hhigh. reflexivity.
Qed.

Lemma always_above_horizon_no_passes_witness :
  computeNextPasses (constOracle 1) "SAT" 0 5 1 = NoPassesFound 1.
Proof.
  apply (always_above_horizon_no_passes (constOracle 1) "SAT" 0 5 1).
  intros t e _ He. inversion He; subst e. reflexivity.
Defined.

(** One degree above the horizon during the whole hour: the search does
    not return one pass from the window start to the window end. *)
Lemma always_above_horizon_not_one_pass :
  (forall t, 0 <= t <= windowEnd 0 1 ->
             exists e, constOracle 1 t = Some e /\ (0 < e)%Q) /\
  ~ (exists p, scanPasses (constOracle 1) 0 5 1 = [p] /\
               aos p = 0 /\ los p = windowEnd 0 1).
Proof.
  split.
  - intros t _. exists 1%Q. split; reflexivity.
  - intros (p & H & _). vm_compute in H. discriminate.
Qed.

(** * The start of the scan *)

(** C7, as the code has it: the flag [inPass] is seeded from the sample
    at the window start.  When that sample has an elevation, the scan
    starts in a pass exactly when it is above 0, and then with the
    window start as AOS.  When it has none, the scan starts outside a
    pass; a later first sample above 0 is an upward crossing whose
    bisection fails, so that the AOS is that sample's time. *)
Theorem scan_seed (elevationDeg : Z -> option Q) (start : Z) :
  (forall e, elevationDeg start = Some e ->
     inPass (scanInit elevationDeg start) = Qltb 0 e /\
     currentAOS (scanInit elevationDeg start)
     = if Qltb 0 e then Some start else None) /\
  (elevationDeg start = None ->
     inPass (scanInit elevationDeg start) = false /\
     currentAOS (scanInit elevationDeg start) = None /\
     forall nPasses t e,
       elevationDeg t = Some e -> (0 < e)%Q ->
       exists s',
         scanBody elevationDeg nPasses t (scanInit elevationDeg start)
         = Continue s' /\
         inPass s' = true /\ currentAOS s' = Some t).
Proof.
  split.
  - intros e He. unfold scanInit. rewrite He. simpl. auto.
  - intro Hnull.
    assert (Hs0 : scanInit elevationDeg start
                  = mkScan start (-999 # 1)%Q false None [])
      by (unfold scanInit; rewrite Hnull; reflexivity).
    rewrite Hs0. simpl. split; [reflexivity|]. split; [reflexivity|].
    intros nPasses t e He Hpos.
    rewrite (scanBody_sample _ _ _ _ _ He), crossUp_eq.
    assert (Hup : upFires e (mkScan start (-999 # 1)%Q false None [])
                  = true)
      by (unfold upFires; simpl; apply Qltb_lt, Hpos).
    rewrite Hup. cbn [prevT prevE passes].
    assert (Hb : bisectCrossingTime elevationDeg start t 0 defaultIters
                 = None)
      by (unfold bisectCrossingTime; rewrite newDate_inject_Z, Hnull;
          reflexivity).
    rewrite Hb, crossDown_eq. simpl. eexists; split; [reflexivity|].
    simpl. auto.
Qed.

(** No elevation at the window start, one degree above the horizon from
    then until 50 s: the first sample with an elevation is above 0, the
    scan has not started in a pass, and the AOS of the pass is 20 s, not
    the window start. *)
Lemma first_valid_sample_is_no_seed :
  lateOracle 0 = None /\ lateOracle 20000 = Some 1%Q /\
  ~ (inPass (scanInit lateOracle 0) = true /\
     currentAOS (scanInit lateOracle 0) = Some 0) /\
  scanPasses lateOracle 0 5 1 = [mkPass 20000 50000 20000 1].
Proof.
  split; [reflexivity|]. split; [reflexivity|]. split.
  - intros [H _]. vm_compute in H. discriminate.
  - vm_compute. reflexivity.
Qed.

(** * The cap on the number of passes *)

Section Cap.

Variable elevationDeg : Z -> option Q.

Lemma scanBody_extends (nPasses x : Z) (s : Scan) :
  exists l,
    match scanBody elevationDeg nPasses x s with
    | Continue s' | Break s' => passes s' = passes s ++ l
    end.
Proof.
  destruct (elevationDeg x) as [e|] eqn:Ex.
  - rewrite (scanBody_sample _ _ _ _ _ Ex), crossDown_eq, crossUp_eq.
    set (s1 := if upFires e s then _ else s).
    assert (HP : passes s1 = passes s)
      by (subst s1; destruct (upFires e s); reflexivity).
    destruct (downFires e s1).
    + destruct (closedPass elevationDeg x s1) as [p|].
      * exists [p]. destruct (_ >=? nPasses); simpl; now rewrite HP.
      * exists []. simpl. now rewrite HP, app_nil_r.
    + exists []. simpl. now rewrite HP, app_nil_r.
  - rewrite scanBody_null by exact Ex. exists []. now rewrite app_nil_r.
Qed.

Lemma scan_extends (nPasses xEnd x : Z) (s r : Scan) :
  forRuns xEnd stepMs (scanBody elevationDeg nPasses) x s r ->
  exists l, passes r = passes s ++ l.
Proof.
  induction 1 as [x s Hx | x s s' Hx Hb | x s s' s'' Hx Hb _ IH].
  - exists []. now rewrite app_nil_r.
  - destruct (scanBody_extends nPasses x s) as (l & Hl).
    rewrite Hb in Hl. eauto.
  - destruct (scanBody_extends nPasses x s) as (l & Hl).
    rewrite Hb in Hl. destruct IH as (l' & Hl').
    exists (l ++ l'). now rewrite Hl', Hl, app_assoc.
Qed.

(** The body under two caps [k] and [n]: it pushes the same pass or
    none, and only the test for [break] differs. *)
Lemma scanBody_two_caps (k n x : Z) (s : Scan) :
  Z.of_nat (List.length (passes s)) < k ->
  match scanBody elevationDeg k x s, scanBody elevationDeg n x s with
  | Continue a, Continue b =>
      a = b /\ Z.of_nat (List.length (passes a)) < k
  | Break a, Continue b | Break a, Break b =>
      passes a = passes b /\ Z.of_nat (List.length (passes a)) = k
  | Continue a, Break b =>
      Z.of_nat (List.length (passes b)) < k
  end.
Proof.
  intro Hlen. destruct (elevationDeg x) as [e|] eqn:Ex.
  - rewrite !(scanBody_sample _ _ _ _ _ Ex), !crossDown_eq, crossUp_eq.
    set (s1 := if upFires e s then _ else s).
    assert (HP : passes s1 = passes s)
      by (subst s1; destruct (upFires e s); reflexivity).
    destruct (downFires e s1); [|simpl; rewrite HP; auto].
    destruct (closedPass elevationDeg x s1) as [p|];
      [|simpl; rewrite HP; auto].
    rewrite HP, length_app. simpl List.length.
    destruct (Z.geb_spec (Z.of_nat (List.length (passes s) + 1)) k),
             (Z.geb_spec (Z.of_nat (List.length (passes s) + 1)) n);
      simpl; rewrite ?length_app; simpl List.length;
      repeat split; try reflexivity; lia.
  - rewrite !scanBody_null by exact Ex. auto.
Qed.

Lemma firstn_exact {A : Type} (l1 l2 : list A) :
  firstn (List.length l1) (l1 ++ l2) = l1.
Proof.
  rewrite firstn_app, Nat.sub_diag, firstn_all. simpl.
  apply app_nil_r.
Qed.

(** A run under the cap [k] yields the first [k] passes of a run under
    another cap that finds at least [k]. *)
Lemma cap_prefix (k n xEnd x : Z) (s rk : Scan) :
  forRuns xEnd stepMs (scanBody elevationDeg k) x s rk ->
  forall rn,
    forRuns xEnd stepMs (scanBody elevationDeg n) x s rn ->
    Z.of_nat (List.length (passes s)) < k ->
    k <= Z.of_nat (List.length (passes rn)) ->
    passes rk = firstn (Z.to_nat k) (passes rn).
Proof.
  induction 1 as [x s Hx | x s a Hx Hb | x s a rk Hx Hb _ IH];
    intros rn Hn Hlen Hk.
  - inversion Hn; subst; lia.
  - pose proof (scanBody_two_caps k n x s Hlen) as H2. rewrite Hb in H2.
    inversion Hn as [? ? Hx' | ? ? b Hx' Hb' | ? ? b ? Hx' Hb' Hrun];
      subst; [lia | |]; rewrite Hb' in H2; destruct H2 as [Hp Hl].
    + rewrite <- Hp, <- Hl, Nat2Z.id. symmetry. apply firstn_all.
    + destruct (scan_extends _ _ _ _ _ Hrun) as (l & Hl').
      rewrite Hl', <- Hp, <- Hl, Nat2Z.id. symmetry. apply firstn_exact.
  - pose proof (scanBody_two_caps k n x s Hlen) as H2. rewrite Hb in H2.
    inversion Hn as [? ? Hx' | ? ? b Hx' Hb' | ? ? b ? Hx' Hb' Hrun];
      subst; [lia | |]; rewrite Hb' in H2.
    + lia.
    + destruct H2 as [-> Hl]. apply IH; assumption.
Qed.

End Cap.

(** Passes that do not overlap and are not empty have ascending AOS. *)
Definition ascendingAOS (ps : list Pass) : Prop :=
  StronglySorted (fun p q => aos p < aos q) ps.

Lemma passesOK_ascending (elevationDeg : Z -> option Q) (start end_ : Z)
    (ps : list Pass) :
  passesOK elevationDeg start end_ ps -> ascendingAOS ps.
Proof.
  intros [Hgood Hord]. unfold ascendingAOS, inOrder in *.
  induction Hord as [|p ps Hs IH Hp]; constructor.
  - apply IH. now inversion Hgood.
  - inversion Hgood as [|? ? Hg _]; subst.
    destruct Hg as (_ & Hlt & _).
    rewrite Forall_forall in *. intros q Hq. specialize (Hp q Hq). lia.
Qed.

(** Up for 100 s, down for 100 s, and so on: eighteen passes an hour. *)
Definition waveOracle : Z -> option Q :=
  fun t => if (t / 100000) mod 2 =? 1 then Some 1%Q else Some (-1)%Q.



(** * One step of the scan, by cases *)

Section Steps.

Variable elevationDeg : Z -> option Q.
Variable nPasses : Z.

Local Notation "'bisect' t0 t1" :=
  (bisectCrossingTime elevationDeg t0 t1 0 defaultIters)
  (at level 10, t0 at level 9, t1 at level 9).

Lemma Qle_bool_negb (e : Q) : Qle_bool e 0 = negb (Qltb 0 e).
Proof. unfold Qltb. now rewrite negb_involutive. Qed.

(** The sample is on the same side of the horizon as the previous one. *)
Lemma step_quiet (x : Z) (e : Q) (pt : Z) (pe : Q) (ip : bool)
    (ca : option Z) (ps : list Pass) :
  elevationDeg x = Some e -> ip = Qltb 0 pe -> Qltb 0 e = Qltb 0 pe ->
  scanBody elevationDeg nPasses x (mkScan pt pe ip ca ps)
  = Continue (mkScan x e ip ca ps).
Proof.
  intros Hx -> He.
  rewrite (scanBody_sample _ _ _ _ _ Hx), crossUp_eq, crossDown_eq.
  unfold upFires, downFires. cbn [inPass prevE].
  rewrite !Qle_bool_negb, He.
  destruct (Qltb 0 pe) eqn:P; cbn; rewrite ?P; reflexivity.
Qed.

(** The sample is above the horizon, the previous one was not. *)
Lemma step_up (x : Z) (e : Q) (pt : Z) (pe : Q) (ca : option Z)
    (ps : list Pass) :
  elevationDeg x = Some e -> Qltb 0 pe = false -> Qltb 0 e = true ->
  scanBody elevationDeg nPasses x (mkScan pt pe false ca ps)
  = Continue (mkScan x e true (Some (orDate (bisect pt x) x)) ps).
Proof.
  intros Hx Hpe He.
  rewrite (scanBody_sample _ _ _ _ _ Hx), crossUp_eq, crossDown_eq.
  unfold upFires, downFires. cbn [inPass prevE].
  rewrite !Qle_bool_negb, He, Hpe. cbn. rewrite Hpe. reflexivity.
Qed.

End Steps.


(** * The window end on binary64 numbers *)

(** A whole number of milliseconds up to [2^53] is computed exactly. *)
Lemma round64_Z (x : Q) (n : Z) :
  (x == inject_Z n)%Q -> Z.abs n <= 2 ^ 53 -> (round64 x == inject_Z n)%Q.
Proof.
  intros Hx Hn. eapply Qeq_trans; [apply round64_exact | exact Hx].
  apply (F64_comp (inject_Z n)); [symmetry; exact Hx|].
  apply F64_inject_Z, Hn.
Qed.

(** For a window from 1970 on that ends on a valid date, the window end
    is computed exactly. *)
Lemma windowEnd64_exact (start searchHours : Z) :
  0 <= start -> 0 <= searchHours ->
  windowEnd start searchHours <= maxDate ->
  windowEnd64 start searchHours = Some (windowEnd start searchHours).
Proof.
  unfold windowEnd, maxDate. intros Hs Hh Hend.
  assert (H1 : (round64 (inject_Z searchHours * 3600)
                == inject_Z (searchHours * 3600))%Q).
  { apply round64_Z; [rewrite inject_Z_mult; reflexivity | lia]. }
  assert (H2 : (round64 (round64 (inject_Z searchHours * 3600) * 1000)
                == inject_Z (searchHours * 3600 * 1000))%Q).
  { apply round64_Z; [|lia].
    rewrite H1, (inject_Z_mult (searchHours * 3600)). reflexivity. }
  assert (H3 : (round64
                  (inject_Z start
                   + round64 (round64 (inject_Z searchHours * 3600) * 1000))
                == inject_Z (start + searchHours * 3600 * 1000))%Q).
  { apply round64_Z; [|lia]. rewrite H2, <- inject_Z_plus. reflexivity. }
  unfold windowEnd64, timeClip.
  set (v := round64 (inject_Z start + _)) in *.
  assert (Hb : Qle_bool (Qabs v) (inject_Z 8640000000000000) = true).
  { apply Qle_bool_iff. rewrite H3.
    change (Qabs (inject_Z (start + searchHours * 3600 * 1000)))
      with (inject_Z (Z.abs (start + searchHours * 3600 * 1000))).
    rewrite <- Zle_Qle. lia. }
  change (inject_Z maxDate) with (inject_Z 8640000000000000).
  rewrite Hb, (newDate_comp _ _ H3), newDate_inject_Z. reflexivity.
Qed.

(** * One step of the scan with the binary64 bisection *)

Section Steps64.

Variable elevationDeg : Z -> option Q.
Variable nPasses : Z.

Local Notation "'bisect' t0 t1" :=
  (bisectCrossingTime64 elevationDeg t0 t1 0 defaultIters)
  (at level 10, t0 at level 9, t1 at level 9).
Local Notation "'peak'" := (findMaxElevation elevationDeg).

(** The pass that lines 200-211 push at the sample [t], if any. *)
Definition closedPass64 (t : Z) (s : Scan) : option Pass :=
  match currentAOS s with
  | Some a =>
      let finalLOS := orDate (bisect (prevT s) t) t in
      if a <? finalLOS
      then Some (mkPass a finalLOS (peakT (peak a finalLOS))
                   (peakElev (peak a finalLOS)))
      else None
  | None => None
  end.

Lemma crossUp64_eq (t : Z) (e : Q) (s : Scan) :
  crossUp64 elevationDeg t e s =
  if upFires e s
  then mkScan (prevT s) (prevE s) true
         (Some (orDate (bisect (prevT s) t) t)) (passes s)
  else s.
Proof. reflexivity. Qed.

Lemma crossDown64_eq (t : Z) (e : Q) (s : Scan) :
  crossDown64 elevationDeg nPasses t e s =
  if downFires e s then
    match closedPass64 t s with
    | Some p =>
        if Z.of_nat (List.length (passes s ++ [p])) >=? nPasses
        then Break (mkScan (prevT s) (prevE s) false (currentAOS s)
                      (passes s ++ [p]))
        else Continue (mkScan (prevT s) (prevE s) false None
                         (passes s ++ [p]))
    | None => Continue (mkScan (prevT s) (prevE s) false None (passes s))
    end
  else Continue s.
Proof.
  unfold crossDown64, downFires, closedPass64.
  destruct (inPass s && Qltb 0 (prevE s) && Qle_bool e 0); [|reflexivity].
  destruct (currentAOS s) as [a|]; [|reflexivity].
  destruct (a <? _); reflexivity.
Qed.

Lemma scanBody64_null (tMs : Z) (s : Scan) :
  elevationDeg tMs = None ->
  scanBody64 elevationDeg nPasses tMs s = Continue s.
Proof.
  intro H. unfold scanBody64. rewrite newDate_inject_Z, H. reflexivity.
Qed.

Lemma scanBody64_sample (tMs : Z) (e : Q) (s : Scan) :
  elevationDeg tMs = Some e ->
  scanBody64 elevationDeg nPasses tMs s =
  match crossDown64 elevationDeg nPasses tMs e
          (crossUp64 elevationDeg tMs e s) with
  | Break s' => Break s'
  | Continue s' =>
      Continue (mkScan tMs e (inPass s') (currentAOS s') (passes s'))
  end.
Proof.
  intro H. unfold scanBody64. rewrite newDate_inject_Z, H. reflexivity.
Qed.

(** One iteration on a sample with an elevation, once the flag [inPass]
    says on which side of the horizon the previous sample was. *)
Lemma scanBody64_by_sides (x : Z) (e : Q) (pt : Z) (pe : Q)
    (ca : option Z) (ps : list Pass) :
  elevationDeg x = Some e ->
  scanBody64 elevationDeg nPasses x (mkScan pt pe (Qltb 0 pe) ca ps)
  = if Bool.eqb (Qltb 0 pe) (Qltb 0 e)
    then Continue (mkScan x e (Qltb 0 pe) ca ps)
    else if Qltb 0 e
    then Continue (mkScan x e true (Some (orDate (bisect pt x) x)) ps)
    else match closedPass64 x (mkScan pt pe true ca ps) with
         | Some p =>
             if Z.of_nat (List.length (ps ++ [p])) >=? nPasses
             then Break (mkScan pt pe false ca (ps ++ [p]))
             else Continue (mkScan x e false None (ps ++ [p]))
         | None => Continue (mkScan x e false None ps)
         end.
Proof.
  intro Hx.
  rewrite (scanBody64_sample _ _ _ Hx), crossUp64_eq, crossDown64_eq.
  unfold upFires, downFires. cbn [inPass prevE].
  rewrite !Qle_bool_negb.
  destruct (Qltb 0 pe) eqn:P0, (Qltb 0 e) eqn:P1;
    cbn [Bool.eqb negb andb inPass prevE prevT currentAOS passes];
    rewrite ?P0; cbn [negb andb inPass prevE prevT currentAOS passes];
    try reflexivity.
  destruct (closedPass64 x (mkScan pt pe true ca ps));
    [destruct (_ >=? nPasses)|]; reflexivity.
Qed.

(** The sample is on the same side of the horizon as the previous one. *)
Lemma step_quiet64 (x : Z) (e : Q) (pt : Z) (pe : Q) (ip : bool)
    (ca : option Z) (ps : list Pass) :
  elevationDeg x = Some e -> ip = Qltb 0 pe -> Qltb 0 e = Qltb 0 pe ->
  scanBody64 elevationDeg nPasses x (mkScan pt pe ip ca ps)
  = Continue (mkScan x e ip ca ps).
Proof.
  intros Hx -> He. rewrite (scanBody64_by_sides _ _ _ _ _ _ Hx), He.
  now rewrite Bool.eqb_reflx.
Qed.

(** The sample is above the horizon, the previous one was not. *)
Lemma step_up64 (x : Z) (e : Q) (pt : Z) (pe : Q) (ca : option Z)
    (ps : list Pass) :
  elevationDeg x = Some e -> Qltb 0 pe = false -> Qltb 0 e = true ->
  scanBody64 elevationDeg nPasses x (mkScan pt pe false ca ps)
  = Continue (mkScan x e true (Some (orDate (bisect pt x) x)) ps).
Proof.
  intros Hx Hpe He. rewrite <- Hpe at 1.
  rewrite (scanBody64_by_sides _ _ _ _ _ _ Hx), He, Hpe. reflexivity.
Qed.

(** The sample is not above the horizon, the previous one was. *)
Lemma step_down64 (x : Z) (e : Q) (pt : Z) (pe : Q) (a : Z)
    (ps : list Pass) :
  elevationDeg x = Some e -> Qltb 0 pe = true -> Qltb 0 e = false ->
  a < orDate (bisect pt x) x ->
  scanBody64 elevationDeg nPasses x (mkScan pt pe true (Some a) ps)
  = let finalLOS := orDate (bisect pt x) x in
    let pk := findMaxElevation elevationDeg a finalLOS in
    let ps' := ps ++ [mkPass a finalLOS (peakT pk) (peakElev pk)] in
    if Z.of_nat (List.length ps') >=? nPasses
    then Break (mkScan pt pe false (Some a) ps')
    else Continue (mkScan x e false None ps').
Proof.
  intros Hx Hpe He Ha. rewrite <- Hpe at 1.
  rewrite (scanBody64_by_sides _ _ _ _ _ _ Hx), He, Hpe.
  cbn [Bool.eqb]. unfold closedPass64. cbn [currentAOS prevT].
  destruct (Z.ltb_spec a (orDate (bisect pt x) x)) as [_|]; [|lia].
  cbv zeta. destruct (_ >=? nPasses); reflexivity.
Qed.

(** An iteration only appends to the list of passes. *)
Lemma scanBody64_extends (x : Z) (s : Scan) :
  exists l,
    match scanBody64 elevationDeg nPasses x s with
    | Continue s' | Break s' => passes s' = passes s ++ l
    end.
Proof.
  destruct (elevationDeg x) as [e|] eqn:Ex.
  - rewrite (scanBody64_sample _ _ _ Ex), crossDown64_eq, crossUp64_eq.
    set (s1 := if upFires e s then _ else s).
    assert (HP : passes s1 = passes s)
      by (subst s1; destruct (upFires e s); reflexivity).
    destruct (downFires e s1).
    + destruct (closedPass64 x s1) as [p|].
      * exists [p]. destruct (_ >=? nPasses); cbn [passes]; now rewrite HP.
      * exists []. cbn [passes]. now rewrite HP, app_nil_r.
    + exists []. cbn [passes]. now rewrite HP, app_nil_r.
  - rewrite scanBody64_null by exact Ex. exists []. now rewrite app_nil_r.
Qed.

(** Between two coarse samples before September 2039, with an elevation
    at every instant, the refined time is before the later sample. *)
Lemma bisect64_coarse (x : Z) :
  stepMs <= x -> x <= 2 ^ 41 ->
  (forall t, x - stepMs <= t <= x -> elevationDeg t <> None) ->
  exists r, bisect (x - stepMs) x = Some r /\ x - stepMs <= r < x.
Proof.
  intros H0 H1 Hvalid.
  apply bisect64_refines; try assumption.
  - unfold stepMs in *. lia.
  - replace (x - (x - stepMs)) with stepMs by ring.
    vm_compute. discriminate.
Qed.

End Steps64.

(** * Every other coarse sample missing *)

(** [gappy start O] has no elevation at the first, third, fifth, ...
    coarse sample after [start] and agrees with [O] at every other
    instant. *)
Definition gappy (start : Z) (O : Z -> option Q) : Z -> option Q :=
  fun t =>
    if (start <? t) && ((t - start) mod (2 * stepMs) =? stepMs)
    then None
    else O t.

(** The instants of the samples that [gappy] takes away. *)
Definition oddTick (start x : Z) : Prop :=
  exists j, 0 <= j /\ x = start + stepMs * (2 * j + 1).

(** Is the satellite above the horizon at [t]? *)
Definition aboveAt (O : Z -> option Q) (t : Z) : bool :=
  match O t with
  | Some e => Qltb 0 e
  | None => false
  end.

(** No stay above or below the horizon is seen at one missing sample
    only: when the samples before and after a missing one are on the
    same side of the horizon, so is the missing one. *)
Definition noLoneRegion (O : Z -> option Q) (start end_ : Z) : Prop :=
  forall x, oddTick start x -> x + stepMs <= end_ ->
    aboveAt O (x - stepMs) = aboveAt O (x + stepMs) ->
    aboveAt O x = aboveAt O (x - stepMs).

(** A pass in progress at the window start lasts to the first coarse
    sample. *)
Definition staysUpAtStart (O : Z -> option Q) (start : Z) : Prop :=
  aboveAt O start = true -> aboveAt O (start + stepMs) = true.

(** The pass [p'] has its AOS and its LOS at or after those of [p], by
    at most two coarse steps. *)
Definition closePass (p p' : Pass) : Prop :=
  aos p <= aos p' <= aos p + 2 * stepMs /\
  los p <= los p' <= los p + 2 * stepMs.

(** Two iterations of a loop body. *)
Definition twoSteps {S : Type} (step : Z) (body : Z -> S -> LoopCtl S)
    (x : Z) (s : S) : LoopCtl S :=
  match body x s with
  | Break r => Break r
  | Continue s1 => body (x + step) s1
  end.

Lemma forLoop_two {S : Type} (fuel : nat) (xEnd step : Z)
    (body : Z -> S -> LoopCtl S) (x : Z) (s : S) :
  0 < step -> x + step <= xEnd ->
  forLoop (Datatypes.S (Datatypes.S fuel)) xEnd step body x s
  = match twoSteps step body x s with
    | Break r => r
    | Continue s2 => forLoop fuel xEnd step body (x + step + step) s2
    end.
Proof.
  intros Hstep Hx. unfold twoSteps. cbn [forLoop].
  destruct (Z.leb_spec x xEnd) as [_|]; [|lia].
  destruct (body x s) as [s1|r]; [|reflexivity].
  destruct (Z.leb_spec (x + step) xEnd) as [_|]; [|lia].
  reflexivity.
Qed.

Section Gappy64.

Variable O : Z -> option Q.
Variable start nPasses searchHours : Z.

Local Notation "'end_'" := (windowEnd start searchHours).
Local Notation "'O''" := (gappy start O).

Hypothesis start_after_1970 : 0 <= start.
Hypothesis before_2039 : end_ <= 2 ^ 41.
Hypothesis O_everywhere :
  forall t, start <= t <= end_ -> O t <> None.
Hypothesis O_regions : noLoneRegion O start end_.
Hypothesis O_start : staysUpAtStart O start.

Lemma stepMs_pos : 0 < stepMs.
Proof. reflexivity. Qed.

Lemma gappy_at_odd (x : Z) : oddTick start x -> O' x = None.
Proof.
  intros (j & Hj & ->). unfold gappy.
  pose proof stepMs_pos as Hs.
  destruct (Z.ltb_spec start (start + stepMs * (2 * j + 1))) as [_|]; [|nia].
  replace (start + stepMs * (2 * j + 1) - start)
    with (stepMs + j * (2 * stepMs)) by ring.
  rewrite Z_mod_plus_full. reflexivity.
Qed.

Lemma gappy_after_odd (x : Z) :
  oddTick start x -> O' (x + stepMs) = O (x + stepMs).
Proof.
  intros (j & Hj & ->). unfold gappy.
  replace (start + stepMs * (2 * j + 1) + stepMs - start)
    with (0 + (j + 1) * (2 * stepMs)) by ring.
  rewrite Z_mod_plus_full, andb_false_r. reflexivity.
Qed.

Lemma gappy_before_odd (x : Z) :
  oddTick start x -> O' (x - stepMs) = O (x - stepMs).
Proof.
  intros (j & Hj & ->). unfold gappy.
  replace (start + stepMs * (2 * j + 1) - stepMs - start)
    with (0 + j * (2 * stepMs)) by ring.
  rewrite Z_mod_plus_full, andb_false_r. reflexivity.
Qed.

(** Across a missing sample the bisection fails at its first midpoint,
    which is that sample: the sum of the two bounds is exact. *)
Lemma gappy_bisect_null (x : Z) :
  oddTick start x -> x + stepMs <= end_ ->
  bisectCrossingTime64 O' (x - stepMs) (x + stepMs) 0 defaultIters = None.
Proof.
  intros Hodd Hend. unfold bisectCrossingTime64. rewrite !newDate_inject_Z.
  destruct (O' (x - stepMs)) as [ea|]; [|reflexivity].
  destruct (O' (x + stepMs)) as [eb|]; [|reflexivity].
  unfold defaultIters. cbn [bisectLoop64]. unfold bisectStep64. cbn [bA bB].
  assert (Hx : 0 <= x <= 2 ^ 41).
  { destruct Hodd as (j & Hj & ->). unfold stepMs in *. lia. }
  assert (Hsum : (inject_Z (x - stepMs) + inject_Z (x + stepMs)
                  == inject_Z (2 * x))%Q).
  { rewrite <- inject_Z_plus. apply inject_Z_injective. ring. }
  assert (Hs : (round64 (inject_Z (x - stepMs) + inject_Z (x + stepMs))
                == inject_Z (2 * x))%Q).
  { eapply Qeq_trans; [apply round64_exact | exact Hsum].
    apply (F64_comp (inject_Z (2 * x))); [symmetry; exact Hsum|].
    apply F64_inject_Z. lia. }
  assert (Hh : (round64 (inject_Z (x - stepMs) + inject_Z (x + stepMs)) / 2
                == inject_Z x)%Q).
  { rewrite Hs, inject_Z_mult. change (inject_Z 2) with 2%Q. field. }
  assert (Hm : newDate (midpoint64 (inject_Z (x - stepMs))
                          (inject_Z (x + stepMs))) = x).
  { transitivity (newDate (inject_Z x)); [|apply newDate_inject_Z].
    apply newDate_comp. unfold midpoint64.
    eapply Qeq_trans; [apply round64_exact | exact Hh].
    apply (F64_comp (inject_Z x)); [symmetry; exact Hh|].
    apply F64_inject_Z. lia. }
  rewrite Hm, (gappy_at_odd x Hodd). reflexivity.
Qed.

(** The two scans before a missing sample [x]: the same previous sample
    and the same flag, as many passes, pairwise close, and an open pass
    with close AOS. *)
Definition paired (x : Z) (s s' : Scan) : Prop :=
  prevT s = x - stepMs /\ prevT s' = x - stepMs /\
  prevE s' = prevE s /\ O (prevT s) = Some (prevE s) /\
  inPass s = Qltb 0 (prevE s) /\ inPass s' = Qltb 0 (prevE s) /\
  Forall2 closePass (passes s) (passes s') /\
  (inPass s = true ->
   exists a a',
     currentAOS s = Some a /\ currentAOS s' = Some a' /\
     a <= a' <= a + 2 * stepMs /\ a' <= prevT s /\
     (a < prevT s \/ prevT s = start)).

Lemma paired_intro (x t : Z) (e : Q) (ip : bool) (ca ca' : option Z)
    (ps ps' : list Pass) :
  t = x - stepMs -> O t = Some e -> ip = Qltb 0 e ->
  Forall2 closePass ps ps' ->
  (ip = true ->
   exists a a',
     ca = Some a /\ ca' = Some a' /\
     a <= a' <= a + 2 * stepMs /\ a' <= t /\ (a < t \/ t = start)) ->
  paired x (mkScan t e ip ca ps) (mkScan t e ip ca' ps').
Proof.
  intros Ht Ho Hip HP HA. unfold paired.
  cbn [prevT prevE inPass currentAOS passes].
  do 6 (split; [assumption || reflexivity|]). split; assumption.
Qed.

Lemma closePass_snoc (ps ps' : list Pass) (p p' : Pass) :
  Forall2 closePass ps ps' -> closePass p p' ->
  Forall2 closePass (ps ++ [p]) (ps' ++ [p']).
Proof.
  intros HP Hp. apply Forall2_app; [exact HP|].
  constructor; [exact Hp | constructor].
Qed.

Local Ltac open_pass a a' :=
  intros _; exists a, a';
  split; [reflexivity|]; split; [reflexivity|];
  split; [lia|]; split; [lia|]; left; lia.

Lemma pair_step (x : Z) (s s' : Scan) :
  oddTick start x -> x + stepMs <= end_ -> paired x s s' ->
  match twoSteps stepMs (scanBody64 O nPasses) x s,
        twoSteps stepMs (scanBody64 O' nPasses) x s' with
  | Continue s2, Continue s2' => paired (x + stepMs + stepMs) s2 s2'
  | Break r, Break r' => Forall2 closePass (passes r) (passes r')
  | _, _ => False
  end.
Proof.
  intros Hodd Hend Hp. pose proof stepMs_pos as Hs.
  assert (Hx0 : start + stepMs <= x)
    by (destruct Hodd as (j & Hj & ->); nia).
  destruct s as [pt pe ip ca ps], s' as [pt' pe' ip' ca' ps'].
  destruct Hp as (HT & HT' & HE' & HO & HI & HI' & HP & HA).
  cbn [prevT prevE inPass currentAOS passes]
    in HT, HT', HE', HO, HI, HI', HP, HA.
  subst pt pt' pe' ip ip'.
  destruct (O x) as [e1|] eqn:E1;
    [|exfalso; apply (O_everywhere x); [lia | exact E1]].
  destruct (O (x + stepMs)) as [e2|] eqn:E2;
    [|exfalso; apply (O_everywhere (x + stepMs)); [lia | exact E2]].
  pose proof (gappy_at_odd x Hodd) as G1.
  pose proof (gappy_after_odd x Hodd) as G2. rewrite E2 in G2.
  destruct (bisect64_coarse O x) as (r1 & Hr1 & Hb1);
    [lia | lia | intros; apply O_everywhere; lia |].
  destruct (bisect64_coarse O (x + stepMs)) as (r2 & Hr2 & Hb2);
    [lia | lia | intros; apply O_everywhere; lia |].
  replace (x + stepMs - stepMs) with x in Hr2, Hb2 by ring.
  pose proof (gappy_bisect_null x Hodd Hend) as Hg.
  pose proof (O_regions x Hodd Hend) as Hreg.
  unfold aboveAt in Hreg. rewrite HO, E1, E2 in Hreg.
  assert (Hedge : Qltb 0 pe = true -> Qltb 0 e1 = false ->
                  x - stepMs <> start).
  { intros P0 P1 Heq. pose proof O_start as H.
    unfold staysUpAtStart, aboveAt in H. rewrite <- Heq in H.
    replace (x - stepMs + stepMs) with x in H by lia.
    rewrite HO, E1, P0, P1 in H. specialize (H eq_refl). discriminate. }
  pose proof (Forall2_length HP) as Hlen.
  unfold twoSteps. rewrite (scanBody64_null O' nPasses x _ G1).
  destruct (Qltb 0 pe) eqn:P0, (Qltb 0 e1) eqn:P1, (Qltb 0 e2) eqn:P2.
  - (* up, up, up *)
    destruct (HA eq_refl) as (a & a' & -> & -> & Haa & Ha' & Hstrict).
    rewrite (step_quiet64 O nPasses x e1 _ _ _ _ _ E1) by congruence.
    rewrite (step_quiet64 O nPasses (x + stepMs) e2 _ _ _ _ _ E2)
      by congruence.
    rewrite (step_quiet64 O' nPasses (x + stepMs) e2 _ _ _ _ _ G2)
      by congruence.
    apply paired_intro; [lia | exact E2 | congruence | exact HP |].
    open_pass a a'.
  - (* up, up, down: LOS after the missing sample *)
    destruct (HA eq_refl) as (a & a' & -> & -> & Haa & Ha' & Hstrict).
    rewrite (step_quiet64 O nPasses x e1 _ _ _ _ _ E1) by congruence.
    rewrite (step_down64 O nPasses (x + stepMs) e2 x e1 a ps E2 P1 P2)
      by (rewrite Hr2; simpl; lia).
    rewrite (step_down64 O' nPasses (x + stepMs) e2 (x - stepMs) pe a' ps'
               G2 P0 P2)
      by (rewrite Hg; simpl; lia).
    cbv zeta. rewrite Hr2, Hg. cbn [orDate].
    rewrite !length_app, Hlen.
    destruct (_ >=? nPasses).
    + cbn [passes]. apply closePass_snoc; [exact HP|].
      unfold closePass; cbn [aos los]; lia.
    + apply paired_intro; [lia | exact E2 | congruence | | discriminate].
      apply closePass_snoc; [exact HP|]. unfold closePass; cbn [aos los]; lia.
  - (* up, down, up: excluded *)
    specialize (Hreg eq_refl). discriminate.
  - (* up, down, down: LOS before the missing sample *)
    destruct (HA eq_refl) as (a & a' & -> & -> & Haa & Ha' & Hstrict).
    specialize (Hedge eq_refl eq_refl).
    rewrite (step_down64 O nPasses x e1 (x - stepMs) pe a ps E1 P0 P1)
      by (rewrite Hr1; simpl; lia).
    rewrite (step_down64 O' nPasses (x + stepMs) e2 (x - stepMs) pe a' ps'
               G2 P0 P2)
      by (rewrite Hg; simpl; lia).
    cbv zeta. rewrite Hr1, Hg. cbn [orDate].
    rewrite !length_app, Hlen.
    destruct (_ >=? nPasses).
    + cbn [passes]. apply closePass_snoc; [exact HP|].
      unfold closePass; cbn [aos los]; lia.
    + rewrite (step_quiet64 O nPasses (x + stepMs) e2 _ _ _ _ _ E2)
        by congruence.
      apply paired_intro; [lia | exact E2 | congruence | | discriminate].
      apply closePass_snoc; [exact HP|]. unfold closePass; cbn [aos los]; lia.
  - (* down, up, up: AOS before the missing sample *)
    rewrite (step_up64 O nPasses x e1 _ _ _ _ E1 P0 P1).
    rewrite (step_quiet64 O nPasses (x + stepMs) e2 _ _ _ _ _ E2)
      by congruence.
    rewrite (step_up64 O' nPasses (x + stepMs) e2 _ _ _ _ G2 P0 P2).
    rewrite Hr1, Hg. cbn [orDate].
    apply paired_intro; [lia | exact E2 | congruence | exact HP |].
    open_pass r1 (x + stepMs).
  - (* down, up, down: excluded *)
    specialize (Hreg eq_refl). discriminate.
  - (* down, down, up: AOS after the missing sample *)
    rewrite (step_quiet64 O nPasses x e1 _ _ _ _ _ E1) by congruence.
    rewrite (step_up64 O nPasses (x + stepMs) e2 _ _ _ _ E2 P1 P2).
    rewrite (step_up64 O' nPasses (x + stepMs) e2 _ _ _ _ G2 P0 P2).
    rewrite Hr2, Hg. cbn [orDate].
    apply paired_intro; [lia | exact E2 | congruence | exact HP |].
    open_pass r2 (x + stepMs).
  - (* down, down, down *)
    rewrite (step_quiet64 O nPasses x e1 _ _ _ _ _ E1) by congruence.
    rewrite (step_quiet64 O nPasses (x + stepMs) e2 _ _ _ _ _ E2)
      by congruence.
    rewrite (step_quiet64 O' nPasses (x + stepMs) e2 _ _ _ _ _ G2)
      by congruence.
    apply paired_intro;
      [lia | exact E2 | congruence | exact HP | discriminate].
Qed.

Lemma oddTick_next (x : Z) :
  oddTick start x -> oddTick start (x + stepMs + stepMs).
Proof.
  intros (j & Hj & ->). exists (j + 1). split; [lia | ring].
Qed.

(** The two scans, two coarse samples at a time. *)
Lemma lockstep (m : nat) (x : Z) (s s' : Scan) :
  oddTick start x ->
  x + stepMs * (2 * Z.of_nat m - 1) = end_ ->
  paired x s s' ->
  Forall2 closePass
    (passes (forLoop (2 * m) end_ stepMs (scanBody64 O nPasses) x s))
    (passes (forLoop (2 * m) end_ stepMs (scanBody64 O' nPasses) x s')).
Proof.
  revert x s s'. induction m as [|m IH]; intros x s s' Hodd Hend Hp.
  - simpl. apply Hp.
  - replace (2 * S m)%nat with (S (S (2 * m))) by lia.
    pose proof stepMs_pos as Hs.
    assert (Hx : x + stepMs <= end_) by (rewrite <- Hend; nia).
    rewrite !forLoop_two by assumption.
    pose proof (pair_step x s s' Hodd Hx Hp) as Hstep.
    destruct (twoSteps stepMs (scanBody64 O nPasses) x s) as [s2|r],
             (twoSteps stepMs (scanBody64 O' nPasses) x s') as [s2'|r'];
      try contradiction.
    + apply IH; [apply oddTick_next, Hodd | | exact Hstep].
      rewrite <- Hend, Nat2Z.inj_succ. ring.
    + exact Hstep.
Qed.

Lemma scan_fuel :
  0 <= searchHours ->
  loopFuel (start + stepMs) end_ stepMs
  = (2 * Z.to_nat (90 * searchHours))%nat.
Proof.
  intro Hh. unfold loopFuel, windowEnd, stepMs.
  replace (start + searchHours * 3600 * 1000 - (start + 20 * 1000))
    with ((180 * searchHours - 1) * (20 * 1000)) by ring.
  rewrite Z_div_mult by lia. lia.
Qed.

Lemma gappy_scan_close :
  0 <= searchHours ->
  Forall2 closePass
    (scanPasses64 O start nPasses searchHours)
    (scanPasses64 O' start nPasses searchHours).
Proof.
  intro Hh. unfold scanPasses64.
  rewrite !windowEnd64_exact
    by (try assumption; unfold maxDate; pose proof before_2039; lia).
  rewrite scan_fuel by exact Hh.
  assert (Hstart : start <= end_) by (unfold windowEnd; lia).
  destruct (O start) as [e0|] eqn:E0;
    [|exfalso; apply (O_everywhere start); [lia | exact E0]].
  assert (G0 : O' start = Some e0).
  { unfold gappy. rewrite Z.ltb_irrefl. exact E0. }
  apply lockstep.
  - exists 0. split; [lia | ring].
  - unfold windowEnd, stepMs. rewrite Z2Nat.id by lia. ring.
  - unfold scanInit. rewrite E0, G0.
    apply paired_intro;
      [lia | exact E0 | reflexivity | constructor |].
    intro Hup. rewrite Hup. exists start, start.
    pose proof stepMs_pos.
    split; [reflexivity|]. split; [reflexivity|].
    split; [lia|]. split; [lia|]. now right.
Qed.

End Gappy64.

(** The satellite is up from 30 s to 90 s after the window start. *)
Lemma boxOracle_regions (start : Z) :
  noLoneRegion (boxOracle (start + 30000) (start + 90000)) start
    (windowEnd start 1).
Proof.
  intros x (j & Hj & ->) Hend. unfold aboveAt, boxOracle, stepMs.
  repeat match goal with
         | |- context [Z.leb ?a ?b] => destruct (Z.leb_spec a b)
         end;
    cbn [andb Qltb Qle_bool negb]; intros;
    try reflexivity; try discriminate; lia.
Qed.




(** The date bound is needed.  At 8 * 10^15 ms the binary64 numbers are
    one millisecond apart: with the satellite above the horizon at the
    coarse sample at 40 s only, the refined AOS and the refined LOS are
    both that sample and no pass is pushed, while the search without the
    odd samples falls back to the coarse times and finds one. *)
Lemma scan64_late_date :
  noLoneRegion (boxOracle 8000000000040000 8000000000040000)
    8000000000000000 (windowEnd 8000000000000000 1) /\
  scanPasses64 (boxOracle 8000000000040000 8000000000040000)
    8000000000000000 5 1 = [] /\
  scanPasses64
    (gappy 8000000000000000 (boxOracle 8000000000040000 8000000000040000))
    8000000000000000 5 1
  = [mkPass 8000000000040000 8000000000080000 8000000000040000 1] /\
  computeNextPasses64 (boxOracle 8000000000040000 8000000000040000) "SAT"
    8000000000000000 5 1 = NoPassesFound 1.
Proof.
  split.
  - intros x (j & Hj & ->) Hend. unfold aboveAt, boxOracle, stepMs.
    repeat match goal with
           | |- context [Z.leb ?a ?b] => destruct (Z.leb_spec a b)
           end;
      cbn [andb Qltb Qle_bool negb]; intros;
      try reflexivity; try discriminate; lia.
  - split; [vm_compute; reflexivity|].
    split; vm_compute; reflexivity.
Qed.

(** * Further properties of the bisection *)

(** With an elevation at every instant of a bracket [t0 < t1] between
    1970 and [2^41] ms (7 September 2039) that is at least
    [2^iters / 2048] ms wide (16.384 s for the 25 iterations), the
    binary64 bisection never returns [null], and the time it returns is
    in the bracket and strictly before [t1]: a refined time differs from
    the coarse time [t1] that the scan falls back to. *)
Theorem bisect64_succeeds_before_end (elevationDeg : Z -> option Q)
    (t0 t1 : Z) (targetElevDeg : Q) (iters : nat) :
  0 <= t0 < t1 -> t1 <= 2 ^ 41 ->
  2 ^ Z.of_nat iters <= 2048 * (t1 - t0) ->
  (forall t, t0 <= t <= t1 -> elevationDeg t <> None) ->
  exists r,
    bisectCrossingTime64 elevationDeg t0 t1 targetElevDeg iters = Some r /\
    t0 <= r < t1.
Proof. apply bisect64_refines. Qed.

Lemma bisect64_succeeds_before_end_witness :
  exists r,
    bisectCrossingTime64 (boxOracle 1793000019000 1793000021000)
      1793000000000 1793000020000 0 25 = Some r /\
    1793000000000 <= r < 1793000020000.
Proof.
  apply (bisect64_succeeds_before_end
           (boxOracle 1793000019000 1793000021000)
           1793000000000 1793000020000 0 25).
  - lia.
  - vm_compute. discriminate.
  - vm_compute. discriminate.
  - intros t _. unfold boxOracle. destruct (_ && _); discriminate.
Defined.

(** Both bounds are needed.  At [2^41] ms, 25 iterations on a bracket
    of 20 s end on two neighbouring binary64 numbers whose computed
    midpoint is the upper one; so do 60 iterations on the bracket from
    0 to 20 s.  The satellite is above the horizon at [t1] only. *)
Lemma bisect64_can_return_end :
  bisectCrossingTime64 (boxOracle 2199023275552 2199023275552)
    2199023255552 2199023275552 0 25 = Some 2199023275552 /\
  bisectCrossingTime64 (boxOracle 20000 20000) 0 20000 0 60 = Some 20000.
Proof. split; vm_compute; reflexivity. Qed.

(** The binary64 bisection stays inside its bracket as well: for two
    valid dates [t0 <= t1] a returned time lies in [t0, t1], whatever
    the oracle, the target and the number of iterations. *)
Theorem bisect64_stays_in_bracket (elevationDeg : Z -> option Q)
    (t0 t1 : Z) (targetElevDeg : Q) (iters : nat) (t : Z) :
  - maxDate <= t0 -> t0 <= t1 -> t1 <= maxDate ->
  bisectCrossingTime64 elevationDeg t0 t1 targetElevDeg iters = Some t ->
  t0 <= t <= t1.
Proof.
  unfold maxDate. intros H0 H01 H1.
  apply bisectCrossingTime64_inside; lia.
Qed.

Lemma bisect64_stays_in_bracket_witness :
  bisectCrossingTime64 (rampOracle 1793000007001)
    1793000000000 1793000020000 0 25 = Some 1793000007000 /\
  1793000000000 <= 1793000007000 <= 1793000020000.
Proof.
  split; [vm_compute; reflexivity|].
  apply (bisect64_stays_in_bracket (rampOracle 1793000007001)
           1793000000000 1793000020000 0 25 1793000007000).
  - vm_compute. discriminate.
  - lia.
  - vm_compute. discriminate.
  - vm_compute. reflexivity.
Defined.



(** * The peak finder without a sample *)

(** [findMaxElevation] returns its start value, the time [aos] with the
    elevation -999, exactly when no sampled instant of the bracket has
    an elevation above -999: in a bracket with [los < aos], or when the
    oracle has no elevation at any sampled instant. *)
Theorem findMaxElevation_start_value (elevationDeg : Z -> option Q)
    (aos los : Z) :
  findMaxElevation elevationDeg aos los = mkPeak aos (-999 # 1)%Q <->
  (forall t e, sampledAt aos los t -> elevationDeg t = Some e ->
               (e <= -999 # 1)%Q).
Proof.
  split.
  - intro Heq.
    destruct (findMaxElevation_peakOf elevationDeg aos los)
      as [[_ Hall]|(_ & _ & Hgt & _)]; [exact Hall|].
    rewrite Heq in Hgt. simpl in Hgt. lra.
  - intro Hall.
    destruct (findMaxElevation_peakOf elevationDeg aos los)
      as [[Heq _]|(Hs & Hat & Hgt & _)]; [exact Heq|].
    specialize (Hall _ _ Hs Hat). lra.
Qed.

(** * Further properties of the scan *)

Section ScanMore.

Variable elevationDeg : Z -> option Q.

(** What one iteration does to the number of passes. *)
Lemma scanBody_count (nPasses x : Z) (s : Scan) :
  match scanBody elevationDeg nPasses x s with
  | Continue a =>
      List.length (passes a) = List.length (passes s) \/
      (List.length (passes a) = Datatypes.S (List.length (passes s)) /\
       Z.of_nat (List.length (passes a)) < nPasses)
  | Break a =>
      List.length (passes a) = Datatypes.S (List.length (passes s)) /\
      nPasses <= Z.of_nat (List.length (passes a))
  end.
Proof.
  destruct (elevationDeg x) as [e|] eqn:Ex.
  - rewrite (scanBody_sample _ _ _ _ _ Ex), crossDown_eq, crossUp_eq.
    set (s1 := if upFires e s then _ else s).
    assert (HP : passes s1 = passes s)
      by (subst s1; destruct (upFires e s); reflexivity).
    destruct (downFires e s1); [|simpl; rewrite HP; auto].
    destruct (closedPass elevationDeg x s1) as [p|];
      [|simpl; rewrite HP; auto].
    rewrite HP.
    destruct (Z.geb_spec (Z.of_nat (List.length (passes s ++ [p]))) nPasses);
      cbn [passes]; rewrite length_app in *; simpl List.length in *;
      [split | right; split]; lia.
  - rewrite scanBody_null by exact Ex. auto.
Qed.

Lemma scan_count (nPasses xEnd x : Z) (s r : Scan) :
  forRuns xEnd stepMs (scanBody elevationDeg nPasses) x s r ->
  Z.of_nat (List.length (passes s)) < Z.max 1 nPasses ->
  Z.of_nat (List.length (passes r)) <= Z.max 1 nPasses.
Proof.
  intros Hrun Hs.
  eapply (forRuns_inv xEnd stepMs (scanBody elevationDeg nPasses)
            (fun _ s => Z.of_nat (List.length (passes s))
                        < Z.max 1 nPasses)
            (fun r => Z.of_nat (List.length (passes r))
                      <= Z.max 1 nPasses)); eauto.
  - intros y t _ Ht. pose proof (scanBody_count nPasses y t) as Hc.
    destruct (scanBody elevationDeg nPasses y t); lia.
  - intros; simpl in *; lia.
Qed.

End ScanMore.

(** The search returns at most [nPasses] passes, and at most one pass
    when [nPasses] is 1, 0 or negative: the count is compared with
    [nPasses] only after a pass has been pushed. *)
Theorem scanPasses_at_most (elevationDeg : Z -> option Q)
    (start nPasses searchHours : Z) :
  (List.length (scanPasses elevationDeg start nPasses searchHours)
   <= Z.to_nat (Z.max 1 nPasses))%nat.
Proof.
  assert (H : Z.of_nat (List.length
                (scanPasses elevationDeg start nPasses searchHours))
              <= Z.max 1 nPasses).
  { unfold scanPasses. eapply scan_count.
    - apply forLoop_runs; [unfold stepMs; lia | apply Nat.le_refl].
    - simpl. lia. }
  lia.
Qed.

(** The passes of a search do not overlap: each pass has its LOS at or
    before the AOS of every later pass. *)
Theorem scanPasses_disjoint (elevationDeg : Z -> option Q)
    (start nPasses searchHours : Z) :
  StronglySorted (fun p q => los p <= aos q)
    (scanPasses elevationDeg start nPasses searchHours).
Proof.
  apply (scanPasses_ok elevationDeg start nPasses searchHours).
Qed.

Section ScanMore64.

Variable elevationDeg : Z -> option Q.

Lemma scan64_extends (nPasses xEnd x : Z) (s r : Scan) :
  forRuns xEnd stepMs (scanBody64 elevationDeg nPasses) x s r ->
  exists l, passes r = passes s ++ l.
Proof.
  induction 1 as [x s Hx | x s s' Hx Hb | x s s' s'' Hx Hb _ IH].
  - exists []. now rewrite app_nil_r.
  - destruct (scanBody64_extends elevationDeg nPasses x s) as (l & Hl).
    rewrite Hb in Hl. eauto.
  - destruct (scanBody64_extends elevationDeg nPasses x s) as (l & Hl).
    rewrite Hb in Hl. destruct IH as (l' & Hl').
    exists (l ++ l'). now rewrite Hl', Hl, app_assoc.
Qed.

(** The loop over a longer window goes on from where the loop over a
    shorter one stops. *)
Lemma scan64_longer (nPasses xEnd1 xEnd2 x : Z) (s r1 : Scan) :
  xEnd1 <= xEnd2 ->
  forRuns xEnd1 stepMs (scanBody64 elevationDeg nPasses) x s r1 ->
  forall r2,
    forRuns xEnd2 stepMs (scanBody64 elevationDeg nPasses) x s r2 ->
    exists l, passes r2 = passes r1 ++ l.
Proof.
  intros Hle Hrun.
  induction Hrun as [x s Hx | x s a Hx Hb | x s a r1 Hx Hb _ IH];
    intros r2 H2.
  - eapply scan64_extends; eauto.
  - inversion H2; subst; try lia; try congruence.
    exists []. rewrite app_nil_r. congruence.
  - inversion H2; subst; try lia; try congruence.
    apply IH. congruence.
Qed.

(** For a negative horizon the computed window end, when it is a date,
    is not after the window start. *)
Lemma windowEnd64_negative (start searchHours e : Z) :
  0 <= start <= maxDate -> searchHours < 0 ->
  windowEnd64 start searchHours = Some e -> e <= start.
Proof.
  unfold maxDate. intros Hs Hh. unfold windowEnd64, timeClip.
  destruct (Qle_bool _ _); [|discriminate].
  intro H. inversion H; subst e. clear H. apply newDate_upper.
  assert (F0 : F64 0) by (apply (F64_inject_Z 0); vm_compute; discriminate).
  assert (Hq : (inject_Z searchHours < 0)%Q)
    by (change 0%Q with (inject_Z 0); rewrite <- Zlt_Qlt; exact Hh).
  assert (H1 : (round64 (inject_Z searchHours * 3600) <= 0)%Q)
    by (apply round64_upper; [exact F0 | lra]).
  assert (H2 : (round64 (round64 (inject_Z searchHours * 3600) * 1000)
                <= 0)%Q)
    by (apply round64_upper; [exact F0 | lra]).
  apply round64_upper; [apply F64_inject_Z; lia | lra].
Qed.

End ScanMore64.

(** A longer search horizon only adds passes at the end: for a window
    that starts on a date from 1970 on and whose end for [h2] hours is
    a valid date, the passes found in [h1] hours are the first passes
    found in [h2 >= h1] hours with the same cap.  (For an invalid end
    the code compares with [NaN], its loop does not run and no pass is
    found.) *)
Theorem scanPasses64_longer_horizon (elevationDeg : Z -> option Q)
    (start nPasses h1 h2 : Z) :
  0 <= start <= maxDate -> h1 <= h2 -> windowEnd start h2 <= maxDate ->
  exists l,
    scanPasses64 elevationDeg start nPasses h2
    = scanPasses64 elevationDeg start nPasses h1 ++ l.
Proof.
  intros Hs Hle Hend. destruct (Z_lt_le_dec h1 0) as [Hneg|Hpos].
  - assert (H1 : scanPasses64 elevationDeg start nPasses h1 = []).
    { unfold scanPasses64.
      destruct (windowEnd64 start h1) as [e|] eqn:E; [|reflexivity].
      pose proof (windowEnd64_negative _ _ _ Hs Hneg E) as He.
      rewrite loopFuel_exit by (unfold stepMs; lia). reflexivity. }
    rewrite H1. eexists. reflexivity.
  - unfold scanPasses64.
    rewrite !windowEnd64_exact by (unfold windowEnd in *; lia).
    eapply scan64_longer with (xEnd1 := windowEnd start h1)
                             (xEnd2 := windowEnd start h2).
    + unfold windowEnd. lia.
    + apply forLoop_runs; [unfold stepMs; lia | apply Nat.le_refl].
    + apply forLoop_runs; [unfold stepMs; lia | apply Nat.le_refl].
Qed.

Lemma scanPasses64_longer_horizon_witness :
  exists l,
    scanPasses64 waveOracle 1793000000000 5 2
    = scanPasses64 waveOracle 1793000000000 5 1 ++ l.
Proof.
  apply (scanPasses64_longer_horizon waveOracle 1793000000000 5 1 2).
  - vm_compute. split; discriminate.
  - lia.
  - vm_compute. discriminate.
Defined.

(** Beyond the largest date there is no window end: a horizon of
    2 400 000 001 hours finds no pass where one hour finds one. *)
Lemma scanPasses64_invalid_end :
  windowEnd64 0 2400000001 = None /\
  scanPasses64 (boxOracle 30000 90000) 0 5 2400000001 = [] /\
  scanPasses64 (boxOracle 30000 90000) 0 5 1
  = [mkPass 29999 90000 34999 1].
Proof.
  split; [vm_compute; reflexivity|].
  split; vm_compute; reflexivity.
Qed.

(** A search horizon of zero hours or less holds no coarse sample after
    the start: the search ends with the "no passes" status, whatever the
    oracle. *)
Theorem empty_horizon_no_passes (elevationDeg : Z -> option Q)
    (name : string) (start nPasses searchHours : Z) :
  searchHours <= 0 ->
  computeNextPasses elevationDeg name start nPasses searchHours
  = NoPassesFound searchHours.
Proof.
  intro Hh. unfold computeNextPasses, scanPasses.
  rewrite loopFuel_exit by (unfold windowEnd, stepMs; lia).
  reflexivity.
Qed.

Lemma empty_horizon_no_passes_witness :
  computeNextPasses (constOracle 1) "SAT" 0 5 0 = NoPassesFound 0.
Proof.
  apply (empty_horizon_no_passes (constOracle 1) "SAT" 0 5 0). lia.
Defined.

(** * What a pass stands for *)

Section PassMeaning.

Variable elevationDeg : Z -> option Q.
Variable start : Z.

Local Notation "'bisect' t0 t1" :=
  (bisectCrossingTime elevationDeg t0 t1 0 defaultIters)
  (at level 10, t0 at level 9, t1 at level 9).

(** The window start and the instants of the coarse scan. *)
Definition coarseSample (t : Z) : Prop :=
  exists k, 0 <= k /\ t = start + stepMs * k.

(** Some coarse sample inside the pass is above the horizon. *)
Definition upInside (p : Pass) : Prop :=
  exists w e, coarseSample w /\ aos p <= w <= los p /\
              elevationDeg w = Some e /\ (0 < e)%Q.

(** One iteration on a sample with an elevation, once the flag [inPass]
    says on which side of the horizon the previous sample was. *)
Lemma scanBody_by_sides (nPasses x : Z) (e : Q) (pt : Z) (pe : Q)
    (ca : option Z) (ps : list Pass) :
  elevationDeg x = Some e ->
  scanBody elevationDeg nPasses x (mkScan pt pe (Qltb 0 pe) ca ps)
  = if Bool.eqb (Qltb 0 pe) (Qltb 0 e)
    then Continue (mkScan x e (Qltb 0 pe) ca ps)
    else if Qltb 0 e
    then Continue (mkScan x e true (Some (orDate (bisect pt x) x)) ps)
    else match closedPass elevationDeg x (mkScan pt pe true ca ps) with
         | Some p =>
             if Z.of_nat (List.length (ps ++ [p])) >=? nPasses
             then Break (mkScan pt pe false ca (ps ++ [p]))
             else Continue (mkScan x e false None (ps ++ [p]))
         | None => Continue (mkScan x e false None ps)
         end.
Proof.
  intro Hx.
  destruct (Qltb 0 pe) eqn:P0, (Qltb 0 e) eqn:P1; cbn [Bool.eqb].
  - apply step_quiet; congruence.
  - rewrite (scanBody_sample _ _ _ _ _ Hx), crossUp_eq, crossDown_eq.
    unfold upFires, downFires. cbn [inPass prevE negb andb].
    rewrite Qle_bool_negb, P0, P1. cbn [negb andb].
    cbn [prevT prevE currentAOS passes].
    destruct (closedPass elevationDeg x (mkScan pt pe true ca ps));
      [destruct (_ >=? nPasses)|]; reflexivity.
  - apply step_up; assumption.
  - apply step_quiet; congruence.
Qed.

(** The flag keeps saying so. *)
Definition flagInv (s : Scan) : Prop := inPass s = Qltb 0 (prevE s).

Definition soundInv (x : Z) (s : Scan) : Prop :=
  coarseSample x /\ prevT s < x /\ flagInv s /\
  Forall upInside (passes s) /\
  (inPass s = true ->
   exists a w e,
     currentAOS s = Some a /\ coarseSample w /\ a <= w <= prevT s /\
     elevationDeg w = Some e /\ (0 < e)%Q).

Lemma coarseSample_next (x : Z) :
  coarseSample x -> coarseSample (x + stepMs).
Proof.
  intros (k & Hk & ->). exists (k + 1). split; [lia | ring].
Qed.

Lemma scanBody_sound (nPasses x : Z) (s : Scan) :
  soundInv x s ->
  match scanBody elevationDeg nPasses x s with
  | Continue s' => soundInv (x + stepMs) s'
  | Break s' => Forall upInside (passes s')
  end.
Proof.
  intros (Hx & Hpt & Hflag & Hps & Hopen).
  pose proof stepMs_pos as Hs.
  pose proof (coarseSample_next x Hx) as Hx'.
  destruct (elevationDeg x) as [e|] eqn:Ex.
  2:{ rewrite scanBody_null by exact Ex.
      repeat split; try assumption; lia. }
  destruct s as [pt pe ip ca ps]. unfold flagInv in Hflag.
  cbn [prevT prevE inPass currentAOS passes] in *. subst ip.
  rewrite (scanBody_by_sides _ _ _ _ _ _ _ Ex).
  pose proof (orDate_inside elevationDeg pt x ltac:(lia)) as Hin.
  destruct (Qltb 0 pe) eqn:P0, (Qltb 0 e) eqn:P1; cbn [Bool.eqb].
  - split; [exact Hx'|]. split; [cbn; lia|]. split; [unfold flagInv; cbn [inPass prevE]; congruence|].
    split; [exact Hps|]. intros _.
    destruct (Hopen eq_refl) as (a & w & ew & Ha & Hw & Haw & Hew & Hpos).
    exists a, w, ew. cbn. repeat split; try assumption; lia.
  - destruct (Hopen eq_refl) as (a & w & ew & -> & Hw & Haw & Hew & Hpos).
    unfold closedPass. cbn [currentAOS prevT].
    destruct (a <? orDate (bisect pt x) x).
    + assert (Hnew : Forall upInside
                (ps ++ [mkPass a (orDate (bisect pt x) x)
                          (peakT (findMaxElevation elevationDeg a
                                    (orDate (bisect pt x) x)))
                          (peakElev (findMaxElevation elevationDeg a
                                       (orDate (bisect pt x) x)))])).
      { apply Forall_app. split; [exact Hps|].
        constructor; [|constructor].
        exists w, ew. cbn. repeat split; try assumption; lia. }
      destruct (_ >=? nPasses); [exact Hnew|].
      split; [exact Hx'|]. split; [cbn; lia|]. split; [unfold flagInv; cbn [inPass prevE]; congruence|].
      split; [exact Hnew | discriminate].
    + split; [exact Hx'|]. split; [cbn; lia|]. split; [unfold flagInv; cbn [inPass prevE]; congruence|].
      split; [exact Hps | discriminate].
  - split; [exact Hx'|]. split; [cbn; lia|]. split; [unfold flagInv; cbn [inPass prevE]; congruence|].
    split; [exact Hps|]. intros _.
    exists (orDate (bisect pt x) x), x, e. cbn.
    apply Qltb_lt in P1. repeat split; try assumption; lia.
  - split; [exact Hx'|]. split; [cbn; lia|]. split; [unfold flagInv; cbn [inPass prevE]; congruence|].
    split; [exact Hps | discriminate].
Qed.

Lemma scanInit_sound : soundInv (start + stepMs) (scanInit elevationDeg start).
Proof.
  pose proof stepMs_pos as Hs. unfold scanInit.
  split; [exists 1; split; [lia | ring]|].
  split; [cbn; lia|]. split; [reflexivity|]. split; [constructor|].
  cbn [inPass currentAOS prevT]. intro Hup. rewrite Hup.
  destruct (elevationDeg start) as [e|] eqn:E; [|discriminate].
  exists start, start, e. apply Qltb_lt in Hup.
  repeat split; try assumption; try lia.
  exists 0. split; [lia | ring].
Qed.

End PassMeaning.

(** No pass without the satellite in view: every pass the search emits
    covers the window start or a coarse sample at which the oracle gives
    an elevation above 0. *)
Theorem emitted_pass_has_sample_above (elevationDeg : Z -> option Q)
    (start nPasses searchHours : Z) (p : Pass) :
  In p (scanPasses elevationDeg start nPasses searchHours) ->
  exists k e,
    0 <= k /\
    aos p <= start + stepMs * k <= los p /\
    elevationDeg (start + stepMs * k) = Some e /\ (0 < e)%Q.
Proof.
  intro Hin.
  assert (Hall : Forall (upInside elevationDeg start)
                   (scanPasses elevationDeg start nPasses searchHours)).
  { unfold scanPasses.
    eapply (forRuns_inv (windowEnd start searchHours) stepMs
              (scanBody elevationDeg nPasses)
              (soundInv elevationDeg start)
              (fun s => Forall (upInside elevationDeg start) (passes s))).
    - intros x s _ HI. apply scanBody_sound, HI.
    - intros x s HI. apply HI.
    - apply forLoop_runs; [unfold stepMs; lia | apply Nat.le_refl].
    - apply scanInit_sound. }
  rewrite Forall_forall in Hall.
  destruct (Hall p Hin) as (w & e & (k & Hk & ->) & Hw & He & Hpos).
  exists k, e. auto.
Qed.

Lemma emitted_pass_has_sample_above_witness :
  exists k e,
    0 <= k /\
    aos (mkPass 19000 21001 19000 1) <= 0 + stepMs * k
      <= los (mkPass 19000 21001 19000 1) /\
    boxOracle 19000 21000 (0 + stepMs * k) = Some e /\ (0 < e)%Q.
Proof.
  apply (emitted_pass_has_sample_above (boxOracle 19000 21000) 0 5 1).
  vm_compute. left. reflexivity.
Defined.

(** * A pass in the window is found *)

(** The invariant rule, with the guard known to fail at the end. *)
Lemma forRuns_inv_end {S : Type} (xEnd step : Z)
    (body : Z -> S -> LoopCtl S) (I : Z -> S -> Prop) (Q : S -> Prop) :
  (forall x s, x <= xEnd -> I x s ->
     match body x s with
     | Continue s' => I (x + step) s'
     | Break s' => Q s'
     end) ->
  (forall x s, xEnd < x -> I x s -> Q s) ->
  forall x s r, forRuns xEnd step body x s r -> I x s -> Q r.
Proof.
  intros Hbody Hexit x s r Hrun.
  induction Hrun as [x s Hx | x s s' Hx Hb | x s s' s'' Hx Hb _ IH];
    intro HI.
  - eapply Hexit; eauto.
  - specialize (Hbody _ _ Hx HI). rewrite Hb in Hbody. exact Hbody.
  - specialize (Hbody _ _ Hx HI). rewrite Hb in Hbody. apply IH, Hbody.
Qed.


Section FindsPass64.

Variable elevationDeg : Z -> option Q.
Variable start nPasses searchHours : Z.
Variable i j : Z.

Local Notation "'end_'" := (windowEnd start searchHours).
Local Notation "'bisect' t0 t1" :=
  (bisectCrossingTime64 elevationDeg t0 t1 0 defaultIters)
  (at level 10, t0 at level 9, t1 at level 9).

Hypothesis start_after_1970 : 0 <= start.
Hypothesis before_2039 : end_ <= 2 ^ 41.
Hypothesis everywhere : forall t, start <= t <= end_ -> elevationDeg t <> None.
Hypothesis up_then_down : 1 <= i < j.
Hypothesis down_in_window : start + stepMs * j <= end_.
Hypothesis up_at_i :
  exists e, elevationDeg (start + stepMs * i) = Some e /\ Qltb 0 e = true.
Hypothesis down_at_j :
  exists e, elevationDeg (start + stepMs * j) = Some e /\ Qltb 0 e = false.

(** Before the coarse sample number [k]: a pass has been pushed, or the
    sample [j] is still to come, the previous sample is the coarse
    sample before, and the scan is in a pass with an AOS before its
    previous sample once the sample [i] is behind. *)
Definition foundInv (x : Z) (s : Scan) : Prop :=
  exists k, 1 <= k /\ x = start + stepMs * k /\
    (passes s <> [] \/
     (k <= j /\ prevT s = x - stepMs /\ flagInv s /\
      (inPass s = true ->
       exists a, currentAOS s = Some a /\ a <= prevT s /\
                 (i < k -> a < prevT s)) /\
      (i < k -> inPass s = true))).

Lemma scanBody64_found (x : Z) (s : Scan) :
  x <= end_ -> foundInv x s ->
  match scanBody64 elevationDeg nPasses x s with
  | Continue s' => foundInv (x + stepMs) s'
  | Break s' => passes s' <> []
  end.
Proof.
  intros Hend (k & Hk & -> & Hinv).
  pose proof stepMs_pos as Hs.
  assert (Hnext : start + stepMs * k + stepMs = start + stepMs * (k + 1))
    by ring.
  destruct Hinv as [Hne | (Hkj & Hpt & Hflag & Hopen & Hin)].
  { destruct (scanBody64_extends elevationDeg nPasses
                (start + stepMs * k) s) as (l & Hl).
    destruct (scanBody64 elevationDeg nPasses (start + stepMs * k) s)
      as [s'|s'].
    - exists (k + 1). split; [lia|]. split; [exact Hnext|]. left.
      rewrite Hl. destruct (passes s); [contradiction | discriminate].
    - rewrite Hl. destruct (passes s); [contradiction | discriminate]. }
  destruct up_at_i as (eu & Eu & Pu). destruct down_at_j as (ed & Ed & Pd).
  destruct (elevationDeg (start + stepMs * k)) as [e|] eqn:Ex;
    [|exfalso; apply (everywhere (start + stepMs * k));
      [unfold stepMs in *; lia | exact Ex]].
  assert (Hki : k = i -> Qltb 0 e = true)
    by (intros ->; rewrite Eu in Ex; congruence).
  assert (Hkj' : k = j -> Qltb 0 e = false)
    by (intros ->; rewrite Ed in Ex; congruence).
  destruct s as [pt pe ip ca ps]. unfold flagInv in Hflag.
  cbn [prevT prevE inPass currentAOS passes] in *. subst ip.
  subst pt.
  destruct (bisect64_coarse elevationDeg (start + stepMs * k))
    as (r & Hr & Hb);
    [nia | lia | intros; apply everywhere; nia |].
  rewrite (scanBody64_by_sides _ _ _ _ _ _ _ _ Ex).
  destruct (Qltb 0 pe) eqn:P0, (Qltb 0 e) eqn:P1; cbn [Bool.eqb].
  - exists (k + 1). split; [lia|]. split; [exact Hnext|]. right.
    cbn [prevT prevE inPass currentAOS passes].
    destruct (Hopen eq_refl) as (a & Ha & Hle & _).
    assert (k <> j) by (intro Hj; specialize (Hkj' Hj); discriminate).
    split; [lia|]. split; [lia|]. split; [unfold flagInv; cbn; congruence|].
    split; [|reflexivity]. intros _. exists a.
    split; [exact Ha|]. split; lia.
  - destruct (Hopen eq_refl) as (a & -> & Hle & Hlt).
    unfold closedPass64. cbn [currentAOS prevT]. rewrite Hr. cbn [orDate].
    destruct (Z.ltb_spec a r) as [Har|Har].
    + destruct (_ >=? nPasses).
      * cbn [passes]. destruct ps; discriminate.
      * exists (k + 1). split; [lia|]. split; [exact Hnext|]. left.
        cbn [passes]. destruct ps; discriminate.
    + assert (Hik : ~ i < k) by (intro H; specialize (Hlt H); lia).
      assert (k <> i) by (intro Hi; specialize (Hki Hi); discriminate).
      exists (k + 1). split; [lia|]. split; [exact Hnext|]. right.
      cbn [prevT prevE inPass currentAOS passes].
      split; [lia|]. split; [lia|].
      split; [unfold flagInv; cbn; congruence|].
      split; [discriminate | lia].
  - assert (k <> j) by (intro Hj; specialize (Hkj' Hj); discriminate).
    exists (k + 1). split; [lia|]. split; [exact Hnext|]. right.
    cbn [prevT prevE inPass currentAOS passes]. rewrite Hr. cbn [orDate].
    split; [lia|]. split; [lia|].
    split; [unfold flagInv; cbn; congruence|].
    split; [|reflexivity]. intros _. exists r.
    split; [reflexivity|]. split; lia.
  - assert (Hik : ~ i < k) by (intro H; specialize (Hin H); discriminate).
    assert (k <> i) by (intro Hi; specialize (Hki Hi); discriminate).
    exists (k + 1). split; [lia|]. split; [exact Hnext|]. right.
    cbn [prevT prevE inPass currentAOS passes].
    split; [lia|]. split; [lia|].
    split; [unfold flagInv; cbn; congruence|].
    split; [discriminate | lia].
Qed.

Lemma scan64_found : scanPasses64 elevationDeg start nPasses searchHours <> [].
Proof.
  pose proof stepMs_pos as Hs. unfold scanPasses64.
  rewrite windowEnd64_exact;
    [| exact start_after_1970
     | unfold windowEnd, stepMs in *; lia
     | unfold maxDate; lia].
  eapply (forRuns_inv_end end_ stepMs (scanBody64 elevationDeg nPasses)
            foundInv (fun s => passes s <> [])).
  - intros x s Hx HI. apply scanBody64_found; assumption.
  - intros x s Hx (k & Hk & -> & [Hne | (Hkj & _)]); [exact Hne|].
    unfold stepMs in *. lia.
  - apply forLoop_runs; [exact Hs | apply Nat.le_refl].
  - exists 1. split; [lia|]. split; [ring|]. right.
    unfold scanInit. cbn [prevT prevE inPass currentAOS passes].
    split; [lia|]. split; [lia|]. split; [reflexivity|].
    split; [|lia]. intro Hup. rewrite Hup. exists start.
    split; [reflexivity|]. split; lia.
Qed.

End FindsPass64.

(** No pass is missed: with an elevation at every instant of a window
    between 1970 and [2^41] ms (7 September 2039), a coarse sample above
    the horizon followed by a later coarse sample of the window that is
    not makes the search list at least one pass.  The date bound keeps
    the refined AOS before its coarse sample, so that a LOS at that
    sample still closes the pass. *)
Theorem scan64_finds_pass (elevationDeg : Z -> option Q) (name : string)
    (start nPasses searchHours i j : Z) (eu ed : Q) :
  0 <= start ->
  windowEnd start searchHours <= 2 ^ 41 ->
  (forall t, start <= t <= windowEnd start searchHours ->
             elevationDeg t <> None) ->
  1 <= i < j ->
  start + stepMs * j <= windowEnd start searchHours ->
  elevationDeg (start + stepMs * i) = Some eu -> (0 < eu)%Q ->
  elevationDeg (start + stepMs * j) = Some ed -> (ed <= 0)%Q ->
  exists rows,
    computeNextPasses64 elevationDeg name start nPasses searchHours
    = PassesListed name rows /\ rows <> [].
Proof.
  intros Hstart Hend Hvalid Hij Hj Hu Hpos Hd Hneg.
  assert (Hne : scanPasses64 elevationDeg start nPasses searchHours <> []).
  { apply (scan64_found elevationDeg start nPasses searchHours i j);
      try assumption.
    - exists eu. split; [exact Hu | apply Qltb_lt, Hpos].
    - exists ed. split; [exact Hd | apply Qltb_ge, Hneg]. }
  unfold computeNextPasses64.
  destruct (scanPasses64 elevationDeg start nPasses searchHours) as [|p ps];
    [contradiction|].
  exists (p :: ps). split; [reflexivity | discriminate].
Qed.

Lemma scan64_finds_pass_witness :
  exists rows,
    computeNextPasses64 (boxOracle 1793000030000 1793000090000) "SAT"
      1793000000000 5 1
    = PassesListed "SAT" rows /\ rows <> [].
Proof.
  apply (scan64_finds_pass (boxOracle 1793000030000 1793000090000) "SAT"
           1793000000000 5 1 2 5 1 (-1)).
  - lia.
  - vm_compute. discriminate.
  - intros t _. unfold boxOracle. destruct (_ && _); discriminate.
  - lia.
  - vm_compute. discriminate.
  - reflexivity.
  - reflexivity.
  - reflexivity.
  - discriminate.
Defined.

(** * The duration shown in the table *)

(** Line 228: [Math.max(0, (p.los.getTime() - p.aos.getTime()) / 1000)]. *)
Definition durSec (p : Pass) : Q :=
  Qmax 0 (inject_Z (los p - aos p) / 1000).



(** * normalizeLon (app.js 58-63) *)

(** A longitude in degrees; the two tests are made one after the other,
    the second on the value the first leaves. *)
Definition normalizeLon (lon : Q) : Q :=
  let x := lon in
  let x := if Qltb 180 x then (x - 360)%Q else x in
  let x := if Qltb x (-180) then (x + 360)%Q else x in
  x.

Lemma normalizeLon_range_iff (lon : Q) :
  (-180 <= normalizeLon lon /\ normalizeLon lon <= 180)%Q <->
  (-540 <= lon /\ lon <= 540)%Q.
Proof.
  unfold normalizeLon.
  destruct (Qltb 180 lon) eqn:E1.
  - apply Qltb_lt in E1.
    destruct (Qltb (lon - 360) (-180)) eqn:E2;
      [apply Qltb_lt in E2 | apply Qltb_ge in E2]; split; intros []; split;
      lra.
  - apply Qltb_ge in E1.
    destruct (Qltb lon (-180)) eqn:E2;
      [apply Qltb_lt in E2 | apply Qltb_ge in E2]; split; intros []; split;
      lra.
Qed.

(** [normalizeLon] takes at most one turn off: its result is in
    [-180, 180] exactly for the longitudes in [-540, 540]. *)
Theorem normalizeLon_in_range (lon : Q) :
  (-180 <= normalizeLon lon /\ normalizeLon lon <= 180)%Q <->
  (-540 <= lon /\ lon <= 540)%Q.
Proof. apply normalizeLon_range_iff. Qed.

(** [normalizeLon] on binary64 numbers: [x -= 360] and [x += 360] round
    their result. *)
Definition normalizeLon64 (lon : Q) : Q :=
  let x := lon in
  let x := if Qltb 180 x then round64 (x - 360) else x in
  let x := if Qltb x (-180) then round64 (x + 360) else x in
  x.

(** A longitude within one turn and a half of zero is brought into
    [-180, 180] by the rounded differences as well. *)
Lemma normalizeLon64_range (lon : Q) :
  (-540 <= lon /\ lon <= 540)%Q ->
  (-180 <= normalizeLon64 lon /\ normalizeLon64 lon <= 180)%Q.
Proof.
  intros [H1 H2].
  assert (Fm : F64 (-180))
    by (apply (F64_inject_Z (-180)); vm_compute; discriminate).
  assert (Fp : F64 180)
    by (apply (F64_inject_Z 180); vm_compute; discriminate).
  unfold normalizeLon64.
  destruct (Qltb 180 lon) eqn:E1.
  - apply Qltb_lt in E1.
    assert (Hlo : (-180 <= round64 (lon - 360))%Q)
      by (apply round64_lower; [exact Fm | lra]).
    assert (Hhi : (round64 (lon - 360) <= 180)%Q)
      by (apply round64_upper; [exact Fp | lra]).
    destruct (Qltb (round64 (lon - 360)) (-180)) eqn:E2;
      [apply Qltb_lt in E2; lra | split; assumption].
  - apply Qltb_ge in E1.
    destruct (Qltb lon (-180)) eqn:E2.
    + apply Qltb_lt in E2. split.
      * apply round64_lower; [exact Fm | lra].
      * apply round64_upper; [exact Fp | lra].
    + apply Qltb_ge in E2. split; assumption.
Qed.

(** Up to [2^53] degrees [normalizeLon] leaves exactly the longitudes of
    [-180, 180] as they are, both ends included: 180 and -180 are both
    kept. *)
Theorem normalizeLon64_fixes (lon : Q) :
  (Qabs lon <= 2 ^ 53)%Q ->
  (normalizeLon64 lon == lon)%Q <-> (-180 <= lon /\ lon <= 180)%Q.
Proof.
  intro Hb. apply Qabs_Qle_condition in Hb. destruct Hb as [Hb1 Hb2].
  assert (P : (2 ^ (53 + 0) == 2 ^ 53)%Q) by reflexivity.
  assert (P360 : (360 <= 2 ^ 53)%Q) by (apply Qle_bool_iff; reflexivity).
  unfold normalizeLon64.
  destruct (Qltb 180 lon) eqn:E1.
  - apply Qltb_lt in E1.
    assert (Hx : (Qabs (lon - 360) <= 2 ^ (53 + 0))%Q)
      by (rewrite P; apply Qabs_Qle_condition; split; lra).
    pose proof (round64_error 0 (lon - 360) ltac:(lia) Hx) as Hr.
    apply Qabs_Qle_condition in Hr.
    change (2 ^ 0 * (1 # 2))%Q with (1 * (1 # 2))%Q in Hr.
    assert (Hlo : (-180 <= round64 (lon - 360))%Q).
    { apply round64_lower; [|lra].
      apply (F64_inject_Z (-180)). vm_compute. discriminate. }
    destruct (Qltb (round64 (lon - 360)) (-180)) eqn:E2;
      [apply Qltb_lt in E2; lra|].
    split; [intro H | intros [H1 H2]]; lra.
  - apply Qltb_ge in E1.
    destruct (Qltb lon (-180)) eqn:E2.
    + apply Qltb_lt in E2.
      assert (Hx : (Qabs (lon + 360) <= 2 ^ (53 + 0))%Q)
        by (rewrite P; apply Qabs_Qle_condition; split; lra).
      pose proof (round64_error 0 (lon + 360) ltac:(lia) Hx) as Hr.
      apply Qabs_Qle_condition in Hr.
      change (2 ^ 0 * (1 # 2))%Q with (1 * (1 # 2))%Q in Hr.
      split; [intro H | intros [H1 H2]]; lra.
    + apply Qltb_ge in E2. split; [intros _; split | intros _]; lra.
Qed.

Lemma normalizeLon64_fixes_witness :
  (normalizeLon64 200 == 200)%Q <-> (-180 <= 200 /\ 200 <= 180)%Q.
Proof.
  apply (normalizeLon64_fixes 200). apply Qle_bool_iff. reflexivity.
Defined.

(** Beyond that the turn can be lost in the rounding: [2^63] is left as
    it is. *)
Lemma normalizeLon64_absorbs_turn :
  (normalizeLon64 (2 ^ 63) == 2 ^ 63)%Q /\ ~ (2 ^ 63 <= 180)%Q.
Proof.
  split; [apply Qeq_bool_iff; vm_compute; reflexivity|].
  intro H. apply Qle_bool_iff in H. vm_compute in H. discriminate.
Qed.

(** * eciGeodeticFromSatrec and groundTrackPoints (app.js 65-75, 87-99) *)

(** What [satellite.eciToGeodetic] returns: angles in radians, height in
    kilometres. *)
Record Geodetic : Type := mkGeodetic {
  latitude : Q;
  longitude : Q;
  height : Q
}.

(** The object [{ lat, lon, altKm }]. *)
Record SubPoint : Type := mkSubPoint {
  lat : Q;
  lon : Q;
  altKm : Q
}.

(** The object [{ ...gd, date: d }]. *)
Record TrackPoint : Type := mkTrackPoint {
  ptLat : Q;
  ptLon : Q;
  ptAltKm : Q;
  ptDate : Z
}.

Section GroundTrack.

(** The functions of the propagation library, for one satellite record:
    [propagate] gives [pv.position], [None] when it is missing. *)
Variable Position : Type.
Variable propagate : Z -> option Position.
Variable gstime : Z -> Q.
Variable eciToGeodetic : Position -> Q -> Geodetic.
Variable degreesLat degreesLong : Q -> Q.

Definition eciGeodeticFromSatrec (date : Z) : option SubPoint :=
  match propagate date with
  | None => None
  | Some position =>
      let gmst := gstime date in
      let gd := eciToGeodetic position gmst in
      Some (mkSubPoint (degreesLat (latitude gd))
              (normalizeLon (degreesLong (longitude gd)))
              (height gd))
  end.

(** [const stepSec = 30]. *)
Definition stepSec : Z := 30.

(** The body of the loop of lines 92-97; [t] counts seconds. *)
Definition trackBody (startDate : Z) (t : Z) (pts : list TrackPoint)
    : LoopCtl (list TrackPoint) :=
  let d := newDate (inject_Z (startDate + t * 1000)) in
  match eciGeodeticFromSatrec d with
  | None => Continue pts
  | Some gd => Continue (pts ++ [mkTrackPoint (lat gd) (lon gd) (altKm gd) d])
  end.

Definition groundTrackPoints (startDate hoursForward : Z)
    : list TrackPoint :=
  let totalSec := hoursForward * 3600 in
  forLoop (loopFuel 0 totalSec stepSec) totalSec stepSec
    (trackBody startDate) 0 [].

(** The points that the instant [t] seconds after the start adds. *)
Definition pointsAt (startDate t : Z) : list TrackPoint :=
  match eciGeodeticFromSatrec (startDate + t * 1000) with
  | None => []
  | Some gd =>
      [mkTrackPoint (lat gd) (lon gd) (altKm gd) (startDate + t * 1000)]
  end.

Lemma trackBody_eq (startDate t : Z) (pts : list TrackPoint) :
  trackBody startDate t pts = Continue (pts ++ pointsAt startDate t).
Proof.
  unfold trackBody, pointsAt. rewrite newDate_inject_Z.
  destruct (eciGeodeticFromSatrec _); [reflexivity|].
  now rewrite app_nil_r.
Qed.

(** The seconds at which the loop samples: 0, 30, 60, ... *)
Definition trackSeconds (x : Z) (n : nat) : list Z :=
  map (fun k => x + stepSec * Z.of_nat k) (seq 0 n).

Lemma trackSeconds_succ (x : Z) (n : nat) :
  trackSeconds x (S n) = x :: trackSeconds (x + stepSec) n.
Proof.
  unfold trackSeconds. cbn [seq map]. f_equal; [ring|].
  rewrite <- seq_shift, map_map. apply map_ext.
  intro k. rewrite Nat2Z.inj_succ. ring.
Qed.

Lemma track_runs (startDate xEnd x : Z) (pts r : list TrackPoint) :
  forRuns xEnd stepSec (trackBody startDate) x pts r ->
  r = pts ++ flat_map (pointsAt startDate)
               (trackSeconds x (loopFuel x xEnd stepSec)).
Proof.
  assert (Hs : 0 < stepSec) by reflexivity.
  induction 1 as [x s Hx | x s s' Hx Hb | x s s' s'' Hx Hb _ IH].
  - rewrite loopFuel_exit by assumption. simpl. now rewrite app_nil_r.
  - rewrite trackBody_eq in Hb. discriminate.
  - rewrite trackBody_eq in Hb. inversion Hb; subst s'.
    rewrite (loopFuel_next xEnd stepSec Hs x Hx), trackSeconds_succ.
    rewrite IH. cbn [flat_map]. now rewrite app_assoc.
Qed.

Lemma track_fuel (hoursForward : Z) :
  loopFuel 0 (hoursForward * 3600) stepSec
  = Z.to_nat (120 * hoursForward + 1).
Proof.
  unfold loopFuel, stepSec. f_equal.
  replace (hoursForward * 3600 - 0) with (120 * hoursForward * 30) by ring.
  rewrite Z_div_mult by lia. reflexivity.
Qed.

(** The loop as a list comprehension. *)
Lemma groundTrackPoints_eq (startDate hoursForward : Z) :
  groundTrackPoints startDate hoursForward
  = flat_map (pointsAt startDate)
      (trackSeconds 0 (Z.to_nat (120 * hoursForward + 1))).
Proof.
  unfold groundTrackPoints. rewrite <- track_fuel.
  apply (track_runs startDate (hoursForward * 3600) 0 []).
  apply forLoop_runs; [reflexivity | apply Nat.le_refl].
Qed.

Lemma trackSeconds_in (n : nat) (t : Z) :
  In t (trackSeconds 0 n) <->
  exists k, 0 <= k < Z.of_nat n /\ t = 30 * k.
Proof.
  unfold trackSeconds, stepSec. rewrite in_map_iff. split.
  - intros (k & <- & Hk). apply in_seq in Hk.
    exists (Z.of_nat k). split; lia.
  - intros (k & Hk & ->). exists (Z.to_nat k). split; [lia|].
    apply in_seq. lia.
Qed.

End GroundTrack.

Section GroundTrackFacts.

Variable Position : Type.
Variable propagate : Z -> option Position.
Variable gstime : Z -> Q.
Variable eciToGeodetic : Position -> Q -> Geodetic.
Variable degreesLat degreesLong : Q -> Q.

Local Notation "'subPoint'" :=
  (eciGeodeticFromSatrec Position propagate gstime eciToGeodetic
     degreesLat degreesLong).
Local Notation "'track'" :=
  (groundTrackPoints Position propagate gstime eciToGeodetic
     degreesLat degreesLong).
Local Notation "'at_'" :=
  (pointsAt Position propagate gstime eciToGeodetic degreesLat degreesLong).

Lemma pointsAt_in (startDate t : Z) (p : TrackPoint) :
  In p (at_ startDate t) <->
  exists gd, subPoint (startDate + t * 1000) = Some gd /\
             p = mkTrackPoint (lat gd) (lon gd) (altKm gd)
                   (startDate + t * 1000).
Proof.
  unfold pointsAt. destruct (subPoint (startDate + t * 1000)) as [gd|].
  - split.
    + intros [<-|[]]. exists gd. auto.
    + intros (gd' & Hgd & ->). inversion Hgd. now left.
  - split; [intros [] | intros (gd & Hgd & _); discriminate].
Qed.

(** The ground track holds exactly the sub-satellite points of the
    instants [startDate], [startDate + 30 s], ... up to
    [startDate + hoursForward] hours at which the propagation gives a
    position; an instant without a position is left out. *)
Theorem groundTrackPoints_members (startDate hoursForward : Z)
    (p : TrackPoint) :
  In p (track startDate hoursForward) <->
  exists k gd,
    0 <= k <= 120 * hoursForward /\
    ptDate p = startDate + 30000 * k /\
    subPoint (ptDate p) = Some gd /\
    p = mkTrackPoint (lat gd) (lon gd) (altKm gd) (ptDate p).
Proof.
  rewrite groundTrackPoints_eq, in_flat_map. split.
  - intros (t & Ht & Hp). apply trackSeconds_in in Ht.
    destruct Ht as (k & Hk & ->). apply pointsAt_in in Hp.
    destruct Hp as (gd & Hgd & ->). cbn [ptDate].
    exists k, gd.
    replace (startDate + 30 * k * 1000) with (startDate + 30000 * k)
      in * by ring.
    repeat split; try assumption; lia.
  - intros (k & gd & Hk & Hd & Hgd & ->). cbn [ptDate] in *.
    exists (30 * k). split.
    + apply trackSeconds_in. exists k. split; [lia | reflexivity].
    + apply pointsAt_in. exists gd.
      replace (startDate + 30 * k * 1000) with (startDate + 30000 * k)
        by ring.
      rewrite <- Hd. auto.
Qed.

Lemma pointsAt_length (startDate t : Z) :
  (List.length (at_ startDate t) <= 1)%nat /\
  (propagate (startDate + t * 1000) <> None ->
   List.length (at_ startDate t) = 1%nat).
Proof.
  unfold pointsAt, eciGeodeticFromSatrec.
  destruct (propagate (startDate + t * 1000)); simpl; split;
    try lia; try reflexivity.
  intro H. now contradiction H.
Qed.

Lemma flat_map_count (startDate : Z) (l : list Z) :
  (List.length (flat_map (at_ startDate) l) <= List.length l)%nat /\
  ((forall t, In t l -> propagate (startDate + t * 1000) <> None) ->
   List.length (flat_map (at_ startDate) l) = List.length l).
Proof.
  induction l as [|t l [IH1 IH2]]; [simpl; auto|].
  cbn [flat_map]. rewrite length_app. cbn [List.length].
  destruct (pointsAt_length startDate t) as [H1 H2]. split.
  - lia.
  - intro Hall. rewrite H2, IH2; [reflexivity | |].
    + intros u Hu. apply Hall. now right.
    + apply Hall. now left.
Qed.

(** The ground track has at most [120 * hoursForward + 1] points, none
    for a negative number of hours, and exactly that many when the
    propagation gives a position at every sampled instant. *)
Theorem groundTrackPoints_count (startDate hoursForward : Z) :
  (List.length
     (groundTrackPoints Position propagate gstime eciToGeodetic
        degreesLat degreesLong startDate hoursForward)
   <= Z.to_nat (120 * hoursForward + 1))%nat /\
  ((forall k, 0 <= k <= 120 * hoursForward ->
              propagate (startDate + 30000 * k) <> None) ->
   List.length
     (groundTrackPoints Position propagate gstime eciToGeodetic
        degreesLat degreesLong startDate hoursForward)
   = Z.to_nat (120 * hoursForward + 1)).
Proof.
  rewrite groundTrackPoints_eq.
  set (n := Z.to_nat (120 * hoursForward + 1)).
  destruct (flat_map_count startDate (trackSeconds 0 n)) as [H1 H2].
  assert (Hlen : List.length (trackSeconds 0 n) = n)
    by (unfold trackSeconds; now rewrite length_map, length_seq).
  rewrite Hlen in *. split; [exact H1|].
  intro Hall. apply H2. intros t Ht. apply trackSeconds_in in Ht.
  destruct Ht as (k & Hk & ->).
  replace (startDate + 30 * k * 1000) with (startDate + 30000 * k) by ring.
  apply Hall. subst n. lia.
Qed.

Lemma track_sorted_from (startDate : Z) (n : nat) (x : Z) :
  StronglySorted (fun p q => ptDate p < ptDate q)
    (flat_map (at_ startDate) (trackSeconds x n)) /\
  Forall (fun p => startDate + x * 1000 <= ptDate p)
    (flat_map (at_ startDate) (trackSeconds x n)).
Proof.
  revert x. induction n as [|n IH]; intro x.
  - cbn. split; constructor.
  - rewrite trackSeconds_succ. cbn [flat_map].
    destruct (IH (x + stepSec)) as [Hs Hf].
    assert (Hlater : Forall (fun p => startDate + x * 1000 < ptDate p)
                       (flat_map (at_ startDate)
                          (trackSeconds (x + stepSec) n))).
    { eapply Forall_impl; [|exact Hf]. cbn. unfold stepSec. intros; lia. }
    unfold pointsAt at 1 3.
    destruct (subPoint (startDate + x * 1000)) as [gd|]; cbn [app].
    + split; constructor; cbn [ptDate]; try assumption; try lia.
      eapply Forall_impl; [|exact Hlater]. cbn. intros; lia.
    + split; [exact Hs|].
      eapply Forall_impl; [|exact Hlater]. cbn. intros; lia.
Qed.

(** The points of the ground track are in time order: their dates are
    strictly ascending. *)
Theorem groundTrackPoints_ascending (startDate hoursForward : Z) :
  StronglySorted (fun p q => ptDate p < ptDate q)
    (groundTrackPoints Position propagate gstime eciToGeodetic
       degreesLat degreesLong startDate hoursForward).
Proof.
  rewrite groundTrackPoints_eq. apply track_sorted_from.
Qed.

(** When the library's [degreesLong] gives a longitude within one turn
    and a half of zero, every point of the ground track has its
    longitude in [-180, 180]. *)
Theorem groundTrackPoints_lon_range (startDate hoursForward : Z)
    (p : TrackPoint) :
  (forall r, (-540 <= degreesLong r /\ degreesLong r <= 540)%Q) ->
  In p (track startDate hoursForward) ->
  (-180 <= ptLon p /\ ptLon p <= 180)%Q.
Proof.
  intros Hlong Hin. rewrite groundTrackPoints_eq, in_flat_map in Hin.
  destruct Hin as (t & _ & Hp). apply pointsAt_in in Hp.
  destruct Hp as (gd & Hgd & ->). cbn [ptLon].
  unfold eciGeodeticFromSatrec in Hgd.
  destruct (propagate (startDate + t * 1000)) as [pos|]; [|discriminate].
  inversion Hgd; subst gd. cbn [lon].
  apply normalizeLon_range_iff, Hlong.
Qed.

End GroundTrackFacts.

(** A propagation that gives a position at the full minutes only, and a
    library that puts every point at 200 degrees east. *)
Definition minuteOnly : Z -> option unit :=
  fun t => if t mod 60000 =? 0 then Some tt else None.

Lemma groundTrackPoints_lon_range_witness :
  let p := mkTrackPoint 0 (-160) 0 0 in
  (-180 <= ptLon p /\ ptLon p <= 180)%Q.
Proof.
  apply (groundTrackPoints_lon_range unit minuteOnly (fun _ => 0%Q)
           (fun _ _ => mkGeodetic 0 0 0) (fun r => r) (fun _ => 200%Q)
           0 1).
  - intro r. split; discriminate.
  - vm_compute. left. reflexivity.
Defined.

(** * fetchLocalTLE (app.js 42-55) *)

(** A JavaScript string: its UTF-16 code units. *)
Definition JsString : Type := list N.

Definition LF : N := 10.
Definition CR : N := 13.

(** The code units that [String.prototype.trim] strips: ECMAScript's
    WhiteSpace and LineTerminator. *)
Definition isWhiteSpace (c : N) : bool :=
  existsb (N.eqb c)
    [9; 10; 11; 12; 13; 32; 160; 5760; 8232; 8233; 8239; 8287; 12288;
     65279]%N
  || ((8192 <=? c)%N && (c <=? 8202)%N).

Fixpoint trimStart (s : JsString) : JsString :=
  match s with
  | [] => []
  | c :: r => if isWhiteSpace c then trimStart r else s
  end.

Definition trimEnd (s : JsString) : JsString := rev (trimStart (rev s)).

(** [s.trim()]. *)
Definition trim (s : JsString) : JsString := trimEnd (trimStart s).

(** [s.split(/\r?\n/)]: the pieces between the matches of the pattern,
    found from left to right; [piece] holds the code units of the
    current piece, last one first. *)
Fixpoint splitLines (piece : JsString) (s : JsString) : list JsString :=
  match s with
  | [] => [rev piece]
  | c :: rest =>
      if (c =? LF)%N then rev piece :: splitLines [] rest
      else if (c =? CR)%N then
        match rest with
        | c2 :: rest' =>
            if (c2 =? LF)%N then rev piece :: splitLines [] rest'
            else splitLines (c :: piece) rest
        | [] => splitLines (c :: piece) rest
        end
      else splitLines (c :: piece) rest
  end.

(** [Boolean(s)] for a string. *)
Definition nonEmpty (s : JsString) : bool :=
  match s with [] => false | _ => true end.

(** The response of [fetch]: [res.ok], [res.status] and the text of the
    body. *)
Record Response : Type := mkResponse {
  ok : bool;
  status : Z;
  body : JsString
}.

(** The two errors the function throws. *)
Inductive TleError : Type :=
| HttpError (status : Z)   (* line 45: the file could not be read *)
| TooFewLines.             (* line 50: there are no three lines *)

Record Tle : Type := mkTle {
  name : JsString;
  l1 : JsString;
  l2 : JsString
}.

(** Lines 45-54, on the response that [fetch] has delivered. *)
Definition fetchLocalTLE (res : Response) : TleError + Tle :=
  if negb (ok res) then inl (HttpError (status res))
  else
    let txt := trim (body res) in
    let lines := filter nonEmpty (map trim (splitLines [] txt)) in
    match lines with
    | name :: l1 :: l2 :: _ => inr (mkTle name l1 l2)
    | _ => inl TooFewLines
    end.

(** ** Trimming *)

Definition allWhite (w : JsString) : Prop :=
  Forall (fun c => isWhiteSpace c = true) w.

Lemma trimStart_white (w s : JsString) :
  allWhite w -> trimStart (w ++ s) = trimStart s.
Proof.
  induction 1 as [|c w Hc _ IH]; [reflexivity|]. simpl. now rewrite Hc.
Qed.

Lemma trimStart_suffix (s : JsString) :
  exists w, allWhite w /\ s = w ++ trimStart s.
Proof.
  induction s as [|c s (w & Hw & IH)].
  - exists []. split; [constructor | reflexivity].
  - simpl. destruct (isWhiteSpace c) eqn:E.
    + exists (c :: w). split; [constructor; assumption|].
      simpl. now rewrite <- IH.
    + exists []. split; [constructor | reflexivity].
Qed.

Lemma trimStart_head (s r : JsString) (c : N) :
  trimStart s = c :: r -> isWhiteSpace c = false.
Proof.
  induction s as [|d s IH]; [discriminate|]. simpl.
  destruct (isWhiteSpace d) eqn:E; [exact IH|].
  intro H. inversion H; subst. exact E.
Qed.

Lemma trimStart_keep (c : N) (s : JsString) :
  isWhiteSpace c = false -> trimStart (c :: s) = c :: s.
Proof. intro H. simpl. now rewrite H. Qed.

Lemma allWhite_rev (w : JsString) : allWhite w -> allWhite (rev w).
Proof. apply Forall_rev. Qed.

Lemma trimEnd_white (s w : JsString) :
  allWhite w -> trimEnd (s ++ w) = trimEnd s.
Proof.
  intro Hw. unfold trimEnd. rewrite rev_app_distr.
  now rewrite trimStart_white by (apply allWhite_rev, Hw).
Qed.

Lemma trimEnd_keep (s : JsString) (c : N) :
  isWhiteSpace c = false -> trimEnd (s ++ [c]) = s ++ [c].
Proof.
  intro H. unfold trimEnd. rewrite rev_app_distr. simpl rev at 2.
  cbn [app]. rewrite trimStart_keep by exact H.
  cbn [rev]. now rewrite rev_involutive.
Qed.

Lemma trimEnd_prefix (s : JsString) :
  exists w, allWhite w /\ s = trimEnd s ++ w.
Proof.
  destruct (trimStart_suffix (rev s)) as (w & Hw & Hs).
  exists (rev w). split; [apply allWhite_rev, Hw|].
  unfold trimEnd. rewrite <- rev_app_distr, <- Hs.
  symmetry. apply rev_involutive.
Qed.

Lemma trimEnd_last (s r : JsString) (c : N) :
  trimEnd s = r ++ [c] -> isWhiteSpace c = false.
Proof.
  unfold trimEnd. intro H.
  apply (f_equal (@rev N)) in H.
  rewrite rev_involutive, rev_app_distr in H. simpl in H.
  eapply trimStart_head, H.
Qed.

(** A string is all white space, or ends with a last code unit that is
    not, followed by white space. *)
Lemma last_nonwhite (s : JsString) :
  allWhite s \/
  exists r c w, s = r ++ c :: w /\ isWhiteSpace c = false /\ allWhite w.
Proof.
  induction s as [|d s [IH|(r & c & w & -> & Hc & Hw)]].
  - left. constructor.
  - destruct (isWhiteSpace d) eqn:E.
    + left. constructor; assumption.
    + right. exists [], d, s. auto.
  - right. exists (d :: r), c, w. auto.
Qed.

Lemma trimEnd_app (a r : JsString) :
  ~ allWhite r -> trimEnd (a ++ r) = a ++ trimEnd r.
Proof.
  intro Hr. destruct (last_nonwhite r) as [H|(r1 & c & w & -> & Hc & Hw)];
    [contradiction|].
  replace (a ++ r1 ++ c :: w) with (((a ++ r1) ++ [c]) ++ w)
    by (rewrite <- !app_assoc; reflexivity).
  replace (r1 ++ c :: w) with ((r1 ++ [c]) ++ w)
    by (rewrite <- !app_assoc; reflexivity).
  rewrite (trimEnd_white ((a ++ r1) ++ [c]) w Hw).
  rewrite (trimEnd_white (r1 ++ [c]) w Hw).
  rewrite !trimEnd_keep by exact Hc. now rewrite app_assoc.
Qed.

Lemma trim_parts (s : JsString) :
  exists w w', allWhite w /\ allWhite w' /\ s = w ++ trim s ++ w'.
Proof.
  destruct (trimStart_suffix s) as (w & Hw & Hs).
  destruct (trimEnd_prefix (trimStart s)) as (w' & Hw' & Hs').
  exists w, w'. split; [exact Hw|]. split; [exact Hw'|].
  unfold trim. now rewrite <- Hs', <- Hs.
Qed.

Lemma trim_head (s r : JsString) (c : N) :
  trim s = c :: r -> isWhiteSpace c = false.
Proof.
  intro H. destruct (trimEnd_prefix (trimStart s)) as (w' & _ & Hs').
  fold (trim s) in Hs'. rewrite H in Hs'. simpl in Hs'.
  eapply trimStart_head, Hs'.
Qed.

Lemma trim_last (s r : JsString) (c : N) :
  trim s = r ++ [c] -> isWhiteSpace c = false.
Proof. unfold trim. apply trimEnd_last. Qed.

(** ** Splitting into lines *)

Definition noLF (l : JsString) : Prop := ~ In LF l.

(** A line as the function returns it: not empty, no white space at
    either end, no line feed inside. *)
Definition cleanLine (l : JsString) : Prop :=
  (exists c r, l = c :: r /\ isWhiteSpace c = false) /\
  (exists r c, l = r ++ [c] /\ isWhiteSpace c = false) /\
  noLF l.

(** One of the two line ends that the pattern matches. *)
Definition lineEnd (sep : JsString) : Prop := sep = [LF] \/ sep = [CR; LF].

Lemma splitLines_end (l piece : JsString) :
  noLF l -> splitLines piece l = [rev piece ++ l].
Proof.
  revert piece. induction l as [|c l IH]; intros piece H.
  - simpl. now rewrite app_nil_r.
  - assert (Hc : c <> LF) by (intro; apply H; left; auto).
    assert (Hl : noLF l) by (intro; apply H; right; auto).
    specialize (IH (c :: piece) Hl). cbn [rev] in IH.
    rewrite <- app_assoc in IH. cbn [app] in IH.
    cbn [splitLines]. destruct (N.eqb_spec c LF); [contradiction|].
    destruct (N.eqb_spec c CR); [|exact IH].
    destruct l as [|c2 l']; [exact IH|].
    destruct (N.eqb_spec c2 LF); [|exact IH].
    exfalso. apply Hl. left. auto.
Qed.

Lemma splitLines_line (l piece sep rest : JsString) :
  noLF l -> (forall r, l <> r ++ [CR]) -> lineEnd sep ->
  splitLines piece (l ++ sep ++ rest)
  = (rev piece ++ l) :: splitLines [] rest.
Proof.
  intros Hl Hcr Hsep. revert piece Hl Hcr.
  induction l as [|c l IH]; intros piece H Hcr.
  - rewrite app_nil_r. destruct Hsep as [->| ->]; reflexivity.
  - assert (Hc : c <> LF) by (intro; apply H; left; auto).
    assert (Hl : noLF l) by (intro; apply H; right; auto).
    assert (Hcr' : forall r, l <> r ++ [CR])
      by (intros r ->; apply (Hcr (c :: r)); reflexivity).
    specialize (IH (c :: piece) Hl Hcr'). cbn [rev] in IH.
    rewrite <- app_assoc in IH. cbn [app] in IH.
    cbn [app splitLines]. destruct (N.eqb_spec c LF); [contradiction|].
    destruct (N.eqb_spec c CR) as [->|]; [|exact IH].
    destruct l as [|c2 l']; [exfalso; apply (Hcr []); reflexivity|].
    cbn [app] in *. destruct (N.eqb_spec c2 LF); [|exact IH].
    exfalso. apply Hl. left. auto.
Qed.

Lemma splitLines_noLF (n : nat) (s piece : JsString) :
  (List.length s <= n)%nat -> noLF piece ->
  Forall noLF (splitLines piece s).
Proof.
  revert s piece. induction n as [|n IH]; intros s piece Hn Hp.
  - destruct s; [|simpl in Hn; lia].
    constructor; [|constructor]. intro H. apply Hp, in_rev, H.
  - assert (Hrev : noLF (rev piece)) by (intro H; apply Hp, in_rev, H).
    assert (Hnil : noLF []) by (intros []).
    destruct s as [|c rest]; [constructor; [exact Hrev | constructor]|].
    simpl in Hn. cbn [splitLines].
    destruct (N.eqb_spec c LF).
    { constructor; [exact Hrev|]. apply IH; [lia | exact Hnil]. }
    assert (Hcp : noLF (c :: piece))
      by (intros [H|H]; [congruence | exact (Hp H)]).
    destruct (N.eqb_spec c CR); [|apply IH; [lia | exact Hcp]].
    destruct rest as [|c2 rest']; [apply IH; [simpl; lia | exact Hcp]|].
    destruct (N.eqb_spec c2 LF); [|apply IH; [lia | exact Hcp]].
    constructor; [exact Hrev|]. simpl in Hn. apply IH; [lia | exact Hnil].
Qed.

Lemma splitLines_length (n : nat) (s piece : JsString) :
  (List.length s <= n)%nat ->
  (List.length (splitLines piece s) <= S (count_occ N.eq_dec s LF))%nat.
Proof.
  revert s piece. induction n as [|n IH]; intros s piece Hn.
  - destruct s; [simpl; lia | simpl in Hn; lia].
  - destruct s as [|c rest]; [simpl; lia|].
    simpl in Hn. cbn [splitLines count_occ].
    destruct (N.eqb_spec c LF) as [->|Hc].
    { destruct (N.eq_dec LF LF); [|congruence].
      cbn [List.length]. specialize (IH rest [] ltac:(lia)). lia. }
    destruct (N.eq_dec c LF); [congruence|].
    destruct (N.eqb_spec c CR); [|apply IH; lia].
    destruct rest as [|c2 rest']; [apply IH; simpl; lia|].
    destruct (N.eqb_spec c2 LF) as [->|]; [|apply IH; lia].
    cbn [count_occ List.length]. destruct (N.eq_dec LF LF); [|congruence].
    simpl in Hn. specialize (IH rest' [] ltac:(lia)). lia.
Qed.

Lemma filter_shorter {A : Type} (f : A -> bool) (l : list A) :
  (List.length (filter f l) <= List.length l)%nat.
Proof.
  induction l as [|a l IH]; simpl; [lia|]. destruct (f a); simpl; lia.
Qed.

Lemma trim_clean (l : JsString) : cleanLine l -> trim l = l.
Proof.
  intros ((c & r & Hh & Hc) & (r' & c' & Ht & Hc') & _).
  unfold trim. rewrite Hh, trimStart_keep by exact Hc.
  rewrite <- Hh, Ht. apply trimEnd_keep, Hc'.
Qed.

Lemma cleanLine_no_CR_end (l : JsString) :
  cleanLine l -> forall r, l <> r ++ [CR].
Proof.
  intros (_ & (r' & c' & Ht & Hc') & _) r Hr.
  rewrite Ht in Hr. apply app_inj_tail in Hr. destruct Hr as [_ ->].
  discriminate.
Qed.

Lemma cleanLine_nonEmpty (l : JsString) : cleanLine l -> nonEmpty l = true.
Proof. intros ((c & r & -> & _) & _). reflexivity. Qed.

Lemma lineEnd_white (sep : JsString) : lineEnd sep -> allWhite sep.
Proof. intros [->| ->]; repeat constructor. Qed.

(** The lines of three clean lines with their line ends and more. *)
Lemma splitLines_three (n a b sep1 sep2 : JsString) (more : JsString) :
  cleanLine n -> cleanLine a -> cleanLine b ->
  lineEnd sep1 -> lineEnd sep2 ->
  (more = [] \/ exists sep3 rest, lineEnd sep3 /\ more = sep3 ++ rest) ->
  exists others,
    filter nonEmpty
      (map trim (splitLines [] (n ++ sep1 ++ a ++ sep2 ++ b ++ more)))
    = n :: a :: b :: others.
Proof.
  intros Hn Ha Hb H1 H2 Hmore.
  rewrite (splitLines_line n [] sep1 _ (proj2 (proj2 Hn))
             (cleanLine_no_CR_end n Hn) H1).
  rewrite (splitLines_line a [] sep2 _ (proj2 (proj2 Ha))
             (cleanLine_no_CR_end a Ha) H2).
  cbn [rev app map filter].
  rewrite (trim_clean n Hn), (trim_clean a Ha).
  rewrite (cleanLine_nonEmpty n Hn), (cleanLine_nonEmpty a Ha).
  destruct Hmore as [->|(sep3 & rest & H3 & ->)].
  - rewrite app_nil_r, (splitLines_end b [] (proj2 (proj2 Hb))).
    cbn [rev app map filter].
    rewrite (trim_clean b Hb), (cleanLine_nonEmpty b Hb). eauto.
  - rewrite (splitLines_line b [] sep3 _ (proj2 (proj2 Hb))
               (cleanLine_no_CR_end b Hb) H3).
    cbn [rev app map filter].
    rewrite (trim_clean b Hb), (cleanLine_nonEmpty b Hb). eauto.
Qed.

Lemma trimmed_piece_clean (piece : JsString) :
  noLF piece -> nonEmpty (trim piece) = true -> cleanLine (trim piece).
Proof.
  intros Hp Hne. split; [|split].
  - destruct (trim piece) as [|c r] eqn:E; [discriminate|].
    exists c, r. split; [reflexivity | eapply trim_head, E].
  - destruct (trim piece) as [|c r] eqn:E; [discriminate|].
    destruct (@exists_last _ (c :: r) ltac:(discriminate)) as (r' & c' & Hl).
    exists r', c'. split; [exact Hl|].
    rewrite Hl in E. eapply trim_last, E.
  - destruct (trim_parts piece) as (w & w' & _ & _ & Hs).
    intro H. apply Hp. rewrite Hs. apply in_or_app. right.
    apply in_or_app. now left.
Qed.

Lemma fetched_lines_clean (txt : JsString) :
  Forall cleanLine (filter nonEmpty (map trim (splitLines [] txt))).
Proof.
  apply Forall_forall. intros l Hl. apply filter_In in Hl.
  destruct Hl as [Hl Hne]. apply in_map_iff in Hl.
  destruct Hl as (piece & <- & Hp).
  apply trimmed_piece_clean; [|exact Hne].
  pose proof (splitLines_noLF (List.length txt) txt [] (Nat.le_refl _)
                ltac:(intros [])) as Hall.
  rewrite Forall_forall in Hall. apply Hall, Hp.
Qed.

(** The three lines that [fetchLocalTLE] returns are never empty, have
    no white space at either end and hold no line feed. *)
Theorem fetchLocalTLE_clean (res : Response) (t : Tle) :
  fetchLocalTLE res = inr t ->
  cleanLine (name t) /\ cleanLine (l1 t) /\ cleanLine (l2 t).
Proof.
  unfold fetchLocalTLE. destruct (negb (ok res)); [discriminate|].
  pose proof (fetched_lines_clean (trim (body res))) as Hall.
  destruct (filter nonEmpty (map trim (splitLines [] (trim (body res)))))
    as [|n [|a [|b others]]]; try discriminate.
  intro H. inversion H; subst t. cbn [name l1 l2].
  inversion Hall as [|? ? Hn Hall1]; subst.
  inversion Hall1 as [|? ? Ha Hall2]; subst.
  inversion Hall2 as [|? ? Hb _]; subst. auto.
Qed.

Lemma fetchLocalTLE_clean_witness :
  cleanLine [83; 65; 84]%N /\ cleanLine [49]%N /\ cleanLine [50]%N.
Proof.
  apply (fetchLocalTLE_clean
           (mkResponse true 200 [32; 83; 65; 84; 13; 10; 10; 49; 32; 10;
                                 50; 10]%N)
           (mkTle [83; 65; 84]%N [49]%N [50]%N)).
  vm_compute. reflexivity.
Defined.

Lemma trimEnd_after_clean (pre b tail : JsString) :
  cleanLine b ->
  (allWhite tail \/
   exists sep3 rest, lineEnd sep3 /\ tail = sep3 ++ rest) ->
  exists more,
    trimEnd (pre ++ b ++ tail) = pre ++ b ++ more /\
    (more = [] \/ exists sep3 rest, lineEnd sep3 /\ more = sep3 ++ rest).
Proof.
  intros (_ & (rb & cb & Hb & Hcb) & _) Htail.
  assert (Hwhite : allWhite tail ->
                   trimEnd (pre ++ b ++ tail) = pre ++ b ++ []).
  { intro Hw. rewrite app_nil_r, !app_assoc.
    rewrite trimEnd_white by exact Hw.
    rewrite Hb, app_assoc. apply trimEnd_keep, Hcb. }
  destruct Htail as [Hw|(sep3 & rest & H3 & ->)].
  - exists []. split; [apply Hwhite, Hw | now left].
  - destruct (last_nonwhite rest) as [Hw|(r1 & c & w & Hr & Hc & Hw)].
    + exists []. split; [|now left]. apply Hwhite.
      apply Forall_app. split; [apply lineEnd_white, H3 | exact Hw].
    + exists (sep3 ++ trimEnd rest). split; [|right; eauto].
      assert (Hnw : ~ allWhite rest).
      { intro Hall. rewrite Hr in Hall. apply Forall_app in Hall.
        destruct Hall as [_ Hall]. inversion Hall; congruence. }
      rewrite <- (trimEnd_app sep3 rest Hnw).
      assert (Hnw' : ~ allWhite (sep3 ++ rest)).
      { intro Hall. apply Forall_app in Hall. tauto. }
      rewrite <- (trimEnd_app b _ Hnw').
      assert (Hnw'' : ~ allWhite (b ++ sep3 ++ rest)).
      { intro Hall. apply Forall_app in Hall. tauto. }
      apply (trimEnd_app pre _ Hnw'').
Qed.

Lemma trimStart_clean_app (n rest : JsString) :
  cleanLine n -> trimStart (n ++ rest) = n ++ rest.
Proof.
  intros ((c & r & -> & Hc) & _). cbn [app]. apply trimStart_keep, Hc.
Qed.

(** Reading back a record: a body that holds three clean lines, each
    ended by a line feed or by a carriage return and a line feed, with
    any white space before them, and after them white space only or a
    line end and anything, is read as these three lines. *)
Theorem fetchLocalTLE_reads_record (res : Response)
    (w1 n sep1 a sep2 b tail : JsString) :
  ok res = true ->
  body res = w1 ++ n ++ sep1 ++ a ++ sep2 ++ b ++ tail ->
  allWhite w1 ->
  cleanLine n -> cleanLine a -> cleanLine b ->
  lineEnd sep1 -> lineEnd sep2 ->
  (allWhite tail \/
   exists sep3 rest, lineEnd sep3 /\ tail = sep3 ++ rest) ->
  fetchLocalTLE res = inr (mkTle n a b).
Proof.
  intros Hok Hbody Hw1 Hn Ha Hb H1 H2 Htail.
  unfold fetchLocalTLE. rewrite Hok, Hbody. cbn [negb].
  assert (Htrim : exists more,
             trim (w1 ++ n ++ sep1 ++ a ++ sep2 ++ b ++ tail)
             = n ++ sep1 ++ a ++ sep2 ++ b ++ more /\
             (more = [] \/
              exists sep3 rest, lineEnd sep3 /\ more = sep3 ++ rest)).
  { unfold trim. rewrite trimStart_white by exact Hw1.
    rewrite (trimStart_clean_app n _ Hn).
    destruct (trimEnd_after_clean (n ++ sep1 ++ a ++ sep2) b tail Hb Htail)
      as (more & Hmore & Hshape).
    exists more. split; [|exact Hshape].
    repeat rewrite <- app_assoc in Hmore. exact Hmore. }
  destruct Htrim as (more & -> & Hshape).
  destruct (splitLines_three n a b sep1 sep2 more Hn Ha Hb H1 H2 Hshape)
    as (others & ->).
  reflexivity.
Qed.

Lemma clean_one (c : N) : isWhiteSpace c = false -> c <> LF -> cleanLine [c].
Proof.
  intros Hc Hlf. split; [exists c, []; auto|].
  split; [exists [], c; auto|]. intros [H|[]]. congruence.
Qed.

Lemma fetchLocalTLE_reads_record_witness :
  fetchLocalTLE
    (mkResponse true 200 [32; 65; 10; 49; 13; 10; 50; 10; 51]%N)
  = inr (mkTle [65]%N [49]%N [50]%N).
Proof.
  apply (fetchLocalTLE_reads_record
           (mkResponse true 200 [32; 65; 10; 49; 13; 10; 50; 10; 51]%N)
           [32]%N [65]%N [LF] [49]%N [CR; LF] [50]%N [10; 51]%N).
  - reflexivity.
  - reflexivity.
  - repeat constructor.
  - apply clean_one; [reflexivity | discriminate].
  - apply clean_one; [reflexivity | discriminate].
  - apply clean_one; [reflexivity | discriminate].
  - now left.
  - now right.
  - right. exists [LF], [51]%N. split; [now left | reflexivity].
Defined.

(** A body with fewer than two line feeds cannot hold three lines: once
    the file has been read, the function throws the "no three lines"
    error. *)
Theorem fetchLocalTLE_too_few (res : Response) :
  ok res = true ->
  (count_occ N.eq_dec (body res) LF < 2)%nat ->
  fetchLocalTLE res = inl TooFewLines.
Proof.
  intros Hok Hcount. unfold fetchLocalTLE. rewrite Hok. cbn [negb].
  set (txt := trim (body res)).
  assert (Hlf : (count_occ N.eq_dec txt LF
                 <= count_occ N.eq_dec (body res) LF)%nat).
  { destruct (trim_parts (body res)) as (w & w' & _ & _ & Hs).
    fold txt in Hs.
    apply (f_equal (fun l => count_occ N.eq_dec l LF)) in Hs.
    rewrite !count_occ_app in Hs. lia. }
  pose proof (splitLines_length (List.length txt) txt [] (Nat.le_refl _))
    as Hlen.
  pose proof (filter_shorter nonEmpty (map trim (splitLines [] txt)))
    as Hfil.
  rewrite length_map in Hfil.
  destruct (filter nonEmpty (map trim (splitLines [] txt)))
    as [|x [|y [|z others]]]; try reflexivity.
  simpl in Hfil. lia.
Qed.

Lemma fetchLocalTLE_too_few_witness :
  fetchLocalTLE (mkResponse true 200 [65; 10; 49]%N) = inl TooFewLines.
Proof.
  apply (fetchLocalTLE_too_few (mkResponse true 200 [65; 10; 49]%N)).
  - reflexivity.
  - vm_compute. lia.
Defined.

(** * startLive and stopLive (app.js 259-314) *)

(** The texts that the two functions write to the status line. *)
Inductive LiveStatus : Type :=
| StatusNeedsDraw   (* line 288: draw first *)
| StatusLiveOn      (* line 303 *)
| StatusLiveOff     (* line 313 *)
| StatusOther.      (* a text written elsewhere *)

(** The variables and the page elements that the two functions read and
    write, and the interval timers of the browser: [setInterval] starts
    a timer under a fresh id, [clearInterval] stops the timer with the
    given id, if any. *)
Record Page : Type := mkPage {
  hasSatrec : bool;           (* [currentSatrec] is not [null] *)
  liveTimer : option nat;     (* the variable [liveTimer] *)
  stopDisabled : bool;        (* [btnStop.disabled] *)
  liveDisabled : bool;        (* [btnLive.disabled] *)
  dtDisabled : bool;          (* [dtEl.disabled] *)
  hoursDisabled : bool;       (* [hoursEl.disabled] *)
  statusText : LiveStatus;    (* [statusEl.textContent] *)
  intervals : list nat;       (* the timers that are running *)
  nextTimer : nat             (* the id of the next timer *)
}.

Definition clearInterval (id : option nat) (running : list nat)
    : list nat :=
  match id with
  | None => running
  | Some i => remove Nat.eq_dec i running
  end.

Definition startLive (p : Page) : Page :=
  if negb (hasSatrec p) then
    mkPage (hasSatrec p) (liveTimer p) (stopDisabled p) (liveDisabled p)
      (dtDisabled p) (hoursDisabled p) StatusNeedsDraw (intervals p)
      (nextTimer p)
  else
    mkPage (hasSatrec p) (Some (nextTimer p)) false true true true
      StatusLiveOn (nextTimer p :: intervals p) (S (nextTimer p)).

Definition stopLive (p : Page) : Page :=
  mkPage (hasSatrec p) None true false false false StatusLiveOff
    (clearInterval (liveTimer p) (intervals p)) (nextTimer p).

(** What the user can do: click a button, which calls its listener
    unless the button is disabled, or get a track drawn, which sets
    [currentSatrec] (line 270). *)
Inductive PageEvent : Type :=
| ClickLive
| ClickStop
| TrackDrawn.

Definition pageEvent (e : PageEvent) (p : Page) : Page :=
  match e with
  | ClickLive => if liveDisabled p then p else startLive p
  | ClickStop => if stopDisabled p then p else stopLive p
  | TrackDrawn =>
      mkPage true (liveTimer p) (stopDisabled p) (liveDisabled p)
        (dtDisabled p) (hoursDisabled p) StatusOther (intervals p)
        (nextTimer p)
  end.

Definition pageEvents (es : list PageEvent) (p : Page) : Page :=
  fold_left (fun q e => pageEvent e q) es p.

(** The running timers are the one that [liveTimer] holds, and the Live
    button is disabled exactly while there is one. *)
Definition liveInv (p : Page) : Prop :=
  intervals p = match liveTimer p with Some i => [i] | None => [] end /\
  (liveDisabled p = true <-> liveTimer p <> None).

Lemma remove_one (i : nat) : remove Nat.eq_dec i [i] = [].
Proof. simpl. destruct (Nat.eq_dec i i); [reflexivity | congruence]. Qed.

Lemma stopLive_inv (p : Page) :
  liveInv p -> liveInv (stopLive p) /\ intervals (stopLive p) = [].
Proof.
  intros [Hrun _].
  assert (Hnone : intervals (stopLive p) = []).
  { unfold stopLive. cbn [intervals]. rewrite Hrun.
    destruct (liveTimer p); [apply remove_one | reflexivity]. }
  split; [|exact Hnone]. split; [exact Hnone|].
  unfold stopLive. cbn. split; [discriminate | congruence].
Qed.

Lemma pageEvent_inv (e : PageEvent) (p : Page) :
  liveInv p -> liveInv (pageEvent e p).
Proof.
  intro Hinv. destruct e; cbn [pageEvent].
  - destruct (liveDisabled p) eqn:Hd; [exact Hinv|].
    unfold startLive. destruct (hasSatrec p); cbn [negb].
    + destruct Hinv as [Hrun Hiff].
      assert (Hnone : liveTimer p = None).
      { destruct (liveTimer p); [|reflexivity].
        assert (liveDisabled p = true) by (apply Hiff; discriminate).
        congruence. }
      rewrite Hnone in Hrun. split; cbn; [now rewrite Hrun|].
      split; [discriminate | reflexivity].
    + destruct Hinv as [Hrun Hiff]. split; [exact Hrun|]. cbn.
      exact Hiff.
  - destruct (stopDisabled p); [exact Hinv|]. apply stopLive_inv, Hinv.
  - destruct Hinv as [Hrun Hiff]. split; [exact Hrun | exact Hiff].
Qed.

(** Whatever the user does, at most one interval timer runs, it is the
    one that the variable [liveTimer] holds, and [stopLive] stops it:
    the Live button is disabled as long as a timer runs. *)
Theorem live_one_timer (es : list PageEvent) (p : Page) :
  liveInv p ->
  liveInv (pageEvents es p) /\
  (List.length (intervals (pageEvents es p)) <= 1)%nat /\
  intervals (stopLive (pageEvents es p)) = [].
Proof.
  intro Hinv.
  assert (Hall : liveInv (pageEvents es p)).
  { revert p Hinv. induction es as [|e es IH]; intros p Hinv;
      [exact Hinv|].
    cbn. apply IH, pageEvent_inv, Hinv. }
  split; [exact Hall|]. split; [|apply stopLive_inv, Hall].
  destruct Hall as [-> _]. destruct (liveTimer _); simpl; lia.
Qed.

(** A page on which a track has been drawn and nothing else. *)
Definition idlePage : Page :=
  mkPage true None true false false false StatusOther [] 1.

Lemma live_one_timer_witness :
  liveInv (pageEvents [ClickLive; ClickLive; TrackDrawn] idlePage) /\
  (List.length
     (intervals (pageEvents [ClickLive; ClickLive; TrackDrawn] idlePage))
   <= 1)%nat /\
  intervals
    (stopLive (pageEvents [ClickLive; ClickLive; TrackDrawn] idlePage))
  = [].
Proof.
  apply (live_one_timer [ClickLive; ClickLive; TrackDrawn] idlePage).
  split; [reflexivity|]. split; [discriminate | intro H; now contradiction H].
Defined.

(** Only the disabled button keeps the timers apart: [startLive] called
    twice in a row starts two timers, and [stopLive] then stops the
    second one only; the first keeps running and no variable holds its
    id. *)
Theorem startLive_twice_leaks (p : Page) :
  hasSatrec p = true -> intervals p = [] ->
  intervals (stopLive (startLive (startLive p))) = [nextTimer p] /\
  liveTimer (stopLive (startLive (startLive p))) = None.
Proof.
  intros Hsat Hrun. unfold stopLive, startLive. rewrite Hsat.
  cbn [negb hasSatrec liveTimer intervals nextTimer clearInterval].
  rewrite Hrun. cbn [remove]. split; [|reflexivity].
  destruct (Nat.eq_dec (S (nextTimer p)) (S (nextTimer p)));
    [|congruence].
  destruct (Nat.eq_dec (S (nextTimer p)) (nextTimer p)); [lia|].
  reflexivity.
Qed.

Lemma startLive_twice_leaks_witness :
  intervals (stopLive (startLive (startLive idlePage))) = [1%nat] /\
  liveTimer (stopLive (startLive (startLive idlePage))) = None.
Proof.
  apply (startLive_twice_leaks idlePage); reflexivity.
Defined.

(** * pad and toLocalInputValue (app.js 33-38) *)

(** [String(n)] for an integer [n]: its decimal digits, with a minus
    sign when it is negative. *)
Definition numberToString (n : Z) : string :=
  DecimalString.NilZero.string_of_int (Z.to_int n).

Fixpoint repeatChar (c : ascii) (n : nat) : string :=
  match n with
  | O => EmptyString
  | S n' => String c (repeatChar c n')
  end.

(** [s.padStart(targetLength, c)] for a pad string of the one character
    [c]. *)
Definition padStart (targetLength : nat) (c : ascii) (s : string)
    : string :=
  (repeatChar c (targetLength - String.length s) ++ s)%string.

Definition pad (n : Z) : string := padStart 2 "0" (numberToString n).

(** What the local-time getters of a [Date] return: [getFullYear],
    [getMonth] (0 to 11), [getDate], [getHours], [getMinutes]. *)
Record LocalDate : Type := mkLocalDate {
  getFullYear : Z;
  getMonth : Z;
  getDate : Z;
  getHours : Z;
  getMinutes : Z
}.

Definition toLocalInputValue (d : LocalDate) : string :=
  let yy := numberToString (getFullYear d) in
  let mm := pad (getMonth d + 1) in
  let dd := pad (getDate d) in
  let hh := pad (getHours d) in
  let mi := pad (getMinutes d) in
  (yy ++ "-" ++ mm ++ "-" ++ dd ++ "T" ++ hh ++ ":" ++ mi)%string.

(** Reading a decimal string back. *)
Definition readNumber (s : string) : option Z :=
  option_map Z.of_int (DecimalString.NilZero.int_of_string s).

Definition padOK (k : nat) : bool :=
  let n := Z.of_nat k in
  (String.length (pad n) =? 2)%nat &&
  match readNumber (pad n) with
  | Some m => m =? n
  | None => false
  end.

Lemma padOK_all : forallb padOK (seq 0 100) = true.
Proof. vm_compute. reflexivity. Qed.

Lemma pad_digits_length (n : Z) :
  0 <= n <= 99 ->
  String.length (pad n) = 2%nat /\ readNumber (pad n) = Some n.
Proof.
  intro Hn.
  pose proof (proj1 (forallb_forall padOK (seq 0 100)) padOK_all
                (Z.to_nat n)) as H.
  assert (Hin : In (Z.to_nat n) (seq 0 100)) by (apply in_seq; lia).
  specialize (H Hin). unfold padOK in H.
  rewrite Z2Nat.id in H by lia.
  apply andb_true_iff in H. destruct H as [Hlen Hread].
  split; [apply Nat.eqb_eq, Hlen|].
  destruct (readNumber (pad n)) as [m|]; [|discriminate].
  apply Z.eqb_eq in Hread. now subst.
Qed.

(** For a number from 0 to 99 [pad] gives two characters, which read
    back as the number. *)
Theorem pad_two_digits (n : Z) :
  0 <= n <= 99 ->
  String.length (pad n) = 2%nat /\ readNumber (pad n) = Some n.
Proof. apply pad_digits_length. Qed.

Lemma pad_two_digits_witness :
  String.length (pad 7) = 2%nat /\ readNumber (pad 7) = Some 7.
Proof. apply (pad_two_digits 7). lia. Defined.

Definition yearOK (k : nat) : bool :=
  (String.length (numberToString (1000 + Z.of_nat k)) =? 4)%nat.

Lemma yearOK_all : forallb yearOK (seq 0 (Z.to_nat 9000)) = true.
Proof. vm_compute. reflexivity. Qed.

Lemma year_four_digits (y : Z) :
  1000 <= y <= 9999 -> String.length (numberToString y) = 4%nat.
Proof.
  intro Hy.
  pose proof (proj1 (forallb_forall yearOK (seq 0 (Z.to_nat 9000))) yearOK_all
                (Z.to_nat (y - 1000))) as H.
  assert (Hin : In (Z.to_nat (y - 1000)) (seq 0 (Z.to_nat 9000)))
    by (apply in_seq; lia).
  specialize (H Hin). unfold yearOK in H.
  rewrite Z2Nat.id in H by lia.
  replace (1000 + (y - 1000)) with y in H by lia.
  apply Nat.eqb_eq, H.
Qed.

Lemma string_of_length_2 (s : string) :
  String.length s = 2%nat -> exists a b, s = String a (String b EmptyString).
Proof.
  destruct s as [|a [|b [|c s]]]; try discriminate. eauto.
Qed.

Lemma string_of_length_4 (s : string) :
  String.length s = 4%nat ->
  exists a b c d,
    s = String a (String b (String c (String d EmptyString))).
Proof.
  destruct s as [|a [|b [|c [|d [|e s]]]]]; try discriminate. eauto 6.
Qed.

(** For a date with a year of four digits, the value written to the
    date input has the sixteen characters of [YYYY-MM-DDTHH:MM], with
    the separators in their places. *)
Theorem toLocalInputValue_shape (d : LocalDate) :
  1000 <= getFullYear d <= 9999 -> 0 <= getMonth d <= 11 ->
  1 <= getDate d <= 31 -> 0 <= getHours d <= 23 ->
  0 <= getMinutes d <= 59 ->
  String.length (toLocalInputValue d) = 16%nat /\
  String.get 4 (toLocalInputValue d) = Some "-"%char /\
  String.get 7 (toLocalInputValue d) = Some "-"%char /\
  String.get 10 (toLocalInputValue d) = Some "T"%char /\
  String.get 13 (toLocalInputValue d) = Some ":"%char.
Proof.
  intros Hy Hm Hd Hh Hmi. unfold toLocalInputValue.
  destruct (string_of_length_4 _ (year_four_digits _ Hy))
    as (y1 & y2 & y3 & y4 & ->).
  destruct (string_of_length_2 _
              (proj1 (pad_digits_length (getMonth d + 1) ltac:(lia))))
    as (m1 & m2 & ->).
  destruct (string_of_length_2 _
              (proj1 (pad_digits_length (getDate d) ltac:(lia))))
    as (d1 & d2 & ->).
  destruct (string_of_length_2 _
              (proj1 (pad_digits_length (getHours d) ltac:(lia))))
    as (h1 & h2 & ->).
  destruct (string_of_length_2 _
              (proj1 (pad_digits_length (getMinutes d) ltac:(lia))))
    as (i1 & i2 & ->).
  repeat split; reflexivity.
Qed.

Lemma toLocalInputValue_shape_witness :
  let d := mkLocalDate 2026 10 2 9 5 in
  String.length (toLocalInputValue d) = 16%nat /\
  String.get 4 (toLocalInputValue d) = Some "-"%char /\
  String.get 7 (toLocalInputValue d) = Some "-"%char /\
  String.get 10 (toLocalInputValue d) = Some "T"%char /\
  String.get 13 (toLocalInputValue d) = Some ":"%char.
Proof.
  apply (toLocalInputValue_shape (mkLocalDate 2026 10 2 9 5));
    cbn; lia.
Defined.

(** * A pass spans no sample below the horizon *)

Section PassSpan.

Variable elevationDeg : Z -> option Q.
Variable start : Z.

Local Notation "'bisect' t0 t1" :=
  (bisectCrossingTime elevationDeg t0 t1 0 defaultIters)
  (at level 10, t0 at level 9, t1 at level 9).
Local Notation "'coarse'" := (coarseSample start).

(** Every coarse sample with an elevation strictly between [lo] and [hi]
    (or up to [hi]) is above the horizon. *)
Definition upWithin (lo hi : Z) : Prop :=
  forall w e, coarse w -> lo < w < hi -> elevationDeg w = Some e ->
              (0 < e)%Q.

Definition allUp (p : Pass) : Prop := upWithin (aos p) (los p).

Definition spanInv (x : Z) (s : Scan) : Prop :=
  coarse x /\ prevT s < x /\ flagInv s /\
  (forall w, coarse w -> prevT s < w < x -> elevationDeg w = None) /\
  Forall allUp (passes s) /\
  (inPass s = true ->
   exists a, currentAOS s = Some a /\ upWithin a (prevT s + 1)).

Lemma coarse_gap (x w : Z) :
  coarse x -> coarse w -> x < w < x + stepMs -> False.
Proof.
  unfold coarseSample, stepMs. intros (k & Hk & ->) (k' & Hk' & ->) H. lia.
Qed.

Lemma scanBody_span (nPasses x : Z) (s : Scan) :
  spanInv x s ->
  match scanBody elevationDeg nPasses x s with
  | Continue s' => spanInv (x + stepMs) s'
  | Break s' => Forall allUp (passes s')
  end.
Proof.
  intros (Hx & Hpt & Hflag & Hgap & Hps & Hopen).
  pose proof stepMs_pos as Hs.
  pose proof (coarseSample_next start x Hx) as Hx'.
  destruct (elevationDeg x) as [e|] eqn:Ex.
  2:{ rewrite scanBody_null by exact Ex.
      split; [exact Hx'|]. split; [lia|]. split; [exact Hflag|].
      split; [|split; assumption].
      intros w Hw Hr. destruct (Z.lt_trichotomy w x) as [Hlt|[->|Hgt]].
      - apply Hgap; [exact Hw | lia].
      - exact Ex.
      - exfalso. apply (coarse_gap x w Hx Hw). lia. }
  assert (Hgap' : forall w, coarse w -> x < w < x + stepMs ->
                            elevationDeg w = None).
  { intros w Hw Hr. exfalso. apply (coarse_gap x w Hx Hw Hr). }
  assert (Hnew : forall w e', coarse w -> prevT s < w < x + 1 ->
                   elevationDeg w = Some e' -> e' = e).
  { intros w e' Hw Hr He'.
    destruct (Z.eq_dec w x) as [->|Hne]; [congruence|].
    rewrite (Hgap w Hw) in He' by lia. discriminate. }
  destruct s as [pt pe ip ca ps]. unfold flagInv in Hflag.
  cbn [prevT prevE inPass currentAOS passes] in *. subst ip.
  rewrite (scanBody_by_sides _ _ _ _ _ _ _ _ Ex).
  pose proof (orDate_inside elevationDeg pt x ltac:(lia)) as Hin.
  destruct (Qltb 0 pe) eqn:P0, (Qltb 0 e) eqn:P1; cbn [Bool.eqb].
  - split; [exact Hx'|]. split; [cbn; lia|].
    split; [unfold flagInv; cbn [inPass prevE]; congruence|].
    split; [exact Hgap'|]. split; [exact Hps|]. intros _.
    destruct (Hopen eq_refl) as (a & Ha & Hup). exists a.
    split; [exact Ha|]. cbn [prevT]. intros w e' Hw Hr He'.
    destruct (Z_lt_le_dec w (pt + 1)) as [Hlow|Hhigh].
    + apply (Hup w e' Hw); [lia | exact He'].
    + rewrite (Hnew w e' Hw ltac:(lia) He'). apply Qltb_lt, P1.
  - destruct (Hopen eq_refl) as (a & -> & Hup).
    unfold closedPass. cbn [currentAOS prevT].
    destruct (a <? orDate (bisect pt x) x).
    + assert (Hall : Forall allUp
                (ps ++ [mkPass a (orDate (bisect pt x) x)
                          (peakT (findMaxElevation elevationDeg a
                                    (orDate (bisect pt x) x)))
                          (peakElev (findMaxElevation elevationDeg a
                                       (orDate (bisect pt x) x)))])).
      { apply Forall_app. split; [exact Hps|].
        constructor; [|constructor].
        unfold allUp. cbn [aos los]. intros w e' Hw Hr He'.
        destruct (Z_lt_le_dec w (pt + 1)) as [Hlow|Hhigh].
        - apply (Hup w e' Hw); [lia | exact He'].
        - rewrite (Hgap w Hw) in He' by lia. discriminate. }
      destruct (_ >=? nPasses); [exact Hall|].
      split; [exact Hx'|]. split; [cbn; lia|].
      split; [unfold flagInv; cbn [inPass prevE]; congruence|].
      split; [exact Hgap'|]. split; [exact Hall | discriminate].
    + split; [exact Hx'|]. split; [cbn; lia|].
      split; [unfold flagInv; cbn [inPass prevE]; congruence|].
      split; [exact Hgap'|]. split; [exact Hps | discriminate].
  - split; [exact Hx'|]. split; [cbn; lia|].
    split; [unfold flagInv; cbn [inPass prevE]; congruence|].
    split; [exact Hgap'|]. split; [exact Hps|]. intros _.
    exists (orDate (bisect pt x) x). split; [reflexivity|].
    cbn [prevT]. intros w e' Hw Hr He'.
    rewrite (Hnew w e' Hw ltac:(lia) He'). apply Qltb_lt, P1.
  - split; [exact Hx'|]. split; [cbn; lia|].
    split; [unfold flagInv; cbn [inPass prevE]; congruence|].
    split; [exact Hgap'|]. split; [exact Hps | discriminate].
Qed.

Lemma scanInit_span : spanInv (start + stepMs) (scanInit elevationDeg start).
Proof.
  pose proof stepMs_pos as Hs. unfold scanInit.
  assert (H0 : coarse start) by (exists 0; split; [lia | ring]).
  split; [exists 1; split; [lia | ring]|].
  split; [cbn; lia|]. split; [reflexivity|]. cbn [prevT passes].
  split; [intros w Hw Hr; exfalso; apply (coarse_gap start w H0 Hw Hr)|].
  split; [constructor|].
  cbn [inPass currentAOS]. intro Hup. rewrite Hup. exists start.
  split; [reflexivity|]. intros w e Hw Hr. lia.
Qed.

End PassSpan.

(** A pass spans no sample below the horizon: at every coarse sample
    strictly between the AOS and the LOS of an emitted pass, the oracle
    gives no elevation or one above 0. *)
Theorem emitted_pass_spans_up_samples (elevationDeg : Z -> option Q)
    (start nPasses searchHours : Z) (p : Pass) (k : Z) (e : Q) :
  In p (scanPasses elevationDeg start nPasses searchHours) ->
  0 <= k -> aos p < start + stepMs * k < los p ->
  elevationDeg (start + stepMs * k) = Some e ->
  (0 < e)%Q.
Proof.
  intros Hin Hk Hr He.
  assert (Hall : Forall (allUp elevationDeg start)
                   (scanPasses elevationDeg start nPasses searchHours)).
  { unfold scanPasses.
    eapply (forRuns_inv (windowEnd start searchHours) stepMs
              (scanBody elevationDeg nPasses)
              (spanInv elevationDeg start)
              (fun s => Forall (allUp elevationDeg start) (passes s))).
    - intros x s _ HI. apply scanBody_span, HI.
    - intros x s HI. apply HI.
    - apply forLoop_runs; [unfold stepMs; lia | apply Nat.le_refl].
    - apply scanInit_span. }
  rewrite Forall_forall in Hall.
  apply (Hall p Hin (start + stepMs * k) e); try assumption.
  exists k. auto.
Qed.

Lemma emitted_pass_spans_up_samples_witness :
  (0 < 1)%Q.
Proof.
  apply (emitted_pass_spans_up_samples (boxOracle 30000 90000) 0 5 1
           (mkPass 29999 90000 34999 1) 3 1).
  - vm_compute. left. reflexivity.
  - lia.
  - cbn. lia.
  - reflexivity.
Defined.
